(** * GuardMidia: the client-side data layer

    A shallow embedding of the account directory ([AuthProvider]) and its
    form ([AuthPage]), the media catalog ([MediaProvider]), the catalog view
    ([MediaGrid]), the backup and restore of the catalog as a JSON document,
    the persistent state cell ([useLocalStorage]), the toasts
    ([ToastProvider]), the upload dialog ([UploadModal]) and the tagging of
    images ([generateTagsForImage]), followed by the properties of that
    layer.

    The source is [src/types.ts], and the line numbers below are its lines;
    the tagging is [src/services/geminiService.ts], with its own lines.

    Conventions of the embedding.
    - A React state cell is a value that every operation receives and returns;
      a call reads the state left by the call before it. Where the calls of
      one render matter ([Storage], [AuthPage]), the value that the render
      holds is an argument of its own, and every function of that render
      reads it; [Media.made] has the calls on the catalog through the
      functions of any render.
    - A JavaScript number of the typed catalog (sizes, view counts,
      dimensions, the clock) is an integer, of a size that a double holds
      exactly. The numbers of a JSON text are read as [JSON.parse] reads
      them, to the nearest double ([Json.parse_number]); arithmetic on
      doubles with a fraction is outside the model.
    - A JavaScript string is a [string] of bytes, read as UTF-8 text.
    - What the platform decides ([Date.now], [Math.random],
      [String.prototype.toLowerCase], whether [localStorage] takes an item,
      how a promise of the platform ends, what the tagging service answers)
      is an argument of the operation that reads it.
    - The catalog is an array of [MediaFile] wherever the source types it so.
      [restoreData] and [useLocalStorage] store what [JSON.parse] returned
      without reading it at that type, so they are functions on JSON values,
      and [toJSON] gives the JSON value of a typed record. *)

From Stdlib Require Import ZArith NArith Ascii String List Lia Decimal DecimalString DecimalN.
From Stdlib Require Floats.SpecFloat.
From stdpp Require Import gmap strings list.

Local Open Scope Z_scope.

(** ** Strings of the platform *)

Module JS.

(** Decimal digits of a non-negative integer, as [Number.prototype.toString]
    prints an integer. *)
Definition digits (n : N) : string := NilEmpty.string_of_uint (N.to_uint n).

(** An integer printed in decimal, with a minus sign when negative. *)
Definition string_of_Z (z : Z) : string :=
  match z with
  | Zneg p => String "-" (digits (Npos p))
  | _ => digits (Z.to_N z)
  end.

(** [a === b] on strings. *)
Definition strict_eq (a b : string) : bool := String.eqb a b.

(** [s.startsWith(p)]. *)
Fixpoint startsWith (p s : string) : bool :=
  match p, s with
  | EmptyString, _ => true
  | String a p', String b s' => Ascii.eqb a b && startsWith p' s'
  | String _ _, EmptyString => false
  end.

(** [s.includes(sub)]: [sub] occurs in [s] at some position. *)
Fixpoint includes (s sub : string) : bool :=
  startsWith sub s ||
  match s with
  | EmptyString => false
  | String _ s' => includes s' sub
  end.

End JS.

(** ** The media catalog ([MediaProvider]) *)

Module Media.

Inductive MediaType := image | video.

(** [interface MediaFile] (lines 7 to 20). *)
Record MediaFile := mkMediaFile {
  id : string;
  name : string;
  type : MediaType;
  mimeType : string;
  size : Z;
  dataUrl : string;
  category : string;
  tags : list string;
  uploadDate : string;
  views : Z;
  width : option Z;
  height : option Z
}.

(** [Omit<MediaFile, 'id' | 'uploadDate' | 'views'>]: what an upload hands to
    [addMedia]. *)
Record NewMedia := mkNewMedia {
  new_name : string;
  new_type : MediaType;
  new_mimeType : string;
  new_size : Z;
  new_dataUrl : string;
  new_category : string;
  new_tags : list string;
  new_width : option Z;
  new_height : option Z
}.

(** [Partial<MediaFile>]: each field is absent ([None]) or given. An optional
    field that is given may be given as [undefined]. *)
Record Partial := mkPartial {
  upd_id : option string;
  upd_name : option string;
  upd_type : option MediaType;
  upd_mimeType : option string;
  upd_size : option Z;
  upd_dataUrl : option string;
  upd_category : option string;
  upd_tags : option (list string);
  upd_uploadDate : option string;
  upd_views : option Z;
  upd_width : option (option Z);
  upd_height : option (option Z)
}.

(** What one run of the callback of [files.map] reads from the platform:
    [Date.now()] in milliseconds, [Math.random()] as the template literal
    prints it, and [new Date().toISOString()]. *)
Record Instant := mkInstant {
  Date_now : N;
  Math_random : string;
  toISOString : string
}.

(** The template literal [`${Date.now()}-${Math.random()}`]. *)
Definition newId (t : Instant) : string :=
  (JS.digits (Date_now t) ++ "-" ++ Math_random t)%string.

(** The object literal of [addMedia]:
    [{ ...file, id: ..., uploadDate: ..., views: 0 }]. *)
Definition newMediaItem (t : Instant) (file : NewMedia) : MediaFile :=
  {| id := newId t;
     name := new_name file;
     type := new_type file;
     mimeType := new_mimeType file;
     size := new_size file;
     dataUrl := new_dataUrl file;
     category := new_category file;
     tags := new_tags file;
     uploadDate := toISOString t;
     views := 0;
     width := new_width file;
     height := new_height file |}.

(** [addMedia] (lines 227 to 235):
    [setMedia(prev => [...newMediaItems, ...prev])]. Each file comes with
    the platform reads of its callback run. *)
Definition addMedia (files : list (Instant * NewMedia)) (prev : list MediaFile)
  : list MediaFile :=
  let newMediaItems := List.map (fun tf => newMediaItem (fst tf) (snd tf)) files in
  newMediaItems ++ prev.

(** [deleteMedia] (lines 237 to 239): [prev.filter(item => item.id !== id)]. *)
Definition deleteMedia (i : string) (prev : list MediaFile) : list MediaFile :=
  List.filter (fun item => negb (JS.strict_eq (id item) i)) prev.

(** The spread [{ ...item, ...updates }]. *)
Definition spread (item : MediaFile) (updates : Partial) : MediaFile :=
  {| id := default (id item) (upd_id updates);
     name := default (name item) (upd_name updates);
     type := default (type item) (upd_type updates);
     mimeType := default (mimeType item) (upd_mimeType updates);
     size := default (size item) (upd_size updates);
     dataUrl := default (dataUrl item) (upd_dataUrl updates);
     category := default (category item) (upd_category updates);
     tags := default (tags item) (upd_tags updates);
     uploadDate := default (uploadDate item) (upd_uploadDate updates);
     views := default (views item) (upd_views updates);
     width := default (width item) (upd_width updates);
     height := default (height item) (upd_height updates) |}.

(** [updateMedia] (lines 241 to 243):
    [prev.map(item => item.id === id ? { ...item, ...updates } : item)]. *)
Definition updateMedia (i : string) (updates : Partial) (prev : list MediaFile)
  : list MediaFile :=
  List.map (fun item => if JS.strict_eq (id item) i then spread item updates else item) prev.

(** [media.find(m => m.id === id)]. *)
Definition find (i : string) (media : list MediaFile) : option MediaFile :=
  List.find (fun m => JS.strict_eq (id m) i) media.

(** [x || 0] for [x] a number or [undefined]. *)
Definition or0 (x : option Z) : Z :=
  match x with
  | Some v => if v =? 0 then 0 else v
  | None => 0
  end.

(** The object literal [{ views: v }]. *)
Definition only_views (v : Z) : Partial :=
  {| upd_id := None; upd_name := None; upd_type := None; upd_mimeType := None;
     upd_size := None; upd_dataUrl := None; upd_category := None;
     upd_tags := None; upd_uploadDate := None; upd_views := Some v;
     upd_width := None; upd_height := None |}.

(** [incrementView] (lines 245 to 247):
    [updateMedia(id, { views: (media.find(m => m.id === id)?.views || 0) + 1 })]. *)
Definition incrementView (i : string) (media : list MediaFile) : list MediaFile :=
  updateMedia i (only_views (or0 (views <$> find i media) + 1)) media.

(** [Array.from(new Set(values))]: the distinct values, each at the place
    where it comes first; [seen] holds the values already met. *)
Fixpoint distinct_from (seen values : list string) : list string :=
  match values with
  | [] => []
  | x :: values' =>
      if existsb (JS.strict_eq x) seen then distinct_from seen values'
      else x :: distinct_from (x :: seen) values'
  end.

(** [Boolean(s)] for a string. *)
Definition Boolean (s : string) : bool := negb (String.eqb s "").

(** [categories] (lines 249 to 252):
    [['Todos', ...Array.from(new Set(allCategories)).filter(Boolean)]]. *)
Definition categories (media : list MediaFile) : list string :=
  let allCategories := List.map category media in
  "Todos"%string :: List.filter Boolean (distinct_from [] allCategories).

(** What [handleUpload] knows of a chosen file. *)
Record File := mkFile {
  file_name : string;
  file_type : string;
  file_size : Z
}.

(** The object that the callback of [files.map] in [handleUpload] (lines 457
    to 482) returns for a file: [category] is the text of the category field, [dataUrl] what
    [fileToBase64] resolved to; [generated] and [measured] are what
    [generateTagsForImage] and [getImageDimensions] resolve to, which are
    awaited for an image only. *)
Definition mediaToUpload (category : string) (file : File) (dataUrl : string)
  (generated : list string) (measured : Z * Z) : NewMedia :=
  let mediaType := if JS.startsWith "image" (file_type file) then image else video in
  let tags := match mediaType with image => generated | video => [] end in
  let dimensions :=
    match mediaType with
    | image => (Some (fst measured), Some (snd measured))
    | video => (None, None)
    end in
  {| new_name := file_name file;
     new_type := mediaType;
     new_mimeType := file_type file;
     new_size := file_size file;
     new_dataUrl := dataUrl;
     new_category := if Boolean category then category else "Sem Categoria"%string;
     new_tags := tags;
     new_width := fst dimensions;
     new_height := snd dimensions |}.

(** One call on the catalog. *)
Inductive op :=
  | Add (files : list (Instant * NewMedia))
  | Delete (i : string)
  | Update (i : string) (updates : Partial)
  | IncrementView (i : string).

Definition apply (o : op) (media : list MediaFile) : list MediaFile :=
  match o with
  | Add files => addMedia files media
  | Delete i => deleteMedia i media
  | Update i updates => updateMedia i updates media
  | IncrementView i => incrementView i media
  end.

(** A sequence of calls, each on the state the one before it left: every
    call is made through the functions of the render that holds that state.
    [made], below, has the calls through functions kept from an earlier
    render. *)
Fixpoint run (ops : list op) (media : list MediaFile) : list MediaFile :=
  match ops with
  | [] => media
  | o :: ops' => run ops' (apply o media)
  end.

(** The ids of a catalog, in catalog order. *)
Definition ids (media : list MediaFile) : list string := List.map id media.

(** *** Calls that the invariants of the catalog allow *)

(** The ids that a batch generates, in the order of the batch. *)
Definition newIds (files : list (Instant * NewMedia)) : list string :=
  List.map (fun tf => newId (fst tf)) files.

(** The platform gave the files of a batch pairwise different readings of
    the clock and the random source, and no id it generated is in use. *)
Definition fresh (files : list (Instant * NewMedia)) (media : list MediaFile) : Prop :=
  NoDup (List.map (fun tf => (Date_now (fst tf), Math_random (fst tf))) files)
  ∧ ∀ i, i ∈ newIds files → i ∉ ids media.

(** A call that cannot make two ids equal: a batch is fresh, and an update
    that sets [id] sets it to the id it is called on or to one that is not
    in use. *)
Definition keeps_ids (media : list MediaFile) (o : op) : Prop :=
  match o with
  | Add files => fresh files media
  | Update i updates => ∀ j, upd_id updates = Some j → j = i ∨ j ∉ ids media
  | Delete _ | IncrementView _ => True
  end.


(** Every call of a sequence satisfies [P] in the state it is applied to. *)
Fixpoint each_call (P : list MediaFile → op → Prop) (ops : list op)
  (media : list MediaFile) : Prop :=
  match ops with
  | [] => True
  | o :: ops' => P media o ∧ each_call P ops' (apply o media)
  end.

(** *** Calls through the functions of a render *)


(** The catalog that the cell holds, and the catalogs it held before, the
    latest first. *)
Record history := mkHistory {
  held : list MediaFile;
  before : list (list MediaFile)
}.


(** The catalog of the render [n] calls ago; the earliest known one for a
    render earlier than that. *)
Definition seen (h : history) (n : nat) : list MediaFile :=
  match n with
  | O => held h
  | S m => default (List.last (before h) (held h)) (before h !! m)
  end.



(** [deleteMedia] called with each id of a list, in the order of the list. *)
Definition deleteMedia_each (these : list string) (media : list MediaFile)
  : list MediaFile :=
  fold_left (fun prev i => deleteMedia i prev) these media.

End Media.

(** ** JSON values, [JSON.stringify] and [JSON.parse] *)

Module Json.

(** A number that is no integer: a finite double with a fraction,
    [± mantissa × 2^exponent] with a negative exponent, or an infinity, which
    [JSON.parse] returns for a number beyond the range of doubles. *)
Inductive double :=
  | Finite (negative : bool) (mantissa : positive) (exponent : Z)
  | Infinity (negative : bool).

(** A value that [JSON.parse] returns. The properties of an object are kept in
    insertion order, one entry per key. [JNumber n] is the number whose value
    is the integer [n], both zeros included; [JDouble x] is any other number.
    A double holds every integer up to [2^53] in size; [JSON.parse] gives a
    larger one that is written out in digits as [JNumber] of the integer
    written, which stands for the double nearest to it. *)
#[warnings="-register-all"]
Inductive json :=
  | JNull
  | JBool (b : bool)
  | JNumber (n : Z)
  | JDouble (x : double)
  | JString (s : string)
  | JArray (items : list json)
  | JObject (props : list (string * json)).

(** [o[k]] on the own properties of an object; [None] is [undefined]. *)
Fixpoint get (k : string) (props : list (string * json)) : option json :=
  match props with
  | [] => None
  | (k', v) :: props' => if String.eqb k' k then Some v else get k props'
  end.

(** [o[k] = v]: an existing key keeps its place, a new key goes last. *)
Fixpoint set (k : string) (v : json) (props : list (string * json))
  : list (string * json) :=
  match props with
  | [] => [(k, v)]
  | (k', v') :: props' =>
      if String.eqb k' k then (k', v) :: props' else (k', v') :: set k v props'
  end.

(** [ToBoolean] of a JSON value. *)
Definition truthy (v : json) : bool :=
  match v with
  | JNull => false
  | JBool b => b
  | JNumber n => negb (n =? 0)
  | JDouble _ => true
  | JString s => negb (String.eqb s "")
  | JArray _ => true
  | JObject _ => true
  end.

(** [ToBoolean] of the result of a property read. *)
Definition truthy_opt (x : option json) : bool :=
  match x with
  | Some v => truthy v
  | None => false
  end.

(** *** Characters *)

Definition dquote : ascii := "034"%char.
Definition backslash : ascii := "\"%char.
Definition newline : ascii := "010"%char.

Definition is_ws (c : ascii) : bool :=
  Ascii.eqb c " " || Ascii.eqb c "009" || Ascii.eqb c "010" || Ascii.eqb c "013".

Definition is_digit (c : ascii) : bool :=
  (48 <=? N_of_ascii c)%N && (N_of_ascii c <=? 57)%N.

Definition hex_digit (n : N) : ascii :=
  ascii_of_N (if (n <? 10)%N then 48 + n else 87 + n)%N.

Definition hex_value (c : ascii) : option N :=
  let n := N_of_ascii c in
  if (48 <=? n)%N && (n <=? 57)%N then Some (n - 48)%N
  else if (97 <=? n)%N && (n <=? 102)%N then Some (n - 87)%N
  else if (65 <=? n)%N && (n <=? 70)%N then Some (n - 55)%N
  else None.

(** The bytes of a code point in UTF-8. A surrogate that stands alone is
    encoded like any code point of its size. *)
Definition utf8 (n : N) : string :=
  if (n <? 128)%N then String (ascii_of_N n) ""
  else if (n <? 2048)%N then
    String (ascii_of_N (192 + n / 64)) (String (ascii_of_N (128 + n mod 64)) "")
  else if (n <? 65536)%N then
    String (ascii_of_N (224 + n / 4096))
      (String (ascii_of_N (128 + (n / 64) mod 64))
        (String (ascii_of_N (128 + n mod 64)) ""))
  else
    String (ascii_of_N (240 + n / 262144))
      (String (ascii_of_N (128 + (n / 4096) mod 64))
        (String (ascii_of_N (128 + (n / 64) mod 64))
          (String (ascii_of_N (128 + n mod 64)) ""))).

(** The two halves of a surrogate pair, and the code point that a pair
    stands for. *)
Definition high_surrogate (n : N) : bool := (55296 <=? n)%N && (n <=? 56319)%N.
Definition low_surrogate (n : N) : bool := (56320 <=? n)%N && (n <=? 57343)%N.
Definition code_point (high low : N) : N :=
  (65536 + (high - 55296) * 1024 + (low - 56320))%N.

(** *** Numbers *)

Definition signed (negative : bool) (n : Z) : Z := if negative then - n else n.

(** The double nearest to [± a / b], a tie going to the even mantissa: the
    division of binary64, whose operands may be any integers. *)
Definition nearest (negative : bool) (a b : positive) : SpecFloat.spec_float :=
  SpecFloat.SFdiv 53 1024 (SpecFloat.S754_finite negative a 0)
    (SpecFloat.S754_finite false b 0).

(** [± m × 10^e10] as a double. *)
Definition decimal (negative : bool) (m : N) (e10 : Z) : SpecFloat.spec_float :=
  match m with
  | N0 => SpecFloat.S754_zero negative
  | Npos p =>
      if 0 <=? e10 then nearest negative (p * Z.to_pos (10 ^ e10)) 1
      else nearest negative p (Z.to_pos (10 ^ (- e10)))
  end.

(** The JSON value of a double. Dividing a finite number by one that is not
    zero never gives [NaN]. *)
Definition of_double (x : SpecFloat.spec_float) : json :=
  match x with
  | SpecFloat.S754_zero _ => JNumber 0
  | SpecFloat.S754_infinity s => JDouble (Infinity s)
  | SpecFloat.S754_nan => JNull
  | SpecFloat.S754_finite s m e =>
      if 0 <=? e then JNumber (signed s (Z.pos m * 2 ^ e))
      else if Z.pos m mod 2 ^ (- e) =? 0 then JNumber (signed s (Z.pos m / 2 ^ (- e)))
      else JDouble (Finite s m e)
  end.

(** *** [Number::toString] of a double with a fraction *)

(** The [n] with [10^(n-1) ≤ a / b < 10^n], for [a / b] below 1: counted
    down from 0. No double is smaller than [10^-324]. *)
Fixpoint point (fuel : nat) (a b n : Z) : Z :=
  match fuel with
  | O => n
  | S fuel' => if b <=? a * 10 then n else point fuel' (a * 10) b (n - 1)
  end.

Definition scale (a b : Z) : Z :=
  if b <=? a then Z.of_nat (String.length (JS.digits (Z.to_N (a / b))))
  else point 400 a b 0.

Definition same (x y : SpecFloat.spec_float) : bool :=
  match x, y with
  | SpecFloat.S754_finite s m e, SpecFloat.S754_finite s' m' e' =>
      Bool.eqb s s' && (m =? m')%positive && (e =? e')
  | _, _ => false
  end.

(** The integer [s] of [k] digits for which [s × 10^(n-k)] is the double
    [x = a / b], if there is one; of two, the one closer to [x], and the even
    one when they are as close. *)
Definition with_digits (x : SpecFloat.spec_float) (a b n k : Z) : option Z :=
  let num := if 0 <=? k - n then a * 10 ^ (k - n) else a in
  let den := if 0 <=? k - n then b else b * 10 ^ (n - k) in
  let lo := num / den in
  let hi := lo + 1 in
  let lo_ok := (10 ^ (k - 1) <=? lo) && same (decimal false (Z.to_N lo) (n - k)) x in
  let hi_ok := same (decimal false (Z.to_N hi) (n - k)) x in
  let lo_closer := 2 * num <? (2 * lo + 1) * den in
  let tie := 2 * num =? (2 * lo + 1) * den in
  if lo_ok && hi_ok then Some (if lo_closer || (tie && Z.even lo) then lo else hi)
  else if lo_ok then Some lo
  else if hi_ok then Some hi
  else None.

(** The [s] with the fewest digits, from [k] digits on. Seventeen digits tell
    any two doubles apart. *)
Fixpoint shortest (fuel : nat) (x : SpecFloat.spec_float) (a b n k : Z) : Z :=
  match fuel with
  | O => if 0 <=? k - n then a * 10 ^ (k - n) / b else a / (b * 10 ^ (n - k))
  | S fuel' =>
      match with_digits x a b n k with
      | Some s => s
      | None => shortest fuel' x a b n (k + 1)
      end
  end.

Fixpoint zeros (n : nat) : string :=
  match n with
  | O => ""
  | S n' => String "0" (zeros n')
  end.

(** [s] with a point after its first [n] characters. *)
Fixpoint pointed (n : nat) (s : string) : string :=
  match n, s with
  | O, _ => String "." s
  | S n', String c s' => String c (pointed n' s')
  | S n', EmptyString => EmptyString
  end.

Definition decimals (ds : string) : string :=
  match ds with
  | EmptyString => EmptyString
  | _ => String "." ds
  end.

Definition power (e : Z) : string :=
  String "e" (String (if 0 <? e then "+"%char else "-"%char) (JS.digits (Z.to_N (Z.abs e)))).

(** The digits [s] and the place [n] of the point laid out: digits around the
    point, zeros after it, or a power of ten. *)
Definition layout (s n : Z) : string :=
  match JS.digits (Z.to_N s) with
  | EmptyString => "0"%string
  | String d ds =>
      if (0 <? n) && (n <=? 21) then String d (pointed (Z.to_nat (n - 1)) ds)
      else if (-6 <? n) && (n <=? 0) then
        String "0" (String "." (zeros (Z.to_nat (- n)) ++ String d ds))%string
      else String d (decimals ds ++ power (n - 1))%string
  end.

Definition Number_toString (x : double) : string :=
  match x with
  | Infinity negative => if negative then "-Infinity" else "Infinity"
  | Finite negative m e =>
      let a := if 0 <=? e then Z.pos m * 2 ^ e else Z.pos m in
      let b := if 0 <=? e then 1 else 2 ^ (- e) in
      let n := scale a b in
      let s := shortest 17 (SpecFloat.S754_finite false m e) a b n 1 in
      let text := if s =? 10 then layout 1 (n + 1) else layout s n in
      if negative then String "-" text else text
  end.

(** [SerializeJSONProperty] on a number with a fraction or without end: a
    number that is not finite is written as [null]. *)
Definition serialize_double (x : double) : string :=
  match x with
  | Infinity _ => "null"
  | Finite _ _ _ => Number_toString x
  end.

(** *** [JSON.stringify(value, null, 2)] *)

(** [QuoteJSONString] on one character. *)
Definition escape (c : ascii) : string :=
  let n := N_of_ascii c in
  if Ascii.eqb c dquote then String backslash (String dquote "")
  else if Ascii.eqb c backslash then String backslash (String backslash "")
  else if (n =? 8)%N then "\b"
  else if (n =? 12)%N then "\f"
  else if (n =? 10)%N then "\n"
  else if (n =? 13)%N then "\r"
  else if (n =? 9)%N then "\t"
  else if (n <? 32)%N then
    String backslash (String "u" (String "0" (String "0"
      (String (hex_digit (n / 16)) (String (hex_digit (n mod 16)) "")))))
  else String c "".

Fixpoint escape_all (s : string) : string :=
  match s with
  | EmptyString => EmptyString
  | String c s' => (escape c ++ escape_all s')%string
  end.

Definition quote (s : string) : string :=
  String dquote (escape_all s ++ String dquote "")%string.

(** The indentation at a nesting depth: [gap] is two spaces. *)
Fixpoint indentation (depth : nat) : string :=
  match depth with
  | O => ""
  | S d => String " " (String " " (indentation d))
  end.

Fixpoint join (sep : string) (parts : list string) : string :=
  match parts with
  | [] => ""
  | [p] => p
  | p :: parts' => (p ++ sep ++ join sep parts')%string
  end.

(** [SerializeJSONProperty] with its array and object cases. *)
Fixpoint serialize (depth : nat) (v : json) : string :=
  match v with
  | JNull => "null"
  | JBool true => "true"
  | JBool false => "false"
  | JNumber n => JS.string_of_Z n
  | JDouble x => serialize_double x
  | JString s => quote s
  | JArray [] => "[]"
  | JArray items =>
      let stepback := indentation depth in
      let indent := indentation (S depth) in
      let separator := String "," (String newline indent) in
      (String "[" (String newline indent)
         ++ join separator (List.map (serialize (S depth)) items)
         ++ String newline stepback ++ "]")%string
  | JObject [] => "{}"
  | JObject props =>
      let stepback := indentation depth in
      let indent := indentation (S depth) in
      let separator := String "," (String newline indent) in
      (String "{" (String newline indent)
         ++ join separator
              (List.map (fun kv => quote (fst kv) ++ ": " ++ serialize (S depth) (snd kv)) props)
         ++ String newline stepback ++ "}")%string
  end.

Definition stringify (v : json) : string := serialize 0 v.

(** *** [JSON.parse] *)

Fixpoint skip_ws (s : string) : string :=
  match s with
  | String c s' => if is_ws c then skip_ws s' else s
  | EmptyString => EmptyString
  end.

(** [s] without the prefix [p], when it starts with it. *)
Fixpoint strip (p s : string) : option string :=
  match p, s with
  | EmptyString, _ => Some s
  | String a p', String b s' => if Ascii.eqb a b then strip p' s' else None
  | String _ _, EmptyString => None
  end.

Definition digit_of (c : ascii) : option (uint -> uint) :=
  match N_of_ascii c with
  | 48%N => Some D0 | 49%N => Some D1 | 50%N => Some D2 | 51%N => Some D3
  | 52%N => Some D4 | 53%N => Some D5 | 54%N => Some D6 | 55%N => Some D7
  | 56%N => Some D8 | 57%N => Some D9
  | _ => None
  end.

(** The longest run of decimal digits that [s] starts with, and what follows. *)
Fixpoint read_digits (s : string) : uint * string :=
  match s with
  | String c s' =>
      match digit_of c with
      | Some d => let (ds, r) := read_digits s' in (d ds, r)
      | None => (Nil, s)
      end
  | EmptyString => (Nil, EmptyString)
  end.

(** The integer part of a JSON number: a single 0, or digits that start with
    a digit from 1 to 9. *)
Definition parse_nat (s : string) : option (N * string) :=
  match read_digits s with
  | (Nil, _) => None
  | (D0 Nil, r) => Some (0%N, r)
  | (D0 _, _) => None
  | (ds, r) => Some (N.of_uint ds, r)
  end.

(** The digits of a fraction or of an exponent: one at least. *)
Definition parse_digits (s : string) : option (uint * string) :=
  match read_digits s with
  | (Nil, _) => None
  | (ds, r) => Some (ds, r)
  end.

(** The fraction of a JSON number, when the text goes on with a point. *)
Definition parse_fraction (s : string) : option (option uint * string) :=
  match s with
  | String c s' =>
      if Ascii.eqb c "." then
        match parse_digits s' with
        | Some (ds, r) => Some (Some ds, r)
        | None => None
        end
      else Some (None, s)
  | EmptyString => Some (None, s)
  end.

(** The sign of an exponent, when there is one. *)
Definition parse_sign (s : string) : bool * string :=
  match s with
  | String c s' =>
      if Ascii.eqb c "-" then (true, s')
      else if Ascii.eqb c "+" then (false, s')
      else (false, s)
  | EmptyString => (false, s)
  end.

(** The exponent of a JSON number, when the text goes on with [e] or [E]. *)
Definition parse_exponent (s : string) : option (option Z * string) :=
  match s with
  | String c s' =>
      if Ascii.eqb c "e" || Ascii.eqb c "E" then
        let (negative, s'') := parse_sign s' in
        match parse_digits s'' with
        | Some (ds, r) => Some (Some (signed negative (Z.of_N (N.of_uint ds))), r)
        | None => None
        end
      else Some (None, s)
  | EmptyString => Some (None, s)
  end.

(** The value of a number from the parts of its text. Digits alone give the
    integer written; a fraction or an exponent gives the double nearest to
    the number written. *)
Definition number (negative : bool) (int : N) (frac : option uint) (exp : option Z)
  : json :=
  match frac, exp with
  | None, None => JNumber (signed negative (Z.of_N int))
  | _, _ =>
      let ds := default Nil frac in
      let places := nb_digits ds in
      of_double
        (decimal negative (int * 10 ^ N.of_nat places + N.of_uint ds)
           (default 0 exp - Z.of_nat places))
  end.

(** A JSON number: a minus sign or none, the integer part, then a fraction
    or none, then an exponent or none. *)
Definition parse_number (s : string) : option (json * string) :=
  let (negative, s1) :=
    match s with
    | String c s' => if Ascii.eqb c "-" then (true, s') else (false, s)
    | EmptyString => (false, s)
    end in
  match parse_nat s1 with
  | None => None
  | Some (int, r1) =>
      match parse_fraction r1 with
      | None => None
      | Some (frac, r2) =>
          match parse_exponent r2 with
          | None => None
          | Some (exp, r3) => Some (number negative int frac exp, r3)
          end
      end
  end.

Definition hex4 (a b c d : ascii) : option N :=
  match hex_value a, hex_value b, hex_value c, hex_value d with
  | Some x, Some y, Some z, Some w => Some (((x * 16 + y) * 16 + z) * 16 + w)%N
  | _, _, _, _ => None
  end.

Definition prepend (p : string) (x : option (string * string)) : option (string * string) :=
  match x with
  | Some (s, r) => Some ((p ++ s)%string, r)
  | None => None
  end.

(** The characters of a string literal after its opening quote, up to the
    closing quote, and what follows it. The two escapes of a surrogate pair
    give the one code point of the pair. *)
Fixpoint parse_chars (s : string) : option (string * string) :=
  match s with
  | EmptyString => None
  | String c r =>
      if Ascii.eqb c dquote then Some (EmptyString, r)
      else if Ascii.eqb c backslash then
        match r with
        | String e r' =>
            if Ascii.eqb e dquote then prepend (String dquote "") (parse_chars r')
            else if Ascii.eqb e backslash then prepend (String backslash "") (parse_chars r')
            else if Ascii.eqb e "/" then prepend "/" (parse_chars r')
            else if Ascii.eqb e "b" then prepend (String "008" "") (parse_chars r')
            else if Ascii.eqb e "f" then prepend (String "012" "") (parse_chars r')
            else if Ascii.eqb e "n" then prepend (String "010" "") (parse_chars r')
            else if Ascii.eqb e "r" then prepend (String "013" "") (parse_chars r')
            else if Ascii.eqb e "t" then prepend (String "009" "") (parse_chars r')
            else if Ascii.eqb e "u" then
              match r' with
              | String h1 (String h2 (String h3 (String h4 r''))) =>
                  match hex4 h1 h2 h3 h4 with
                  | Some n =>
                      if high_surrogate n then
                        match r'' with
                        | String b (String u
                            (String l1 (String l2 (String l3 (String l4 r3))))) =>
                            match
                              (if Ascii.eqb b backslash && Ascii.eqb u "u"
                               then hex4 l1 l2 l3 l4 else None)
                            with
                            | Some low =>
                                if low_surrogate low
                                then prepend (utf8 (code_point n low)) (parse_chars r3)
                                else prepend (utf8 n) (parse_chars r'')
                            | None => prepend (utf8 n) (parse_chars r'')
                            end
                        | _ => prepend (utf8 n) (parse_chars r'')
                        end
                      else prepend (utf8 n) (parse_chars r'')
                  | None => None
                  end
              | _ => None
              end
            else None
        | EmptyString => None
        end
      else if (N_of_ascii c <? 32)%N then None
      else prepend (String c "") (parse_chars r)
  end.

(** The object that the members of an object literal define, in the order of
    the text: a key that comes again replaces the value of the first. *)
Definition object_of (members : list (string * json)) : list (string * json) :=
  fold_left (fun o kv => set (fst kv) (snd kv) o) members [].

(** Recursive descent over the text. [fuel] bounds the nesting of calls;
    [parse_elements] reads from the first element of a non-empty array on,
    [parse_members] from the first member of a non-empty object on. *)
Fixpoint parse_value (fuel : nat) (s : string) : option (json * string) :=
  match fuel with
  | O => None
  | S fuel' =>
      match skip_ws s with
      | EmptyString => None
      | String c r =>
          if is_digit c || Ascii.eqb c "-" then
            parse_number (String c r)
          else if Ascii.eqb c dquote then
            match parse_chars r with
            | Some (str, r') => Some (JString str, r')
            | None => None
            end
          else if Ascii.eqb c "[" then
            match skip_ws r with
            | String c' r' =>
                if Ascii.eqb c' "]" then Some (JArray [], r')
                else
                  match parse_elements fuel' (String c' r') with
                  | Some (items, r'') => Some (JArray items, r'')
                  | None => None
                  end
            | EmptyString => None
            end
          else if Ascii.eqb c "{" then
            match skip_ws r with
            | String c' r' =>
                if Ascii.eqb c' "}" then Some (JObject [], r')
                else
                  match parse_members fuel' (String c' r') with
                  | Some (members, r'') => Some (JObject (object_of members), r'')
                  | None => None
                  end
            | EmptyString => None
            end
          else if Ascii.eqb c "n" then
            match strip "ull" r with Some r' => Some (JNull, r') | None => None end
          else if Ascii.eqb c "t" then
            match strip "rue" r with Some r' => Some (JBool true, r') | None => None end
          else if Ascii.eqb c "f" then
            match strip "alse" r with Some r' => Some (JBool false, r') | None => None end
          else None
      end
  end
with parse_elements (fuel : nat) (s : string) : option (list json * string) :=
  match fuel with
  | O => None
  | S fuel' =>
      match parse_value fuel' s with
      | None => None
      | Some (v, r) =>
          match skip_ws r with
          | String c r' =>
              if Ascii.eqb c "," then
                match parse_elements fuel' r' with
                | Some (vs, r'') => Some (v :: vs, r'')
                | None => None
                end
              else if Ascii.eqb c "]" then Some ([v], r')
              else None
          | EmptyString => None
          end
      end
  end
with parse_members (fuel : nat) (s : string) : option (list (string * json) * string) :=
  match fuel with
  | O => None
  | S fuel' =>
      match skip_ws s with
      | String q r =>
          if Ascii.eqb q dquote then
            match parse_chars r with
            | None => None
            | Some (k, r1) =>
                match skip_ws r1 with
                | String colon r2 =>
                    if Ascii.eqb colon ":" then
                      match parse_value fuel' r2 with
                      | None => None
                      | Some (v, r3) =>
                          match skip_ws r3 with
                          | String c r4 =>
                              if Ascii.eqb c "," then
                                match parse_members fuel' r4 with
                                | Some (ms, r5) => Some ((k, v) :: ms, r5)
                                | None => None
                                end
                              else if Ascii.eqb c "}" then Some ([(k, v)], r4)
                              else None
                          | EmptyString => None
                          end
                      end
                    else None
                | EmptyString => None
                end
            end
          else None
      | EmptyString => None
      end
  end.

(** *** Values and texts of the statements below *)

(** A value whose objects hold each key once, as every object does that
    [JSON.parse] returns, and whose numbers are integers. *)
#[warnings="-register-all"]
Inductive canonical : json → Prop :=
  | canonical_null : canonical JNull
  | canonical_bool b : canonical (JBool b)
  | canonical_number n : canonical (JNumber n)
  | canonical_string s : canonical (JString s)
  | canonical_array items : Forall canonical items → canonical (JArray items)
  | canonical_object props :
      NoDup (List.map fst props) →
      Forall (fun kv => canonical (snd kv)) props →
      canonical (JObject props).

(** A value whose objects hold each key once, whatever its numbers. *)
#[warnings="-register-all"]
Inductive keyed : json → Prop :=
  | keyed_null : keyed JNull
  | keyed_bool b : keyed (JBool b)
  | keyed_number n : keyed (JNumber n)
  | keyed_double x : keyed (JDouble x)
  | keyed_string s : keyed (JString s)
  | keyed_array items : Forall keyed items → keyed (JArray items)
  | keyed_object props :
      NoDup (List.map fst props) →
      Forall (fun kv => keyed (snd kv)) props →
      keyed (JObject props).

(** A value whose numbers are integers of at most [2^53] in size: a double
    holds each of them, and [JSON.stringify] writes it out in digits. *)
#[warnings="-register-all"]
Inductive safe : json → Prop :=
  | safe_null : safe JNull
  | safe_bool b : safe (JBool b)
  | safe_number n : Z.abs n ≤ 2 ^ 53 → safe (JNumber n)
  | safe_string s : safe (JString s)
  | safe_array items : Forall safe items → safe (JArray items)
  | safe_object props : Forall (fun kv => safe (snd kv)) props → safe (JObject props).

(** A character that a number written in digits may go on with. *)
Definition continues (c : ascii) : bool :=
  is_digit c || Ascii.eqb c "." || Ascii.eqb c "e" || Ascii.eqb c "E".

(** A text at which a number written in digits ends. *)
Definition number_ends (s : string) : Prop :=
  match s with
  | String c _ => continues c = false
  | EmptyString => True
  end.

(** [JSON.parse(text)]: one value, with nothing but white space around it;
    [None] is the [SyntaxError]. No text nests deeper than the fuel given
    here (see [parse_value_fuel]). *)
Definition parse (text : string) : option json :=
  match parse_value (2 * String.length text + 1) text with
  | Some (v, r) =>
      match skip_ws r with
      | EmptyString => Some v
      | String _ _ => None
      end
  | None => None
  end.

(** *** Notions of the proofs *)

(** An induction principle that reaches the values inside arrays and
    objects. *)
Definition json_ind' (P : json → Prop)
  (Hnull : P JNull) (Hbool : ∀ b, P (JBool b)) (Hnumber : ∀ n, P (JNumber n))
  (Hdouble : ∀ x, P (JDouble x)) (Hstring : ∀ s, P (JString s))
  (Harray : ∀ items, Forall P items → P (JArray items))
  (Hobject : ∀ props, Forall (fun kv => P (snd kv)) props → P (JObject props))
  : ∀ v, P v :=
  fix F (v : json) : P v :=
    match v with
    | JNull => Hnull
    | JBool b => Hbool b
    | JNumber n => Hnumber n
    | JDouble x => Hdouble x
    | JString s => Hstring s
    | JArray items =>
        Harray items
          ((fix G (l : list json) : Forall P l :=
              match l with
              | [] => @List.Forall_nil _ _
              | x :: l' => @List.Forall_cons _ _ x l' (F x) (G l')
              end) items)
    | JObject props =>
        Hobject props
          ((fix G (l : list (string * json)) : Forall (fun kv => P (snd kv)) l :=
              match l with
              | [] => @List.Forall_nil _ _
              | kv :: l' => @List.Forall_cons _ (fun kv => P (snd kv)) kv l' (F (snd kv)) (G l')
              end) props)
    end.

(** The text of [v], at any depth and whatever follows it, reads back as [v]
    with any fuel from the length of the text on. *)
Definition round_trips (v : json) : Prop :=
  ∀ depth fuel rest,
    (String.length (serialize depth v) ≤ fuel)%nat → number_ends rest →
    parse_value fuel (serialize depth v ++ rest) = Some (v, rest).

(** The separator that [serialize] puts between the elements of an array or
    the members of an object at a nesting depth, and the text of a member. *)
Definition separator (depth : nat) : string :=
  String "," (String newline (indentation (S depth))).

Definition member (depth : nat) (kv : string * json) : string :=
  (quote (fst kv) ++ ": " ++ serialize (S depth) (snd kv))%string.

(** *** [JSON.stringify(value)] *)

(** The text without indentation, as [useLocalStorage] and [login] write
    it. *)
Fixpoint compact (v : json) : string :=
  match v with
  | JNull => "null"
  | JBool true => "true"
  | JBool false => "false"
  | JNumber n => JS.string_of_Z n
  | JDouble x => serialize_double x
  | JString s => quote s
  | JArray items => (String "[" (join "," (List.map compact items)) ++ "]")%string
  | JObject props =>
      (String "{"
         (join "," (List.map (fun kv => quote (fst kv) ++ ":" ++ compact (snd kv)) props))
         ++ "}")%string
  end.

Definition compact_member (kv : string * json) : string :=
  (quote (fst kv) ++ ":" ++ compact (snd kv))%string.

(** The compact text of [v], whatever follows it, reads back as [v] with any
    fuel from the length of the text on. *)
Definition compact_round_trips (v : json) : Prop :=
  ∀ fuel rest,
    (String.length (compact v) ≤ fuel)%nat → number_ends rest →
    parse_value fuel (compact v ++ rest) = Some (v, rest).

End Json.

(** ** The account directory ([AuthProvider]) *)

Module Auth.

(** [interface User] (lines 2 to 5): the password is optional. *)
Record User := mkUser {
  username : string;
  password : option string
}.

(** The names that a plain object inherits from [Object.prototype]: a read of
    [users[k]] finds them when [users] has no property [k] of its own. *)
Definition Object_prototype : list string :=
  [ "constructor"; "__proto__"; "hasOwnProperty"; "isPrototypeOf";
    "propertyIsEnumerable"; "toLocaleString"; "toString"; "valueOf";
    "__defineGetter__"; "__defineSetter__"; "__lookupGetter__";
    "__lookupSetter__" ].

(** What a read of [users[k]] evaluates to: [undefined], a stored string, or
    an inherited member (a function or an object). *)
Inductive value :=
  | undefined
  | str (s : string)
  | inherited.

(** [users[k]] on the directory, a [Record<string, string>]; an own property
    holds a string, or [undefined] when it was stored from a missing
    password. *)
Definition get (users : gmap string (option string)) (k : string) : value :=
  match users !! k with
  | Some (Some s) => str s
  | Some None => undefined
  | None => if bool_decide (k ∈ Object_prototype) then inherited else undefined
  end.

(** [ToBoolean]. *)
Definition truthy (v : value) : bool :=
  match v with
  | undefined => false
  | str s => negb (String.eqb s "")
  | inherited => true
  end.

(** [v === credentials.password]. *)
Definition strict_eq (v : value) (p : option string) : bool :=
  match v, p with
  | str s, Some s' => String.eqb s s'
  | undefined, None => true
  | _, _ => false
  end.

(** The two state cells of the provider. *)
Record State := mkState {
  user : option User;
  users : gmap string (option string)
}.

(** [login] (lines 173 to 181): on success the session is [{ username }]. *)
Definition login (st : State) (credentials : User) : State * bool :=
  let stored := get (users st) (username credentials) in
  if truthy stored && strict_eq stored (password credentials) then
    let loggedInUser := {| username := username credentials; password := None |} in
    ({| user := Some loggedInUser; users := users st |}, true)
  else (st, false).

(** [logout] (lines 183 to 186). *)
Definition logout (st : State) : State :=
  {| user := None; users := users st |}.

(** [register] (lines 188 to 194):
    [setUsers(prev => ({ ...prev, [credentials.username]: credentials.password! }))]. *)
Definition register (st : State) (credentials : User) : State * bool :=
  if truthy (get (users st) (username credentials)) then (st, false)
  else
    ({| user := user st;
        users := <[username credentials := password credentials]> (users st) |},
     true).

(** The provider before any account exists: nobody logged in, [users = {}]. *)
Definition initial : State := {| user := None; users := ∅ |}.

(** A history of [register] calls, each on the state the one before left. *)
Definition registrations (calls : list User) (st : State) : State :=
  fold_left (fun s c => fst (register s c)) calls st.

(** A call of the history that returned [true]: the pair it registered. *)
Definition registered (calls : list User) (st : State) (c : User) : Prop :=
  ∃ before after,
    calls = before ++ c :: after ∧ snd (register (registrations before st) c) = true.

(** Credentials with a password that is not empty. *)
Definition has_password (c : User) : Prop :=
  ∃ p, password c = Some p ∧ p ≠ "".

(** The guard of the form in [AuthPage.handleSubmit] (line 872):
    [if (!username || !password) return]. *)
Definition submitted (c : User) : Prop :=
  username c ≠ "" ∧ has_password c.

(** Every stored password is a non-empty string. *)
Definition passwords_set (st : State) : Prop :=
  ∀ u x, users st !! u = Some x → ∃ p, x = Some p ∧ p ≠ ""%string.

End Auth.

(** ** The catalog view ([MediaGrid]) *)

Module View.
Import Media.

(** The sentinel of the category filter. *)
Definition Todos : string := "Todos".

Section Grid.

(** [String.prototype.toLowerCase]. *)
Variable toLowerCase : string → string.

(** The callback of [media.filter] in the effect of [MediaGrid] (lines 594
    to 604). *)
Definition shown (lowerCaseSearch activeCategory : string) (item : MediaFile) : bool :=
  let inCategory :=
    JS.strict_eq activeCategory Todos || JS.strict_eq (category item) activeCategory in
  let matchesSearch :=
    JS.includes (toLowerCase (name item)) lowerCaseSearch
    || JS.includes (toLowerCase (category item)) lowerCaseSearch
    || existsb (fun tag => JS.includes (toLowerCase tag) lowerCaseSearch) (tags item) in
  inCategory && matchesSearch.

(** The value that the effect hands to [setFilteredMedia]. *)
Definition filteredMedia (media : list MediaFile) (searchTerm activeCategory : string)
  : list MediaFile :=
  let lowerCaseSearch := toLowerCase searchTerm in
  List.filter (shown lowerCaseSearch activeCategory) media.

(** *** The view as the specification words it *)

(** [sub] is a substring of [s]. *)
Definition substring (sub s : string) : Prop :=
  ∃ before after, s = (before ++ sub ++ after)%string.

(** The category filter. *)
Definition in_category (activeCategory : string) (r : MediaFile) : Prop :=
  activeCategory = Todos ∨ category r = activeCategory.

(** The text filter. *)
Definition matches_text (searchTerm : string) (r : MediaFile) : Prop :=
  substring (toLowerCase searchTerm) (toLowerCase (name r))
  ∨ substring (toLowerCase searchTerm) (toLowerCase (category r))
  ∨ ∃ tag, tag ∈ tags r ∧ substring (toLowerCase searchTerm) (toLowerCase tag).

(** [selection P l k]: [k] is [l] without the elements that fail [P], the
    others kept once each and in the order of [l]. *)
Inductive selection {A} (P : A → Prop) : list A → list A → Prop :=
  | selection_nil : selection P [] []
  | selection_keep x l k : P x → selection P l k → selection P (x :: l) (x :: k)
  | selection_drop x l k : ¬ P x → selection P l k → selection P (x :: l) k.

End Grid.

(** Lower case of the letters A to Z, every other byte kept: what
    [toLowerCase] does on ASCII text. *)
Definition lower (c : ascii) : ascii :=
  let n := N_of_ascii c in
  if (65 <=? n)%N && (n <=? 90)%N then ascii_of_N (n + 32) else c.

Fixpoint ascii_toLowerCase (s : string) : string :=
  match s with
  | EmptyString => EmptyString
  | String c s' => String (lower c) (ascii_toLowerCase s')
  end.

End View.

(** ** Backup and restore of the catalog *)

Module Backup.
Import Json Media.

(** [ToastMessage], without the id that [addToast] stamps on it. *)
Inductive ToastType := success | error | info.

Record Toast := mkToast {
  message : string;
  toastType : ToastType
}.

(** What a [try] block can throw here. *)
Inductive exn :=
  | SyntaxError
  | TypeError
  | Error (message : string).

(** The object that [JSON.stringify] writes for a record, its keys in the
    order in which [handleUpload] and [addMedia] create them. A dimension
    that is [undefined] is left out, as [JSON.stringify] leaves it out. *)
Definition optional (k : string) (x : option Z) : list (string * json) :=
  match x with
  | Some n => [(k, JNumber n)]
  | None => []
  end.

Definition toJSON (m : MediaFile) : json :=
  JObject
    ([ ("name", JString (name m));
       ("type", JString (match type m with image => "image" | video => "video" end));
       ("mimeType", JString (mimeType m));
       ("size", JNumber (size m));
       ("dataUrl", JString (dataUrl m));
       ("category", JString (category m));
       ("tags", JArray (List.map JString (tags m))) ]
     ++ optional "width" (width m)
     ++ optional "height" (height m)
     ++ [ ("id", JString (id m));
          ("uploadDate", JString (uploadDate m));
          ("views", JNumber (views m)) ]).

(** The reading of a parsed object at type [MediaFile]: every field is looked
    up by its key and must hold a value of the field's type. *)
Definition as_string (x : option json) : option string :=
  match x with Some (JString s) => Some s | _ => None end.

Definition as_number (x : option json) : option Z :=
  match x with Some (JNumber n) => Some n | _ => None end.

Definition as_optional_number (x : option json) : option (option Z) :=
  match x with
  | None => Some None
  | Some (JNumber n) => Some (Some n)
  | Some _ => None
  end.

Definition as_type (x : option json) : option MediaType :=
  match x with
  | Some (JString s) =>
      if String.eqb s "image" then Some image
      else if String.eqb s "video" then Some video
      else None
  | _ => None
  end.

Definition as_strings (x : option json) : option (list string) :=
  match x with
  | Some (JArray items) => mapM (fun v => as_string (Some v)) items
  | _ => None
  end.

Definition fromJSON (v : json) : option MediaFile :=
  match v with
  | JObject props =>
      i ← as_string (get "id" props);
      n ← as_string (get "name" props);
      t ← as_type (get "type" props);
      mt ← as_string (get "mimeType" props);
      sz ← as_number (get "size" props);
      du ← as_string (get "dataUrl" props);
      c ← as_string (get "category" props);
      tg ← as_strings (get "tags" props);
      ud ← as_string (get "uploadDate" props);
      vw ← as_number (get "views" props);
      w ← as_optional_number (get "width" props);
      h ← as_optional_number (get "height" props);
      Some (mkMediaFile i n t mt sz du c tg ud vw w h)
  | _ => None
  end.

(** The catalog that a state cell holds, read at type [MediaFile[]]. *)
Definition read_catalog (media : list json) : option (list MediaFile) :=
  mapM fromJSON media.

(** [backupData] (lines 254 to 268): nothing without a session; otherwise
    the text of the file that the link downloads, and the toast. The link
    carries the text URI-encoded and the browser decodes it into the file.
    [JSON.stringify] does not throw on an array of records, so the [catch]
    is never entered. The name of the file is not modelled. *)
Definition backupData (user : option Auth.User) (media : list MediaFile)
  : option (string * Toast) :=
  match user with
  | None => None
  | Some _ =>
      let dataStr := stringify (JArray (List.map toJSON media)) in
      Some (dataStr, {| message := "Backup criado com sucesso!"; toastType := success |})
  end.

(** [item.k] for a key that no prototype defines ([id], [name] and [dataUrl]
    are such keys): a [TypeError] on [null], [undefined] on any other value
    that is not an object with that key. *)
Definition prop (item : json) (k : string) : exn + option json :=
  match item with
  | JNull => inl TypeError
  | JObject props => inr (get k props)
  | _ => inr None
  end.

(** [ToBoolean(item.id && item.name && item.dataUrl)]. *)
Definition basic_validation (item : json) : exn + bool :=
  match prop item "id" with
  | inl e => inl e
  | inr i =>
      if truthy_opt i then
        match prop item "name" with
        | inl e => inl e
        | inr n =>
            if truthy_opt n then
              match prop item "dataUrl" with
              | inl e => inl e
              | inr d => inr (truthy_opt d)
              end
            else inr false
        end
      else inr false
  end.

(** [Array.prototype.every] with a callback that may throw. *)
Fixpoint every (f : json → exn + bool) (items : list json) : exn + bool :=
  match items with
  | [] => inr true
  | item :: items' =>
      match f item with
      | inl e => inl e
      | inr false => inr false
      | inr true => every f items'
      end
  end.

(** The [try] block of [reader.onload] (lines 276 to 287): the array handed
    to [setMedia], or what was thrown. *)
Definition restore_try (text : string) : exn + list json :=
  match parse text with
  | None => inl SyntaxError
  | Some restoredMedia =>
      match restoredMedia with
      | JArray items =>
          match every basic_validation items with
          | inl e => inl e
          | inr true => inr items
          | inr false => inl (Error "Invalid backup file format.")
          end
      | _ => inl (Error "Invalid backup file format.")
      end
  end.

(** The toast of the [catch]: the error that the specification calls
    [InvalidBackupFormat]. *)
Definition InvalidBackupFormat : Toast :=
  {| message := "Falha ao restaurar dados. Arquivo inválido."; toastType := error |}.

Definition Restored : Toast :=
  {| message := "Dados restaurados com sucesso!"; toastType := success |}.

(** [restoreData] (lines 270 to 295) on the text of the chosen file ([None]:
    no file chosen) and the catalog as the state cell holds it: the new
    catalog and the toast. *)
Definition restoreData (file : option string) (media : list json)
  : list json * option Toast :=
  match file with
  | None => (media, None)
  | Some text =>
      match restore_try text with
      | inr restoredMedia => (restoredMedia, Some Restored)
      | inl _ => (media, Some InvalidBackupFormat)
      end
  end.

(** *** Restore as the specification words it *)

(** The values that count as empty: [null], [false], [0] and the empty
    string. *)
Definition empty (v : json) : Prop :=
  v = JNull ∨ v = JBool false ∨ v = JNumber 0 ∨ v = JString "".

(** A field that is present and not empty. *)
Definition non_empty_field (k : string) (item : json) : Prop :=
  ∃ props v, item = JObject props ∧ get k props = Some v ∧ ¬ empty v.

Definition valid_element (item : json) : Prop :=
  non_empty_field "id" item ∧ non_empty_field "name" item ∧ non_empty_field "dataUrl" item.

(** A document that restore accepts: it parses to a sequence of valid
    elements. *)
Definition valid_backup (text : string) (items : list json) : Prop :=
  parse text = Some (JArray items) ∧ Forall valid_element items.

(** A record that restore accepts. *)
Definition well_formed (m : MediaFile) : Prop :=
  id m ≠ "" ∧ name m ≠ "" ∧ dataUrl m ≠ "".

End Backup.

(** ** The persistent state cell ([useLocalStorage]) *)

Module Storage.
Import Json.

(** [window.localStorage]: the items by key. *)
Abbreviation localStorage := (gmap string string).

(** [localStorage.getItem(key)]; [None] is [null]. *)
Definition getItem (store : localStorage) (key : string) : option string := store !! key.

(** [localStorage.removeItem(key)]. *)
Definition removeItem (store : localStorage) (key : string) : localStorage :=
  delete key store.

(** The initialiser of the state of [useLocalStorage] (lines 67 to 75):
    [item ? JSON.parse(item) : initialValue], and [initialValue] when
    [JSON.parse] throws. *)
Definition initialState (store : localStorage) (key : string) (initialValue : json) : json :=
  match getItem store key with
  | Some item =>
      if Media.Boolean item then
        match parse item with
        | Some v => v
        | None => initialValue
        end
      else initialValue
  | None => initialValue
  end.

(** [React.SetStateAction<T>]: a value, or a function of the previous value;
    the function returns [None] when it throws. *)
Inductive SetStateAction :=
  | Value (v : json)
  | Updater (f : json → option json).

(** [value instanceof Function ? value(storedValue) : value]. *)
Definition valueToStore (storedValue : json) (value : SetStateAction) : option json :=
  match value with
  | Value v => Some v
  | Updater f => f storedValue
  end.

(** What the calls of a render leave behind: the value that [setStoredValue]
    was last called with, if it was called, and the items of the store. *)
Record Effects := mkEffects {
  queued : option json;
  store : localStorage
}.

(** The value of the cell at the next render. *)
Definition rerender (storedValue : json) (e : Effects) : json :=
  default storedValue (queued e).

Section Hook.

(** Whether the platform takes an item: [setItem] throws when the quota of
    the origin is exceeded. *)
Variable accepts : localStorage → string → string → bool.

(** [localStorage.setItem(key, value)]; [None] when it throws. *)
Definition setItem (s : localStorage) (key value : string) : option localStorage :=
  if accepts s key value then Some (<[key := value]> s) else None.

(** [setValue] (lines 77 to 85) of the render in which the cell holds
    [storedValue]: the function reads that value, whatever was queued since.
    [setStoredValue] comes before [setItem], so a write that throws leaves
    the value queued. *)
Definition setValue (key : string) (storedValue : json) (value : SetStateAction)
  (e : Effects) : Effects :=
  match valueToStore storedValue value with
  | None => e
  | Some v =>
      match setItem (store e) key (compact v) with
      | Some s => {| queued := Some v; store := s |}
      | None => {| queued := Some v; store := store e |}
      end
  end.

(** The calls that one render makes of its [setValue], in order. *)
Definition setValues (key : string) (storedValue : json) (values : list SetStateAction)
  (e : Effects) : Effects :=
  fold_left (fun e value => setValue key storedValue value e) values e.

End Hook.

(** The key of the catalog of a session: [`media_${user?.username}`] (line
    224). *)
Definition mediaKey (user : option Auth.User) : string :=
  ("media_" ++ match user with
               | Some u => Auth.username u
               | None => "undefined"
               end)%string.

(** The other keys that the application uses (lines 97, 168, 171 and 591). *)
Definition otherKeys : list string := ["theme"; "currentUser"; "users"; "viewMode"]%string.

(** The cell of the catalog (line 224):
    [useLocalStorage(`media_${user?.username}`, [])]. *)
Definition initialMedia (store : localStorage) (user : option Auth.User) : json :=
  initialState store (mediaKey user) (JArray []).

Definition setMedia (accepts : localStorage → string → string → bool)
  (user : option Auth.User) (media : json) (value : SetStateAction) (e : Effects)
  : Effects :=
  setValue accepts (mediaKey user) media value e.

(** [restoreData] (lines 270 to 295) with the cell of the catalog:
    [setMedia(restoredMedia)] is a call of [setValue], which catches what
    [setItem] throws, so the toast of success follows it either way. *)
Definition restoreData (accepts : localStorage → string → string → bool)
  (user : option Auth.User) (media : json) (file : option string) (e : Effects)
  : Effects * option Backup.Toast :=
  match file with
  | None => (e, None)
  | Some text =>
      match Backup.restore_try text with
      | inr restoredMedia =>
          (setMedia accepts user media (Value (JArray restoredMedia)) e,
           Some Backup.Restored)
      | inl _ => (e, Some Backup.InvalidBackupFormat)
      end
  end.

End Storage.

(** ** The session across reloads ([AuthProvider] and the store) *)

Module Session.
Import Json Storage.

(** The object [{ username }] that [login] stores. *)
Definition loggedInUser (username : string) : json :=
  JObject [("username"%string, JString username)].

(** The initialiser of [user] (lines 167 to 170):
    [storedUser ? JSON.parse(storedUser) : null]. Nothing catches what
    [JSON.parse] throws: [None] is a provider that fails to render. *)
Definition initialUser (store : localStorage) : option json :=
  match getItem store "currentUser" with
  | Some storedUser => if Media.Boolean storedUser then parse storedUser else Some JNull
  | None => Some JNull
  end.

Section Provider.

Variable accepts : localStorage → string → string → bool.

(** [login] (lines 173 to 181) with the store: the state, the store and what
    the call returns; [None] when [setItem] throws, which is after
    [setUser]. *)
Definition login (st : Auth.State) (store : localStorage) (credentials : Auth.User)
  : Auth.State * localStorage * option bool :=
  let (st', success) := Auth.login st credentials in
  if success then
    match setItem accepts store "currentUser"
            (compact (loggedInUser (Auth.username credentials))) with
    | Some store' => (st', store', Some true)
    | None => (st', store, None)
    end
  else (st, store, Some false).

End Provider.

(** [logout] (lines 183 to 186) with the store. *)
Definition logout (st : Auth.State) (store : localStorage) : Auth.State * localStorage :=
  (Auth.logout st, removeItem store "currentUser").

End Session.

(** ** The login form ([AuthPage]) *)

Module AuthPage.
Import Auth.

(** [handleSubmit] (lines 869 to 888): the state of the provider after the
    submission and the text of [error]. [login] and [register] are the
    functions of one render of the provider: both read the [users] of that
    render, and so does the [login] that follows [register]. *)
Definition handleSubmit (showRegister : bool) (username password : string) (st : State)
  : State * string :=
  if negb (Media.Boolean username) || negb (Media.Boolean password) then
    (st, "Usuário e senha são obrigatórios."%string)
  else
    let credentials := {| username := username; password := Some password |} in
    if showRegister then
      let (registered, success) := register st credentials in
      if negb success then (registered, "Nome de usuário já existe."%string)
      else
        let (loggedIn, _) := login st credentials in
        ({| user := user loggedIn; users := users registered |}, ""%string)
    else
      let (loggedIn, success) := login st credentials in
      (loggedIn, if success then ""%string else "Usuário ou senha inválidos."%string).

(** One submission: the mode of the form and its two fields. *)
Definition submission : Type := bool * string * string.

(** A sequence of submissions, each in a render of its own. *)
Definition submit (subs : list submission) (st : State) : State :=
  fold_left (fun s '(showRegister, u, p) => fst (handleSubmit showRegister u p s)) subs st.

End AuthPage.

(** ** The toasts ([ToastProvider]) *)

Module Toasts.
Import Backup.

(** [interface ToastMessage] (lines 22 to 26). *)
Record ToastMessage := mkToastMessage {
  id : string;
  message : string;
  type : ToastType
}.

(** The update of [addToast] (lines 128 to 130) for the clock reading [now]:
    the id is [Date.now().toString()]. *)
Definition addToast (now : N) (message : string) (type : ToastType)
  (prev : list ToastMessage) : list ToastMessage :=
  let id := JS.digits now in
  prev ++ [ {| id := id; message := message; type := type |} ].

(** The update of [removeToast] (lines 136 to 138); the timer that
    [addToast] sets (lines 131 to 133) runs the same filter with the id of
    its toast. *)
Definition removeToast (i : string) (prev : list ToastMessage) : list ToastMessage :=
  List.filter (fun toast => negb (JS.strict_eq (id toast) i)) prev.

(** What happens to the list of toasts: a toast is raised at a reading of
    the clock, the timer of the toast raised at a reading fires, or a toast
    is dismissed by its id. *)
Inductive event :=
  | Raise (now : N) (message : string) (type : ToastType)
  | Timer (now : N)
  | Dismiss (i : string).

Definition step (toasts : list ToastMessage) (e : event) : list ToastMessage :=
  match e with
  | Raise now message type => addToast now message type toasts
  | Timer now => removeToast (JS.digits now) toasts
  | Dismiss i => removeToast i toasts
  end.

Definition run (events : list event) (toasts : list ToastMessage) : list ToastMessage :=
  fold_left step events toasts.

(** Every toast that is raised has its timer later in the sequence, as
    [setTimeout] sees to. *)
Fixpoint timers_fire (events : list event) : Prop :=
  match events with
  | [] => True
  | Raise now _ _ :: events' => Timer now ∈ events' ∧ timers_fire events'
  | _ :: events' => timers_fire events'
  end.

End Toasts.

(** ** The upload dialog ([UploadModal]) *)

Module Upload.
Import Media Backup.

(** The limit of [handleFileChange]: [5 * 1024 * 1024]. *)
Definition maxSize : Z := 5 * 1024 * 1024.

Definition tooLarge (file : File) : bool := file_size file >? maxSize.

(** [handleFileChange] (lines 416 to 426) on the list of the input ([None]
    is [null]) and the files chosen so far: the files chosen now, and the
    toasts raised, one for every file that is refused. *)
Definition handleFileChange (selectedFiles : option (list File)) (files : list File)
  : list File * list Toast :=
  match selectedFiles with
  | None => (files, [])
  | Some selected =>
      let newFiles := List.filter (fun file => negb (tooLarge file)) selected in
      let toasts :=
        List.map
          (fun file =>
             {| message := "Arquivo " ++ file_name file ++ " é muito grande (máx 5MB).";
                toastType := error |})
          (List.filter tooLarge selected) in
      ((files ++ newFiles)%list, toasts)
  end.

(** The files chosen after the dialog opened ([resetState] empties the list)
    and the input changed, or files were dropped, a number of times. *)
Definition chosen (changes : list (option (list File))) : list File :=
  fold_left (fun files selected => fst (handleFileChange selected files)) changes [].

(** What the platform does with one file of an upload: [fileToBase64]
    resolves to a data URL or rejects ([None]); [generateTagsForImage] and
    [getImageDimensions] resolve or stay pending for ever ([None]), neither
    ever rejects; [addMedia] reads the clock and the random source. *)
Record Platform := mkPlatform {
  read : option string;
  generated : option (list string);
  measured : option (Z * Z);
  instant : Instant
}.

(** How a promise ends. *)
Inductive settled (A : Type) :=
  | Fulfilled (a : A)
  | Rejected
  | Pending.
Arguments Fulfilled {A} a.
Arguments Rejected {A}.
Arguments Pending {A}.

(** The async callback of [files.map] (lines 457 to 482). *)
Definition upload_one (category : string) (fp : File * Platform) : settled NewMedia :=
  let (file, p) := fp in
  match read p with
  | None => Rejected
  | Some dataUrl =>
      if JS.startsWith "image" (file_type file) then
        match generated p with
        | None => Pending
        | Some tags =>
            match measured p with
            | None => Pending
            | Some dimensions => Fulfilled (mediaToUpload category file dataUrl tags dimensions)
            end
        end
      else Fulfilled (mediaToUpload category file dataUrl [] (0, 0))
  end.

(** [Promise.all]: rejected when one promise is, pending while one is and
    none is rejected, and otherwise fulfilled with the values in the order
    of the promises. *)
Fixpoint all {A} (promises : list (settled A)) : settled (list A) :=
  match promises with
  | [] => Fulfilled []
  | p :: promises' =>
      match p, all promises' with
      | Rejected, _ | _, Rejected => Rejected
      | Pending, _ | _, Pending => Pending
      | Fulfilled a, Fulfilled l => Fulfilled (a :: l)
      end
  end.

(** What [handleUpload] leaves: the catalog, the value it last gave to
    [setIsUploading] if it gave one, whether it called [onClose], and the
    toast it raised. *)
Record Result := mkResult {
  media : list MediaFile;
  spinner : option bool;
  closed : bool;
  toast : option Toast
}.

(** [handleUpload] (lines 448 to 493). *)
Definition handleUpload (category : string) (files : list (File * Platform))
  (catalog : list MediaFile) : Result :=
  match files with
  | [] =>
      {| media := catalog; spinner := None; closed := false;
         toast := Some {| message := "Por favor, selecione os arquivos para enviar.";
                          toastType := info |} |}
  | _ =>
      match all (List.map (upload_one category) files) with
      | Fulfilled mediaToUpload =>
          {| media :=
               addMedia (zip (List.map (fun fp => instant (snd fp)) files) mediaToUpload)
                 catalog;
             spinner := Some true; closed := true;
             toast := Some {| message := JS.digits (N.of_nat (length files))
                                         ++ " arquivo(s) enviado(s) com sucesso!";
                              toastType := success |} |}
      | Rejected =>
          {| media := catalog; spinner := Some false; closed := false;
             toast := Some {| message := "Ocorreu um erro durante o envio.";
                              toastType := error |} |}
      | Pending =>
          {| media := catalog; spinner := Some true; closed := false; toast := None |}
      end
  end.

(** *** Notions of the statements *)

(** A file whose promises all resolve: it is read, and an image is tagged
    and measured. *)
Definition settles (fp : File * Platform) : Prop :=
  read (snd fp) ≠ None
  ∧ (JS.startsWith "image" (file_type (fst fp)) = true →
     generated (snd fp) ≠ None ∧ measured (snd fp) ≠ None).

(** What the callback resolves to for such a file. *)
Definition resolved (category : string) (fp : File * Platform) : NewMedia :=
  mediaToUpload category (fst fp)
    (default ""%string (read (snd fp)))
    (default [] (generated (snd fp)))
    (default (0, 0) (measured (snd fp))).

End Upload.

(** ** The tags of an image ([src/services/geminiService.ts]) *)

Module Gemini.

(** The code points that [String.prototype.trim] removes: the white space
    and the line terminators of ECMAScript. *)
Definition WhiteSpace : list N :=
  [ 9; 10; 11; 12; 13; 32; 160; 5760;
    8192; 8193; 8194; 8195; 8196; 8197; 8198; 8199; 8200; 8201; 8202;
    8232; 8233; 8239; 8287; 12288; 65279 ]%N.

(** Their bytes in UTF-8: one, two or three bytes each. *)
Definition white : list string := List.map Json.utf8 WhiteSpace.

Definition space1 (a : ascii) : bool :=
  bool_decide (String a "" ∈ white).

Definition space2 (a b : ascii) : bool :=
  bool_decide (String a (String b "") ∈ white).

Definition space3 (a b c : ascii) : bool :=
  bool_decide (String a (String b (String c "")) ∈ white).

(** The bytes of [s] without the white space they start with; [p1], [p2] and
    [p3] tell which sequences of one, two and three bytes are white space. *)
Fixpoint strip_spaces (p1 : ascii → bool) (p2 : ascii → ascii → bool)
  (p3 : ascii → ascii → ascii → bool) (s : list ascii) : list ascii :=
  match s with
  | [] => []
  | a :: r1 =>
      if p1 a then strip_spaces p1 p2 p3 r1
      else
        match r1 with
        | [] => s
        | b :: r2 =>
            if p2 a b then strip_spaces p1 p2 p3 r2
            else
              match r2 with
              | [] => s
              | c :: r3 => if p3 a b c then strip_spaces p1 p2 p3 r3 else s
              end
        end
  end.

(** A text that does not start with white space. *)
Definition stopped (p1 : ascii → bool) (p2 : ascii → ascii → bool)
  (p3 : ascii → ascii → ascii → bool) (s : list ascii) : Prop :=
  match s with
  | [] => True
  | [a] => p1 a = false
  | [a; b] => p1 a = false ∧ p2 a b = false
  | a :: b :: c :: _ => p1 a = false ∧ p2 a b = false ∧ p3 a b c = false
  end.

Definition trimStart (s : list ascii) : list ascii :=
  strip_spaces space1 space2 space3 s.

(** The same from the end, where the bytes are met in reverse. In UTF-8 no
    character ends with the bytes of another, so the bytes of white space at
    the end of a text are white space. *)
Definition trimEnd (s : list ascii) : list ascii :=
  rev (strip_spaces space1 (fun a b => space2 b a) (fun a b c => space3 c b a) (rev s)).

(** [s.trim()]. *)
Definition trim (s : string) : string :=
  string_of_list_ascii (trimEnd (trimStart (list_ascii_of_string s))).

(** [s.split(sep)] for a separator of one character. *)
Fixpoint split (sep : ascii) (s : string) : list string :=
  match s with
  | EmptyString => [EmptyString]
  | String c r =>
      if Ascii.eqb c sep then EmptyString :: split sep r
      else
        match split sep r with
        | p :: ps => String c p :: ps
        | [] => [String c EmptyString]
        end
  end.

(** [ToBoolean] of a string that may be [undefined]. *)
Definition Boolean (x : option string) : bool :=
  match x with
  | Some s => Media.Boolean s
  | None => false
  end.

(** [generateTagsForImage] (lines 14 to 48). [API_KEY] is
    [process.env.API_KEY]; [response] is what the request gives: [None] when
    it throws, otherwise [response.text], which may be [undefined]. *)
Definition generateTagsForImage (API_KEY : option string) (response : option (option string))
  : list string :=
  if negb (Boolean API_KEY) then ["IA Desativada"%string]
  else
    match response with
    | Some text =>
        match text with
        | Some t =>
            if Media.Boolean t then List.filter Media.Boolean (List.map trim (split "," t))
            else ["falha na marcação"%string]
        | None => ["falha na marcação"%string]
        end
    | None => ["erro de IA"%string]
    end.

(** A tag as the instruction of the request asks for it: not empty, without
    a comma, and without white space at either end. *)
Definition clean (tag : string) : Prop :=
  tag ≠ ""%string ∧ (","%char ∉ list_ascii_of_string tag) ∧ trim tag = tag.

(** The text of [n] spaces. *)
Fixpoint spaces (n : nat) : string :=
  match n with
  | O => ""
  | S n' => String " " (spaces n')
  end.

End Gemini.

(** ** The catalog view on what the state cell holds *)

Module MediaGrid.
Import Json Backup.

(** A computation that may throw. *)
#[global] Instance exn_ret : MRet (sum exn) := fun A a => inr a.
#[global] Instance exn_bind : MBind (sum exn) :=
  fun A B f x => match x with inl e => inl e | inr a => f a end.

Section Effect.

Variable toLowerCase : string → string.

(** [v.toLowerCase()] on what a property read gave: a [TypeError] unless
    [v] is a string, since no other JSON value has a method of that name. *)
Definition lowered (v : option json) : exn + string :=
  match v with
  | Some (JString s) => inr (toLowerCase s)
  | _ => inl TypeError
  end.

(** [tags.some(tag => tag.toLowerCase().includes(lowerCaseSearch))] on the
    elements of an array. *)
Fixpoint some (lowerCaseSearch : string) (tags : list json) : exn + bool :=
  match tags with
  | [] => inr false
  | tag :: tags' =>
      s ← lowered (Some tag);
      if JS.includes s lowerCaseSearch then inr true else some lowerCaseSearch tags'
  end.

(** [item.tags.some(...)]: a [TypeError] unless [item.tags] is an array. *)
Definition some_tag (lowerCaseSearch : string) (tags : option json) : exn + bool :=
  match tags with
  | Some (JArray items) => some lowerCaseSearch items
  | _ => inl TypeError
  end.

(** [item.category === activeCategory]. *)
Definition is_category (activeCategory : string) (category : option json) : bool :=
  match category with
  | Some (JString s) => JS.strict_eq s activeCategory
  | _ => false
  end.

(** The callback of [media.filter] in the effect of [MediaGrid] (lines 596
    to 602) on a JSON value; [||] evaluates its right side only when the
    left side is false. *)
Definition shown (lowerCaseSearch activeCategory : string) (item : json) : exn + bool :=
  inCategory ←
    (if JS.strict_eq activeCategory View.Todos then inr true
     else category ← prop item "category"; inr (is_category activeCategory category));
  name ← prop item "name";
  name ← lowered name;
  matchesSearch ←
    (if JS.includes name lowerCaseSearch then inr true
     else
       category ← prop item "category";
       category ← lowered category;
       if JS.includes category lowerCaseSearch then inr true
       else tags ← prop item "tags"; some_tag lowerCaseSearch tags);
  inr (inCategory && matchesSearch).

(** [Array.prototype.filter] with a callback that may throw. *)
Fixpoint filter (f : json → exn + bool) (items : list json) : exn + list json :=
  match items with
  | [] => inr []
  | item :: items' =>
      match f item with
      | inl e => inl e
      | inr keep =>
          match filter f items' with
          | inl e => inl e
          | inr rest => inr (if keep then item :: rest else rest)
          end
      end
  end.

(** What the effect hands to [setFilteredMedia], or what it throws. *)
Definition filteredMedia (media : list json) (searchTerm activeCategory : string)
  : exn + list json :=
  let lowerCaseSearch := toLowerCase searchTerm in
  filter (shown lowerCaseSearch activeCategory) media.

End Effect.

(** An element whose name is not a string. *)
Definition name_is_no_string (item : json) : Prop :=
  ∀ s, prop item "name" ≠ inr (Some (JString s)).

End MediaGrid.

(** ** Sample data *)

Module Sample.
Import Media.

Definition sunset : MediaFile :=
  {| id := "1700000000000-0.25"; name := "sunset.jpg"; type := image;
     mimeType := "image/jpeg"; size := 2048;
     dataUrl := "data:image/jpeg;base64,AAAA"; category := "Nature";
     tags := ["beach"]; uploadDate := "2023-11-14T22:13:20.000Z"; views := 0;
     width := Some 640; height := Some 480 |}.

Definition clip : MediaFile :=
  {| id := "1700000000001-0.5"; name := "clip.mp4"; type := video;
     mimeType := "video/mp4"; size := 4096;
     dataUrl := "data:video/mp4;base64,BBBB"; category := "Sem Categoria";
     tags := []; uploadDate := "2023-11-14T22:13:20.001Z"; views := 3;
     width := None; height := None |}.

Definition catalog : list MediaFile := [sunset; clip].

Definition photo (n : string) : NewMedia :=
  {| new_name := n; new_type := image; new_mimeType := "image/png";
     new_size := 1024; new_dataUrl := "data:image/png;base64,CCCC";
     new_category := "Sem Categoria"; new_tags := ["IA Desativada"];
     new_width := Some 32; new_height := Some 32 |}.

(** Two readings of the platform in the same millisecond. *)
Definition instant (random : string) : Instant :=
  {| Date_now := 1700000000002; Math_random := random;
     toISOString := "2023-11-14T22:13:20.002Z" |}.

Definition batch : list (Instant * NewMedia) :=
  [(instant "0.125", photo "a.png"); (instant "0.375", photo "b.png")].

(** A batch whose two files read the same clock and the same random number. *)
Definition colliding_batch : list (Instant * NewMedia) :=
  [(instant "0.125", photo "a.png"); (instant "0.125", photo "b.png")].

Definition calls : list op :=
  [ Add batch;
    IncrementView "1700000000000-0.25";
    Update "1700000000001-0.5"
      {| upd_id := None; upd_name := None; upd_type := None; upd_mimeType := None;
         upd_size := None; upd_dataUrl := None; upd_category := Some "Viagens";
         upd_tags := None; upd_uploadDate := None; upd_views := None;
         upd_width := None; upd_height := None |};
    Delete "1700000000002-0.375" ].

(** An update that renames [sunset] to the id of [clip]. *)
Definition rename : op :=
  Update "1700000000000-0.25"
    {| upd_id := Some "1700000000001-0.5"; upd_name := None; upd_type := None;
       upd_mimeType := None; upd_size := None; upd_dataUrl := None;
       upd_category := None; upd_tags := None; upd_uploadDate := None;
       upd_views := None; upd_width := None; upd_height := None |}.




(** A video file as [handleUpload] sees it. *)
Definition movie : File :=
  {| file_name := "clip.mp4"; file_type := "video/mp4"; file_size := 4096 |}.

(** The text of a backup with one element that has the three fields, of one
    whose element has no id, and of one that is not JSON. *)
Definition quoted (s : string) : string :=
  String Json.dquote (s ++ String Json.dquote "")%string.

Definition minimal_backup : string :=
  ("[{" ++ quoted "id" ++ ":" ++ quoted "a" ++ "," ++ quoted "name" ++ ":" ++ quoted "b" ++ ","
        ++ quoted "dataUrl" ++ ":" ++ quoted "c" ++ "}]")%string.

Definition backup_without_id : string :=
  ("[{" ++ quoted "name" ++ ":" ++ quoted "b" ++ "," ++ quoted "dataUrl" ++ ":" ++ quoted "c" ++ "}]")%string.

Definition not_json : string := "[{"%string.

(** Credentials with an empty password, which the form never submits, and
    credentials of the same user with a password. *)
Definition bob_empty : Auth.User := Auth.mkUser "bob" (Some ""%string).
Definition bob_secret : Auth.User := Auth.mkUser "bob" (Some "secret"%string).
Definition ana : Auth.User := Auth.mkUser "ana" (Some "Senha1"%string).
Definition ana_lower : Auth.User := Auth.mkUser "ana" (Some "senha1"%string).

(** A store that takes every item. *)
Definition roomy : gmap string string → string → string → bool := fun _ _ _ => true.

(** An updater that puts a number in front of an array. *)
Definition push (n : Z) : Storage.SetStateAction :=
  Storage.Updater
    (fun prev =>
       match prev with
       | Json.JArray items => Some (Json.JArray (Json.JNumber n :: items))
       | _ => None
       end).

(** An image file of the dialog, and what the platform may do with a file:
    read, tag and measure it; read and tag it but never measure it. *)
Definition poster : File :=
  {| file_name := "poster.png"; file_type := "image/png"; file_size := 1024 |}.

Definition settling (random : string) : Upload.Platform :=
  {| Upload.read := Some "data:;base64,CCCC"%string;
     Upload.generated := Some ["IA Desativada"%string];
     Upload.measured := Some (32, 32);
     Upload.instant := instant random |}.

Definition undecodable (random : string) : Upload.Platform :=
  {| Upload.read := Some "data:;base64,CCCC"%string;
     Upload.generated := Some ["IA Desativada"%string];
     Upload.measured := None;
     Upload.instant := instant random |}.

(** The element of a backup whose name is a number, and the text of that
    backup. *)
Definition numbered : Json.json :=
  Json.JObject
    [ ("id"%string, Json.JString "a"); ("name"%string, Json.JNumber 1);
      ("dataUrl"%string, Json.JString "c") ].

Definition numbered_backup : string :=
  ("[{" ++ quoted "id" ++ ":" ++ quoted "a" ++ "," ++ quoted "name" ++ ":1,"
        ++ quoted "dataUrl" ++ ":" ++ quoted "c" ++ "}]")%string.

(** A backup whose numbers are written with a fraction and with an
    exponent, and the sequence that it holds. *)
Definition decimal_backup : string :=
  ("[{" ++ quoted "id" ++ ":" ++ quoted "a" ++ "," ++ quoted "name" ++ ":" ++ quoted "b" ++ ","
        ++ quoted "dataUrl" ++ ":" ++ quoted "c" ++ ","
        ++ quoted "size" ++ ":2048.0," ++ quoted "views" ++ ":1e3}]")%string.

Definition decimal_items : list Json.json :=
  [ Json.JObject
      [ ("id"%string, Json.JString "a"); ("name"%string, Json.JString "b");
        ("dataUrl"%string, Json.JString "c");
        ("size"%string, Json.JNumber 2048); ("views"%string, Json.JNumber 1000) ] ].

(** Numbers as a JSON text may write them, and texts that are no numbers. *)
Definition numbers : string := "[0.5, -0.1, 3.14e2, 25E-1, 1e-7, 1e400, -0, 9007199254740993]"%string.
Definition no_numbers : list string := ["1."; ".5"; "01"; "1e"; "1e+"; "+1"; "0x10"; "--1"]%string.

(** A string literal with the two escapes of a surrogate pair, U+1F600, and
    one with a high surrogate that stands alone. *)
Definition paired : string := quoted "\ud83d\ude00".
Definition unpaired : string := quoted "\ud83dA".

End Sample.

(** * Properties *)

(** ** The media catalog *)

Module CatalogProperties.
Import Media.

(** *** Generated ids *)

Lemma string_of_uint_dash d d' r r' :
  (NilEmpty.string_of_uint d ++ String "-" r
   = NilEmpty.string_of_uint d' ++ String "-" r')%string →
  d = d' ∧ r = r'.
Proof.
  revert d'. induction d; intros d'; destruct d'; simpl; intros H;
    try discriminate H;
    try (injection H as H; apply IHd in H as [-> ->]; done).
  by injection H as ->.
Qed.

Lemma newId_inj t t' :
  newId t = newId t' → Date_now t = Date_now t' ∧ Math_random t = Math_random t'.
Proof.
  unfold newId, JS.digits. intros H.
  apply string_of_uint_dash in H as [H ->]. split; [|done].
  by apply DecimalN.Unsigned.to_uint_inj.
Qed.

Lemma newIds_NoDup files :
  NoDup (List.map (fun tf => (Date_now (fst tf), Math_random (fst tf))) files) →
  NoDup (newIds files).
Proof.
  unfold newIds. induction files as [|tf files IH]; simpl; intros H.
  - constructor.
  - apply NoDup_cons in H as [Hnew H]. apply NoDup_cons. split; [|by apply IH].
    intros Hin. apply Hnew.
    apply list_elem_of_In, in_map_iff in Hin as (tf' & Heq & Hin).
    apply list_elem_of_In, in_map_iff. exists tf'. split; [|done].
    apply newId_inj in Heq as [-> ->]. done.
Qed.

(** *** What each call does to the ids *)

Lemma ids_addMedia files prev : ids (addMedia files prev) = newIds files ++ ids prev.
Proof.
  unfold ids, addMedia, newIds. rewrite List.map_app, List.map_map. done.
Qed.

Lemma ids_deleteMedia i prev :
  ids (deleteMedia i prev) = List.filter (fun j => negb (JS.strict_eq j i)) (ids prev).
Proof.
  unfold ids, deleteMedia. induction prev as [|m prev IH]; simpl; [done|].
  destruct (JS.strict_eq (id m) i); simpl; by rewrite IH.
Qed.

Lemma id_spread item updates : upd_id updates = None → id (spread item updates) = id item.
Proof. intros H. simpl. by rewrite H. Qed.

Lemma ids_updateMedia i updates prev :
  upd_id updates = None → ids (updateMedia i updates prev) = ids prev.
Proof.
  intros H. unfold ids, updateMedia. rewrite List.map_map. apply map_ext.
  intros m. destruct (JS.strict_eq (id m) i); [by apply id_spread|done].
Qed.

Lemma ids_incrementView i media : ids (incrementView i media) = ids media.
Proof. by apply ids_updateMedia. Qed.

Lemma NoDup_filter_bool {A} (f : A → bool) (l : list A) :
  NoDup l → NoDup (List.filter f l).
Proof.
  induction 1 as [|x l Hx Hl IH]; simpl; [constructor|].
  destruct (f x); [|done]. constructor; [|done].
  rewrite list_elem_of_In, filter_In, <- list_elem_of_In. tauto.
Qed.

Lemma ids_updateMedia_rename i j updates prev :
  upd_id updates = Some j →
  ids (updateMedia i updates prev)
  = List.map (fun x => if JS.strict_eq x i then j else x) (ids prev).
Proof.
  intros H. unfold ids, updateMedia. rewrite !List.map_map. apply map_ext.
  intros m. destruct (JS.strict_eq (id m) i); [|done]. simpl. by rewrite H.
Qed.

Lemma NoDup_rename i j (l : list string) :
  NoDup l → j = i ∨ j ∉ l →
  NoDup (List.map (fun x => if JS.strict_eq x i then j else x) l).
Proof.
  intros Hnd [->|Hj].
  - rewrite (map_ext _ (fun x => x)), map_id; [done|].
    intros x. unfold JS.strict_eq. by destruct (String.eqb_spec x i).
  - induction Hnd as [|x l Hx Hnd IH]; simpl; [constructor|].
    apply not_elem_of_cons in Hj as [Hjx Hj].
    constructor; [|by apply IH].
    intros Hin. apply list_elem_of_In, in_map_iff in Hin as (y & Hy & Hin).
    apply list_elem_of_In in Hin. unfold JS.strict_eq in *.
    destruct (String.eqb_spec x i), (String.eqb_spec y i); by subst.
Qed.

Lemma keeps_ids_NoDup media o :
  NoDup (ids media) → keeps_ids media o → NoDup (ids (apply o media)).
Proof.
  intros Hnd Hok. destruct o as [files|i|i updates|i]; simpl in *.
  - destruct Hok as [Hnew Hfresh]. rewrite ids_addMedia.
    apply NoDup_app. split_and!; [by apply newIds_NoDup|done|done].
  - rewrite ids_deleteMedia. by apply NoDup_filter_bool.
  - destruct (upd_id updates) as [j|] eqn:E.
    + rewrite (ids_updateMedia_rename i j) by done. apply NoDup_rename; auto.
    + by rewrite ids_updateMedia.
  - by rewrite ids_incrementView.
Qed.

Lemma each_call_NoDup P ops media :
  (∀ media o, P media o → keeps_ids media o) →
  NoDup (ids media) → each_call P ops media → NoDup (ids (run ops media)).
Proof.
  intros HP. revert media. induction ops as [|o ops IH]; simpl; intros media Hnd Hok.
  - done.
  - destruct Hok as [Ho Hok]. apply IH; [|done]. apply keeps_ids_NoDup; auto.
Qed.




(** *** Adding a batch *)

Lemma addMedia_lookup_new files prev k tf :
  files !! k = Some tf → addMedia files prev !! k = Some (newMediaItem (fst tf) (snd tf)).
Proof.
  intros H. unfold addMedia. rewrite lookup_app_l.
  - change (List.map ?f files) with (f <$> files). by rewrite list_lookup_fmap, H.
  - rewrite length_map. by eapply lookup_lt_Some.
Qed.

Lemma addMedia_lookup_old files prev j :
  addMedia files prev !! (length files + j)%nat = prev !! j.
Proof.
  unfold addMedia. rewrite lookup_app_r; rewrite length_map; [|lia].
  f_equal. lia.
Qed.

(** C8, as amended. [addMedia] puts one new record per file of the batch in
    front of the records the catalog had, in the order of the batch; each
    carries the fields of its file, the id generated from its readings of the
    clock and the random source, the time of its creation and a view count
    of 0. When the files of the batch read pairwise different (clock, random)
    pairs and no generated id is in use, the id of a new record differs from
    the id of every other record of the resulting catalog. *)
Theorem addMedia_prepends_fresh files prev :
  (∀ k tf, files !! k = Some tf →
     ∃ m, addMedia files prev !! k = Some m
        ∧ id m = newId (fst tf)
        ∧ uploadDate m = toISOString (fst tf)
        ∧ views m = 0
        ∧ m = newMediaItem (fst tf) (snd tf))
  ∧ (∀ j, addMedia files prev !! (length files + j)%nat = prev !! j)
  ∧ length (addMedia files prev) = (length files + length prev)%nat
  ∧ (fresh files prev →
     ∀ k j m m', (k < length files)%nat → k ≠ j →
       addMedia files prev !! k = Some m → addMedia files prev !! j = Some m' →
       id m ≠ id m').
Proof.
  split_and!.
  - intros k tf H. eexists. split; [by apply addMedia_lookup_new|done].
  - apply addMedia_lookup_old.
  - unfold addMedia. by rewrite length_app, length_map.
  - intros [Hnew Hfresh] k j m m' Hk Hkj Hm Hm' Hid.
    apply newIds_NoDup in Hnew.
    assert (Hids : ∀ n r, addMedia files prev !! n = Some r →
                          ids (addMedia files prev) !! n = Some (id r)).
    { intros n r Hn. unfold ids. change (List.map id ?l) with (id <$> l).
      by rewrite list_lookup_fmap, Hn. }
    apply Hids in Hm, Hm'. rewrite ids_addMedia in Hm, Hm'.
    assert (Hlen : length (newIds files) = length files)
      by (unfold newIds; apply length_map).
    rewrite lookup_app_l in Hm by lia.
    destruct (decide (j < length files)%nat) as [Hj|Hj].
    + rewrite lookup_app_l in Hm' by lia. rewrite Hid in Hm.
      apply Hkj. by eapply NoDup_lookup.
    + rewrite lookup_app_r in Hm' by lia.
      apply (Hfresh (id m)).
      * by eapply list_elem_of_lookup_2.
      * rewrite Hid. by eapply list_elem_of_lookup_2.
Qed.

(** C8, the claim as stated fails: two files of one batch that read the same
    clock and the same random number get the same id. *)
Lemma addMedia_same_instant_same_id :
  ∃ m m', addMedia Sample.colliding_batch Sample.catalog !! 0%nat = Some m
        ∧ addMedia Sample.colliding_batch Sample.catalog !! 1%nat = Some m'
        ∧ id m = id m'.
Proof. do 2 eexists. split_and!; reflexivity. Qed.

(** *** Distinct ids *)

(** C3, as amended. From a catalog with pairwise distinct ids, every sequence
    of add, delete, update and incrementView calls in which each batch is
    fresh for the catalog it is added to and no update sets [id] to the id
    of another record leaves the ids pairwise distinct. *)
Theorem ids_stay_distinct media ops :
  NoDup (ids media) → each_call keeps_ids ops media → NoDup (ids (run ops media)).
Proof. by apply each_call_NoDup. Qed.

(** C3, the claim as stated fails: an update may set [id], here to the id of
    another record. *)
Lemma update_duplicates_id :
  NoDup (ids Sample.catalog) ∧ ¬ NoDup (ids (run [Sample.rename] Sample.catalog)).
Proof.
  split.
  - compute_done.
  - intros H. apply NoDup_cons in H as [H _]. apply H. vm_compute. left.
Qed.

Lemma addMedia_prepends_fresh_witness :
  ∃ m m', addMedia Sample.batch Sample.catalog !! 0%nat = Some m
        ∧ addMedia Sample.batch Sample.catalog !! 1%nat = Some m'
        ∧ id m ≠ id m'.
Proof.
  do 2 eexists. split_and!; [reflexivity..|].
  apply (proj2 (proj2 (proj2 (addMedia_prepends_fresh Sample.batch Sample.catalog))))
    with (k := 0%nat) (j := 1%nat); [|simpl; lia|lia|reflexivity..].
  split; [compute_done|]. apply Forall_forall. compute_done.
Defined.

Lemma ids_stay_distinct_witness : NoDup (ids (run Sample.calls Sample.catalog)).
Proof.
  apply ids_stay_distinct; [compute_done|].
  simpl. split_and!; try done.
  split; [compute_done|]. apply Forall_forall. compute_done.
Defined.

(** *** Counting views *)








(** *** The history of a record *)








(** *** Deleting and updating *)

Lemma sublist_filter_bool {A} (f : A → bool) (l : list A) : sublist (List.filter f l) l.
Proof.
  induction l as [|x l IH]; simpl; [constructor|].
  destruct (f x); by constructor.
Qed.

Lemma deleteMedia_absent i media : i ∉ ids media → deleteMedia i media = media.
Proof.
  unfold deleteMedia. induction media as [|m media IH]; simpl; intros Habsent; [done|].
  apply not_elem_of_cons in Habsent as [Hne Habsent].
  unfold JS.strict_eq. destruct (String.eqb_spec (id m) i); [congruence|].
  simpl. f_equal. by apply IH.
Qed.

(** X1. [deleteMedia] removes every record with the given id and no other
    record, keeps the order of the others, and changes nothing when no
    record has the id. *)
Theorem deleteMedia_removes i media :
  (i ∉ ids (deleteMedia i media))
  ∧ (∀ r, r ∈ deleteMedia i media ↔ r ∈ media ∧ id r ≠ i)
  ∧ sublist (deleteMedia i media) media
  ∧ (i ∉ ids media → deleteMedia i media = media).
Proof.
  assert (Hin : ∀ r, r ∈ deleteMedia i media ↔ r ∈ media ∧ id r ≠ i).
  { intros r. unfold deleteMedia, JS.strict_eq.
    rewrite list_elem_of_In, filter_In, <- list_elem_of_In, negb_true_iff, String.eqb_neq.
    done. }
  split_and!.
  - intros H. apply list_elem_of_In, in_map_iff in H as (r & Hid & Hr).
    apply list_elem_of_In, Hin in Hr as [_ Hne]. done.
  - exact Hin.
  - apply sublist_filter_bool.
  - apply deleteMedia_absent.
Qed.

(** X2. [updateMedia] on an id that no record has changes nothing. *)
Theorem updateMedia_absent i updates media :
  i ∉ ids media → updateMedia i updates media = media.
Proof.
  intros Habsent. unfold updateMedia.
  induction media as [|m media IH]; simpl; [done|].
  simpl in Habsent. apply not_elem_of_cons in Habsent as [Hne Habsent].
  unfold JS.strict_eq. destruct (String.eqb_spec (id m) i); [congruence|].
  f_equal. by apply IH.
Qed.

Lemma updateMedia_absent_witness :
  updateMedia "nobody" (only_views 7) Sample.catalog = Sample.catalog.
Proof. apply updateMedia_absent. compute_done. Defined.

(** *** The derived categories *)

Lemma existsb_strict_eq x seen : existsb (JS.strict_eq x) seen = true ↔ x ∈ seen.
Proof.
  rewrite existsb_exists, list_elem_of_In. unfold JS.strict_eq. split.
  - intros (y & Hy & Heq). apply String.eqb_eq in Heq. by subst.
  - intros H. exists x. split; [done|apply String.eqb_refl].
Qed.

Lemma distinct_from_spec seen values :
  NoDup (distinct_from seen values)
  ∧ (∀ x, x ∈ distinct_from seen values ↔ x ∈ values ∧ x ∉ seen)
  ∧ sublist (distinct_from seen values) values.
Proof.
  revert seen. induction values as [|x values IH]; intros seen; simpl.
  - split_and!; [constructor| |constructor].
    intros y. rewrite elem_of_nil. tauto.
  - destruct (existsb (JS.strict_eq x) seen) eqn:E.
    + apply existsb_strict_eq in E.
      destruct (IH seen) as (Hnd & Hin & Hsub). split_and!; [done| |by constructor].
      intros y. rewrite Hin, elem_of_cons. split; [tauto|].
      intros [[->|?] ?]; tauto.
    + assert (Hx : x ∉ seen) by (rewrite <- existsb_strict_eq; congruence).
      destruct (IH (x :: seen)) as (Hnd & Hin & Hsub). split_and!.
      * constructor; [|done]. rewrite Hin, elem_of_cons. tauto.
      * intros y. rewrite !elem_of_cons, Hin, elem_of_cons.
        destruct (decide (y = x)) as [->|Hne]; tauto.
      * by constructor.
Qed.

(** X3. The categories are the sentinel followed by the categories of the
    records that are not empty, each once, in an order in which they occur
    in the catalog. *)
Theorem categories_are_distinct media :
  ∃ derived, categories media = "Todos"%string :: derived
    ∧ NoDup derived
    ∧ (∀ c, c ∈ derived ↔ c ≠ ""%string ∧ c ∈ List.map category media)
    ∧ sublist derived (List.map category media).
Proof.
  destruct (distinct_from_spec [] (List.map category media)) as (Hnd & Hin & Hsub).
  eexists. split_and!; [reflexivity|..].
  - by apply NoDup_filter_bool.
  - intros c. rewrite list_elem_of_In, filter_In, <- list_elem_of_In, Hin.
    unfold Boolean. rewrite negb_true_iff, String.eqb_neq, elem_of_nil. tauto.
  - etrans; [apply sublist_filter_bool|done].
Qed.

(** *** Uploading *)

(** X4. A file whose MIME type does not start with image becomes a video
    record with no tags and no dimensions, whatever the tagging service and
    the measuring would have answered. *)
Theorem video_upload category file dataUrl generated measured :
  JS.startsWith "image" (file_type file) = false →
  let item := mediaToUpload category file dataUrl generated measured in
  (new_type item = video ∧ new_tags item = [] ∧ new_width item = None
   ∧ new_height item = None).
Proof. intros H. unfold mediaToUpload. by rewrite H. Qed.

Lemma video_upload_witness :
  let item := mediaToUpload "" Sample.movie "data:video/mp4;base64,BBBB" ["x"] (1, 1) in
  (new_type item = video ∧ new_tags item = [] ∧ new_width item = None
   ∧ new_height item = None).
Proof. apply video_upload. reflexivity. Defined.

End CatalogProperties.

(** ** The catalog view *)

Module ViewProperties.
Import Media View.

Lemma startsWith_spec p s :
  JS.startsWith p s = true ↔ ∃ after, s = (p ++ after)%string.
Proof.
  revert s. induction p as [|a p IH]; intros s; simpl.
  - split; [by exists s|done].
  - destruct s as [|b s].
    + split; [done|]. by intros [after H].
    + rewrite andb_true_iff, Ascii.eqb_eq, IH. split.
      * intros [-> [after ->]]. by exists after.
      * intros [after [= -> ->]]. split; [done|by exists after].
Qed.

Lemma includes_unfold s sub :
  JS.includes s sub
  = JS.startsWith sub s
    || match s with EmptyString => false | String _ s' => JS.includes s' sub end.
Proof. by destruct s. Qed.

Lemma includes_spec s sub :
  JS.includes s sub = true ↔ substring sub s.
Proof.
  unfold substring. split.
  - induction s as [|c s IH]; rewrite includes_unfold, orb_true_iff.
    + intros [H|H]; [|done]. apply startsWith_spec in H as [after ->]. by exists ""%string, after.
    + intros [H|H].
      * apply startsWith_spec in H as [after ->]. by exists ""%string, after.
      * apply IH in H as (before & after & ->). by exists (String c before), after.
  - intros (before & after & ->).
    induction before as [|c before IH]; rewrite includes_unfold, orb_true_iff.
    + left. apply startsWith_spec. by exists after.
    + right. exact IH.
Qed.

Lemma selection_filter {A} (P : A → Prop) (f : A → bool) (l : list A) :
  (∀ x, f x = true ↔ P x) → selection P l (List.filter f l).
Proof.
  intros Hf. induction l as [|x l IH]; simpl; [constructor|].
  destruct (f x) eqn:E.
  - apply selection_keep; [by apply Hf|done].
  - apply selection_drop; [|done]. rewrite <- Hf. congruence.
Qed.

Lemma selection_elem_of {A} (P : A → Prop) (l k : list A) x :
  selection P l k → x ∈ k ↔ x ∈ l ∧ P x.
Proof.
  induction 1 as [|y l k Hy _ IH|y l k Hy _ IH].
  - rewrite elem_of_nil. tauto.
  - rewrite !elem_of_cons, IH. split; [|tauto]. intros [->|[? ?]]; tauto.
  - rewrite elem_of_cons, IH. split; [tauto|]. intros [[->|?] ?]; tauto.
Qed.

Lemma selection_sublist {A} (P : A → Prop) (l k : list A) :
  selection P l k → sublist k l.
Proof. induction 1; by constructor. Qed.

Section Grid.

Variable toLowerCase : string → string.

(** [''.toLowerCase()] is the empty string. *)
Hypothesis toLowerCase_empty : toLowerCase "" = ""%string.

Lemma shown_spec searchTerm activeCategory r :
  shown toLowerCase (toLowerCase searchTerm) activeCategory r = true
  ↔ in_category activeCategory r ∧ matches_text toLowerCase searchTerm r.
Proof.
  unfold shown, in_category, matches_text, JS.strict_eq.
  rewrite andb_true_iff, !orb_true_iff, !String.eqb_eq,
    !includes_spec, existsb_exists.
  assert ((∃ x, In x (tags r) ∧ JS.includes (toLowerCase x) (toLowerCase searchTerm) = true)
          ↔ ∃ tag, tag ∈ tags r
                 ∧ substring (toLowerCase searchTerm) (toLowerCase tag)) as ->.
  { split; intros (tag & Hin & H); exists tag;
      (split; [by apply list_elem_of_In|by apply includes_spec]). }
  tauto.
Qed.

(** C7. The view is the catalog without the records that fail the category
    filter or the text filter: a record of the catalog is in the view exactly
    when it passes both, the records of the view are those of the catalog in
    catalog order, and an empty search term passes every record. The text
    filter compares in lower case; the category filter compares as is. *)
Theorem filteredMedia_is_the_selection media searchTerm activeCategory :
  let passes r := in_category activeCategory r ∧ matches_text toLowerCase searchTerm r in
  let view := filteredMedia toLowerCase media searchTerm activeCategory in
  selection passes media view
  ∧ (∀ r, r ∈ view ↔ r ∈ media ∧ passes r)
  ∧ sublist view media
  ∧ (∀ r, matches_text toLowerCase "" r).
Proof.
  intros passes view.
  assert (Hsel : selection passes media view).
  { apply selection_filter. intros r. apply shown_spec. }
  split_and!.
  - exact Hsel.
  - intros r. by apply selection_elem_of.
  - by eapply selection_sublist.
  - intros r. left. exists ""%string, (toLowerCase (name r)). by rewrite toLowerCase_empty.
Qed.

End Grid.

Lemma filteredMedia_is_the_selection_witness :
  filteredMedia ascii_toLowerCase Sample.catalog "BEACH" Todos = [Sample.sunset]
  ∧ sublist (filteredMedia ascii_toLowerCase Sample.catalog "BEACH" Todos) Sample.catalog.
Proof.
  split; [reflexivity|].
  exact (proj1 (proj2 (proj2
    (filteredMedia_is_the_selection ascii_toLowerCase eq_refl Sample.catalog "BEACH" Todos)))).
Defined.

(** The scenarios of the specification: with the sentinel and an empty term
    the view is the whole catalog; "beach" in any case finds the record
    tagged beach; "mountain" finds nothing. *)
Example view_scenarios :
  filteredMedia ascii_toLowerCase Sample.catalog "" Todos = Sample.catalog
  ∧ filteredMedia ascii_toLowerCase Sample.catalog "BeAcH" "Nature" = [Sample.sunset]
  ∧ filteredMedia ascii_toLowerCase Sample.catalog "mountain" Todos = [].
Proof. split_and!; reflexivity. Qed.

(** X5. With the sentinel as active category and an empty search term the
    view is the whole catalog, in catalog order. *)
Theorem view_of_everything toLowerCase media :
  toLowerCase "" = ""%string → filteredMedia toLowerCase media "" Todos = media.
Proof.
  intros Hempty. unfold filteredMedia. rewrite Hempty.
  induction media as [|m media IH]; simpl; [done|].
  assert (shown toLowerCase "" Todos m = true) as ->; [|by rewrite IH].
  unfold shown. by rewrite (includes_unfold (toLowerCase (name m))).
Qed.

Lemma view_of_everything_witness :
  filteredMedia ascii_toLowerCase Sample.catalog "" Todos = Sample.catalog.
Proof. by apply view_of_everything. Defined.

End ViewProperties.

(** ** The account directory *)

Module AuthProperties.
Import Auth.

Lemma registrations_snoc calls c st :
  registrations (calls ++ [c]) st = fst (register (registrations calls st) c).
Proof. unfold registrations. by rewrite fold_left_app. Qed.

Lemma registered_snoc calls c' st c :
  registered (calls ++ [c']) st c
  ↔ registered calls st c ∨ (c = c' ∧ snd (register (registrations calls st) c') = true).
Proof.
  unfold registered. split.
  - intros (before & after & Heq & Hok).
    destruct after as [|a after _] using rev_ind.
    + apply app_inj_tail in Heq as [-> ->]. by right.
    + left. rewrite app_comm_cons, app_assoc in Heq.
      apply app_inj_tail in Heq as [-> _]. by exists before, after.
  - intros [(before & after & -> & Hok)|[-> Hok]].
    + exists before, (after ++ [c']). by rewrite <- app_assoc.
    + by exists calls, [].
Qed.

Lemma truthy_stored st u p :
  users st !! u = Some (Some p) → p ≠ ""%string → truthy (get (users st) u) = true.
Proof.
  intros H Hp. unfold get. rewrite H. simpl.
  apply negb_true_iff, String.eqb_neq. done.
Qed.

Lemma falsy_unstored st u :
  passwords_set st → truthy (get (users st) u) = false → users st !! u = None.
Proof.
  intros Hset H. destruct (users st !! u) as [x|] eqn:E; [|done].
  destruct (Hset u x E) as (p & -> & Hp).
  by rewrite (truthy_stored st u p) in H.
Qed.

Lemma register_passwords_set st c :
  passwords_set st → has_password c → passwords_set (fst (register st c)).
Proof.
  intros Hset (p & Hp & Hne). unfold register.
  destruct (truthy (get (users st) (username c))); simpl; [done|].
  intros u x. simpl. rewrite lookup_insert. case_decide; [|by apply Hset].
  intros [= <-]. by exists p.
Qed.

Lemma registrations_passwords_set calls :
  Forall has_password calls → passwords_set (registrations calls initial).
Proof.
  induction calls as [|c calls IH] using rev_ind; intros Hall.
  - intros u x. simpl. by rewrite lookup_empty.
  - apply Forall_app in Hall as [Hcalls Hc]. rewrite Forall_singleton in Hc.
    rewrite registrations_snoc. apply register_passwords_set; [by apply IH|done].
Qed.

(** The directory holds exactly the pairs whose registration succeeded. *)
Lemma stored_iff_registered calls u p :
  Forall has_password calls →
  users (registrations calls initial) !! u = Some (Some p)
  ↔ registered calls initial (mkUser u (Some p)).
Proof.
  induction calls as [|c calls IH] using rev_ind; intros Hall.
  - simpl. rewrite lookup_empty. split; [done|].
    intros (before & after & H & _). by destruct before.
  - apply Forall_app in Hall as [Hcalls Hc]. rewrite Forall_singleton in Hc.
    specialize (IH Hcalls).
    pose proof (registrations_passwords_set calls Hcalls) as Hset.
    rewrite registered_snoc, registrations_snoc, <- IH.
    unfold register.
    destruct (truthy (get (users (registrations calls initial)) (username c))) eqn:E; simpl.
    + split; [by left|]. by intros [H|[_ H]].
    + apply falsy_unstored in E; [|done].
      rewrite lookup_insert. case_decide as Hu.
      * subst u. rewrite E. split.
        -- intros [= H]. right. split; [|done]. destruct c; simpl in *. by subst.
        -- intros [H|[H _]]; [done|]. by rewrite <- H.
      * split; [by left|]. intros [H|[H _]]; [done|]. by rewrite <- H in Hu.
Qed.

Lemma login_true st c :
  snd (login st c) = true
  ↔ ∃ p, users st !! username c = Some (Some p) ∧ p ≠ ""%string ∧ password c = Some p.
Proof.
  unfold login, get.
  destruct (users st !! username c) as [[s|]|] eqn:E; simpl.
  - destruct (password c) as [p|]; simpl.
    + destruct (String.eqb_spec s ""), (String.eqb_spec s p); simpl; split;
        try done; try (intros (q & [= <-] & Hq & [= <-]); done).
      intros _. exists s. by subst.
    + rewrite andb_false_r. simpl. split; [done|]. by intros (q & _ & _ & ?).
  - split; [done|]. by intros (q & ? & _).
  - case_bool_decide; simpl; (split; [done|]); by intros (q & ? & _).
Qed.

(** The form submits nothing but credentials with a password. *)
Lemma submitted_has_password c : submitted c → has_password c.
Proof. by intros [_ H]. Qed.

(** C5, as amended. After any history of register calls whose passwords are
    not empty (the form submits no others), a login succeeds exactly when its
    pair of user name and password is the pair of a registration that
    succeeded; the comparison is on the strings as they are, so a password
    that differs in case fails. *)
Theorem login_iff_registered calls c :
  Forall has_password calls →
  snd (login (registrations calls initial) c) = true ↔ registered calls initial c.
Proof.
  intros Hall. rewrite login_true. split.
  - intros (p & Hst & _ & Hp). apply stored_iff_registered in Hst; [|done].
    destruct c; simpl in *. by subst.
  - intros Hreg.
    assert (Hc : has_password c).
    { destruct Hreg as (before & after & -> & _).
      apply Forall_app in Hall as [_ Hall]. by apply Forall_cons in Hall as [? _]. }
    destruct Hc as (p & Hp & Hne). exists p. split_and!; [|done..].
    apply stored_iff_registered; [done|]. destruct c; simpl in *. by subst.
Qed.

Lemma login_iff_registered_witness :
  snd (login (registrations [Sample.ana; Sample.bob_secret] initial) Sample.ana) = true
  ∧ snd (login (registrations [Sample.ana; Sample.bob_secret] initial) Sample.ana_lower)
    = false.
Proof.
  assert (Hall : Forall has_password [Sample.ana; Sample.bob_secret]).
  { repeat constructor; by eexists. }
  split.
  - apply (login_iff_registered [Sample.ana; Sample.bob_secret] Sample.ana Hall).
    by exists [], [Sample.bob_secret].
  - reflexivity.
Defined.

(** C5, the claim as stated fails: a registration with an empty password
    succeeds, and the login with the same pair is refused. *)
Lemma login_refuses_empty_password :
  registered [Sample.bob_empty] initial Sample.bob_empty
  ∧ snd (login (registrations [Sample.bob_empty] initial) Sample.bob_empty) = false.
Proof. split; [by exists [], []|reflexivity]. Qed.

(** C6, as amended. The directory holds one password per user name, and a
    register call for a user name whose stored password is not empty returns
    false and leaves the directory, that password included, as it was. After
    a history of calls whose passwords are not empty (the form submits no
    others) this is every user name that a registration succeeded for. *)
Theorem register_keeps_existing :
  (∀ st, NoDup (fst <$> map_to_list (users st)))
  ∧ (∀ st c p,
       users st !! username c = Some (Some p) → p ≠ ""%string →
       register st c = (st, false))
  ∧ (∀ calls c c',
       Forall has_password calls → registered calls initial c →
       username c' = username c →
       register (registrations calls initial) c' = (registrations calls initial, false)
       ∧ users (registrations calls initial) !! username c = Some (password c)).
Proof.
  split_and!.
  - intros st. apply NoDup_fst_map_to_list.
  - intros st c p H Hp. unfold register. by rewrite (truthy_stored st (username c) p).
  - intros calls c c' Hall Hreg Hu.
    assert (Hc : has_password c).
    { destruct Hreg as (before & after & -> & _).
      apply Forall_app in Hall as [_ Hall]. by apply Forall_cons in Hall as [? _]. }
    destruct Hc as (p & Hp & Hne).
    assert (Hst : users (registrations calls initial) !! username c = Some (Some p)).
    { apply stored_iff_registered; [done|]. destruct c; simpl in *. by subst. }
    split; [|by rewrite Hp].
    unfold register. rewrite Hu. by rewrite (truthy_stored _ (username c) p).
Qed.

Lemma register_keeps_existing_witness :
  register (registrations [Sample.bob_secret] initial) Sample.bob_empty
  = (registrations [Sample.bob_secret] initial, false).
Proof.
  apply (proj1 (proj2 register_keeps_existing)) with (p := "secret"%string);
    [reflexivity|done].
Defined.

(** C6, the claim as stated fails: after a registration with an empty
    password, a second registration of the same user name succeeds and
    replaces the stored password. *)
Lemma register_replaces_empty_password :
  let st := registrations [Sample.bob_empty] initial in
  users st !! "bob"%string = Some (Some ""%string)
  ∧ snd (register st Sample.bob_secret) = true
  ∧ users (fst (register st Sample.bob_secret)) !! "bob"%string = Some (Some "secret"%string).
Proof. split_and!; reflexivity. Qed.

(** X6. A user name that is the name of a member of [Object.prototype] is
    refused by [register] although no account has it, and so never logs
    in. *)
Theorem register_refuses_inherited_names st c :
  username c ∈ Object_prototype → users st !! username c = None →
  register st c = (st, false) ∧ snd (login st c) = false.
Proof.
  intros Hin Hnone. unfold register, login, get. rewrite Hnone.
  rewrite bool_decide_true by done. simpl. by destruct (password c).
Qed.

Lemma register_refuses_inherited_names_witness :
  register initial (mkUser "constructor" (Some "secret"%string)) = (initial, false)
  ∧ snd (login initial (mkUser "constructor" (Some "secret"%string))) = false.
Proof. apply register_refuses_inherited_names; [compute_done|reflexivity]. Defined.

End AuthProperties.

(** ** [JSON.parse] after [JSON.stringify] *)

Module JsonProperties.
Import Json.

Local Open Scope string_scope.
#[local] Arguments String.append !_ _ / : simpl nomatch.

Lemma append_assoc (a b c : string) : (a ++ b) ++ c = a ++ (b ++ c).
Proof. induction a as [|x a IH]; simpl; [done|by rewrite IH]. Qed.

Lemma append_nil_r (a : string) : a ++ "" = a.
Proof. induction a as [|x a IH]; simpl; [done|by rewrite IH]. Qed.

Lemma length_append (a b : string) :
  String.length (a ++ b) = (String.length a + String.length b)%nat.
Proof. induction a as [|x a IH]; simpl; [done|by rewrite IH]. Qed.

(** *** White space *)

Lemma skip_ws_idemp s : skip_ws (skip_ws s) = skip_ws s.
Proof.
  induction s as [|c s IH]; simpl; [done|].
  destruct (is_ws c) eqn:E; [done|]. simpl. by rewrite E.
Qed.

Lemma skip_ws_head c s : is_ws c = false → skip_ws (String c s) = String c s.
Proof. intros H. simpl. by rewrite H. Qed.

Lemma skip_ws_indentation depth s : skip_ws (indentation depth ++ s) = skip_ws s.
Proof. induction depth as [|d IH]; simpl; [done|]. exact IH. Qed.

Lemma skip_ws_newline_indentation depth s :
  skip_ws (String newline (indentation depth ++ s)) = skip_ws s.
Proof. simpl. apply skip_ws_indentation. Qed.

Lemma parse_value_skip_ws fuel s : parse_value fuel (skip_ws s) = parse_value fuel s.
Proof. destruct fuel; simpl; [done|]. by rewrite skip_ws_idemp. Qed.

Lemma parse_elements_skip_ws fuel s :
  parse_elements fuel (skip_ws s) = parse_elements fuel s.
Proof. destruct fuel; simpl; [done|]. by rewrite parse_value_skip_ws. Qed.

Lemma parse_members_skip_ws fuel s :
  parse_members fuel (skip_ws s) = parse_members fuel s.
Proof. destruct fuel; simpl; [done|]. by rewrite skip_ws_idemp. Qed.

(** *** Numbers *)

Lemma digit_of_None c : is_digit c = false → digit_of c = None.
Proof.
  destruct c as [[] [] [] [] [] [] [] []]; intros H; vm_compute in H |- *; congruence.
Qed.

Lemma continues_false c :
  continues c = false →
  is_digit c = false ∧ Ascii.eqb c "." = false
  ∧ Ascii.eqb c "e" = false ∧ Ascii.eqb c "E" = false.
Proof.
  unfold continues. intros H.
  apply orb_false_elim in H as [H HE].
  apply orb_false_elim in H as [H He].
  apply orb_false_elim in H as [Hd Hp]. done.
Qed.

Lemma read_digits_string_of_uint d rest :
  number_ends rest →
  read_digits (NilEmpty.string_of_uint d ++ rest) = (d, rest).
Proof.
  intros Hrest. induction d; simpl; try (by rewrite IHd).
  destruct rest as [|c rest]; simpl; [done|].
  apply continues_false in Hrest as [Hd _].
  by rewrite digit_of_None.
Qed.

Lemma parse_fraction_end rest : number_ends rest → parse_fraction rest = Some (None, rest).
Proof.
  destruct rest as [|c rest]; [done|]. intros H.
  apply continues_false in H as (_ & Hp & _). simpl. by rewrite Hp.
Qed.

Lemma parse_exponent_end rest : number_ends rest → parse_exponent rest = Some (None, rest).
Proof.
  destruct rest as [|c rest]; [done|]. intros H.
  apply continues_false in H as (_ & _ & He & HE). simpl. by rewrite He, HE.
Qed.

(** The digits that [N.to_uint] gives have no leading zero. *)
Lemma to_uint_unorm n : unorm (N.to_uint n) = N.to_uint n.
Proof.
  rewrite <- (DecimalN.Unsigned.of_to n) at 2.
  by rewrite DecimalN.Unsigned.to_of.
Qed.

Lemma parse_nat_digits n rest :
  number_ends rest → parse_nat (JS.digits n ++ rest) = Some (n, rest).
Proof.
  intros Hrest. unfold parse_nat, JS.digits.
  rewrite read_digits_string_of_uint by done.
  pose proof (to_uint_unorm n) as Hnorm.
  pose proof (DecimalN.Unsigned.of_to n) as Hof.
  destruct (N.to_uint n) as [|d|d|d|d|d|d|d|d|d|d] eqn:E;
    try (by rewrite Hof).
  - by destruct n.
  - destruct d; try (by rewrite <- Hof);
      exfalso; rewrite DecimalFacts.unorm_D0 in Hnorm;
      unfold unorm in Hnorm; simpl in Hnorm;
      match type of Hnorm with
      | match nzhead ?x with _ => _ end = _ =>
          pose proof (DecimalFacts.nzhead_nonzero x (D0 x)) ;
          destruct (nzhead x) eqn:Ez; congruence
      | _ => congruence
      end.
Qed.

Lemma digits_head n : ∃ c r, JS.digits n = String c r ∧ is_digit c = true.
Proof.
  unfold JS.digits. pose proof (to_uint_unorm n) as Hnorm.
  destruct (N.to_uint n) eqn:E; simpl; eauto.
  unfold unorm in Hnorm. simpl in Hnorm. discriminate.
Qed.

Lemma is_digit_not_minus c : is_digit c = true → Ascii.eqb c "-" = false.
Proof. destruct c as [[] [] [] [] [] [] [] []]; done. Qed.

Lemma is_digit_not_ws c : is_digit c = true → is_ws c = false.
Proof. destruct c as [[] [] [] [] [] [] [] []]; done. Qed.

(** An integer written in digits is read as that integer, whatever its
    size. *)
Lemma parse_number_string_of_Z z rest :
  number_ends rest →
  parse_number (JS.string_of_Z z ++ rest) = Some (JNumber z, rest).
Proof.
  intros Hrest. unfold parse_number.
  destruct z as [|p|p]; unfold JS.string_of_Z.
  - destruct (digits_head 0%N) as (c & r & Hc & Hd). simpl Z.to_N.
    pose proof (parse_nat_digits 0%N rest Hrest) as H.
    rewrite Hc in *. cbn [String.append]. rewrite (is_digit_not_minus c Hd).
    cbn [String.append] in H. rewrite H.
    by rewrite parse_fraction_end, parse_exponent_end.
  - destruct (digits_head (N.pos p)) as (c & r & Hc & Hd). simpl Z.to_N.
    pose proof (parse_nat_digits (N.pos p) rest Hrest) as H.
    rewrite Hc in *. cbn [String.append]. rewrite (is_digit_not_minus c Hd).
    cbn [String.append] in H. rewrite H.
    by rewrite parse_fraction_end, parse_exponent_end.
  - cbn [String.append]. change (Ascii.eqb "-" "-") with true. cbv iota.
    rewrite parse_nat_digits by done.
    by rewrite parse_fraction_end, parse_exponent_end.
Qed.

(** *** String literals *)

Lemma parse_chars_escape c r :
  parse_chars (escape c ++ r) = prepend (String c "") (parse_chars r).
Proof. destruct c as [[] [] [] [] [] [] [] []]; reflexivity. Qed.

Lemma parse_chars_escape_all s rest :
  parse_chars (escape_all s ++ String dquote rest) = Some (s, rest).
Proof.
  induction s as [|c s IH]; simpl.
  - done.
  - by rewrite append_assoc, parse_chars_escape, IH.
Qed.

Lemma parse_chars_quote s rest :
  ∃ r, quote s ++ rest = String dquote r ∧ parse_chars r = Some (s, rest).
Proof.
  unfold quote. simpl. eexists. split; [done|].
  rewrite append_assoc. apply parse_chars_escape_all.
Qed.

(** *** Values *)

#[local] Arguments join : simpl never.
#[local] Arguments indentation : simpl never.
#[local] Arguments serialize : simpl never.

Lemma string_of_Z_head z :
  ∃ c r, JS.string_of_Z z = String c r
       ∧ is_ws c = false ∧ (is_digit c || Ascii.eqb c "-") = true.
Proof.
  destruct z as [|p|p]; unfold JS.string_of_Z.
  - destruct (digits_head (Z.to_N 0)) as (c & r & -> & Hd).
    exists c, r. by rewrite Hd, (is_digit_not_ws c Hd).
  - destruct (digits_head (Z.to_N (Z.pos p))) as (c & r & -> & Hd).
    exists c, r. by rewrite Hd, (is_digit_not_ws c Hd).
  - by eexists _, _.
Qed.

Lemma is_digit_head c :
  is_digit c = true → is_ws c = false ∧ Ascii.eqb c "]" = false.
Proof. destruct c as [[] [] [] [] [] [] [] []]; done. Qed.

Lemma layout_head s n :
  ∃ c r, layout s n = String c r ∧ is_ws c = false ∧ Ascii.eqb c "]" = false.
Proof.
  unfold layout. destruct (digits_head (Z.to_N s)) as (d & ds & -> & Hd).
  destruct (is_digit_head d Hd) as [Hws Hc].
  destruct (_ && _); [by eexists _, _|].
  destruct (_ && _); by eexists _, _.
Qed.

Lemma serialize_double_head x :
  ∃ c r, serialize_double x = String c r
       ∧ is_ws c = false ∧ Ascii.eqb c "]" = false.
Proof.
  destruct x as [negative m e|negative]; [|by eexists _, _].
  unfold serialize_double, Number_toString. cbv zeta.
  destruct negative; [by eexists _, _|].
  destruct (_ =? 10)%Z; apply layout_head.
Qed.

Lemma serialize_head depth v :
  ∃ c r, serialize depth v = String c r
       ∧ is_ws c = false ∧ Ascii.eqb c "]" = false.
Proof.
  destruct v as [|[]|n|x|s|[|x items]|[|kv props]]; try (by eexists _, _).
  - destruct (string_of_Z_head n) as (c & r & Hc & Hws & Hd).
    exists c, r. split_and!; [done..|].
    destruct c as [[] [] [] [] [] [] [] []]; done.
  - apply serialize_double_head.
Qed.

Lemma serialize_array depth x items rest :
  serialize depth (JArray (x :: items)) ++ rest
  = String "[" (String newline (indentation (S depth)
      ++ (join (separator depth) (List.map (serialize (S depth)) (x :: items))
          ++ String newline (indentation depth ++ String "]" rest)))).
Proof.
  change (serialize depth (JArray (x :: items)))
    with (String "[" (String newline (indentation (S depth)))
            ++ join (separator depth) (List.map (serialize (S depth)) (x :: items))
            ++ String newline (indentation depth) ++ "]").
  rewrite !append_assoc. done.
Qed.

Lemma serialize_object depth kv props rest :
  serialize depth (JObject (kv :: props)) ++ rest
  = String "{" (String newline (indentation (S depth)
      ++ (join (separator depth) (List.map (member depth) (kv :: props))
          ++ String newline (indentation depth ++ String "}" rest)))).
Proof.
  change (serialize depth (JObject (kv :: props)))
    with (String "{" (String newline (indentation (S depth)))
            ++ join (separator depth) (List.map (member depth) (kv :: props))
            ++ String newline (indentation depth) ++ "}").
  rewrite !append_assoc. done.
Qed.

Lemma join_map_cons {A} sep (f : A → string) a b l :
  join sep (List.map f (a :: b :: l)) = f a ++ sep ++ join sep (List.map f (b :: l)).
Proof. done. Qed.

Lemma join_map_one {A} sep (f : A → string) a : join sep (List.map f [a]) = f a.
Proof. done. Qed.

Lemma separator_append depth s :
  separator depth ++ s = String "," (String newline (indentation (S depth) ++ s)).
Proof. done. Qed.

Lemma separator_length depth : (2 ≤ String.length (separator depth))%nat.
Proof. unfold separator. simpl. lia. Qed.

#[local] Arguments String.append : simpl never.

Lemma parse_elements_join items :
  items ≠ [] → Forall round_trips items →
  ∀ depth fuel rest,
    (String.length (join (separator depth) (List.map (serialize (S depth)) items)) < fuel)%nat →
    parse_elements fuel
      (join (separator depth) (List.map (serialize (S depth)) items)
       ++ String newline (indentation depth ++ String "]" rest))
    = Some (items, rest).
Proof.
  intros Hne Hall depth. induction Hall as [|x items Hx Hall IH]; [done|].
  intros fuel rest Hfuel. destruct fuel as [|fuel]; [lia|].
  destruct items as [|y items].
  - rewrite join_map_one in Hfuel |- *.
    simpl parse_elements. rewrite Hx; [|lia|done].
    rewrite skip_ws_newline_indentation. done.
  - rewrite join_map_cons in Hfuel |- *.
    rewrite !length_append in Hfuel. rewrite !append_assoc.
    simpl parse_elements. rewrite Hx; [|lia|done].
    rewrite separator_append. simpl.
    rewrite <- parse_elements_skip_ws, skip_ws_newline_indentation, parse_elements_skip_ws.
    rewrite IH; [done|done|]. pose proof (separator_length depth). lia.
Qed.

Lemma member_append depth kv tail :
  ∃ r, member depth kv ++ tail = String dquote r
     ∧ parse_chars r
       = Some (fst kv, String ":" (String " " (serialize (S depth) (snd kv) ++ tail))).
Proof.
  unfold member. rewrite !append_assoc.
  destruct (parse_chars_quote (fst kv) (": " ++ serialize (S depth) (snd kv) ++ tail))
    as (r & H1 & H2).
  by exists r.
Qed.

Lemma member_length depth kv :
  (String.length (serialize (S depth) (snd kv)) < String.length (member depth kv))%nat.
Proof.
  unfold member, quote. rewrite !length_append.
  change (String.length ": ") with 2%nat. lia.
Qed.

Lemma parse_members_join props :
  props ≠ [] → Forall (fun kv => round_trips (snd kv)) props →
  ∀ depth fuel rest,
    (String.length (join (separator depth) (List.map (member depth) props)) < fuel)%nat →
    parse_members fuel
      (join (separator depth) (List.map (member depth) props)
       ++ String newline (indentation depth ++ String "}" rest))
    = Some (props, rest).
Proof.
  intros Hne Hall depth. induction Hall as [|[k v] props Hkv Hall IH]; [done|].
  intros fuel rest Hfuel. destruct fuel as [|fuel]; [lia|].
  pose proof (member_length depth (k, v)) as Hlen.
  change (round_trips v) in Hkv.
  change (String.length (serialize (S depth) v) < String.length (member depth (k, v)))%nat
    in Hlen.
  destruct props as [|kv' props].
  - rewrite join_map_one in Hfuel |- *.
    destruct (member_append depth (k, v)
                (String newline (indentation depth ++ String "}" rest)))
      as (r & -> & Hr).
    simpl. rewrite Hr. simpl.
    rewrite <- parse_value_skip_ws. simpl skip_ws. rewrite parse_value_skip_ws.
    rewrite Hkv; [|lia|done].
    rewrite skip_ws_newline_indentation. done.
  - rewrite join_map_cons in Hfuel |- *.
    rewrite !length_append in Hfuel. rewrite !append_assoc.
    destruct (member_append depth (k, v)
                (separator depth
                 ++ join (separator depth) (List.map (member depth) (kv' :: props))
                 ++ String newline (indentation depth ++ String "}" rest)))
      as (r & -> & Hr).
    simpl. rewrite Hr. simpl.
    rewrite <- parse_value_skip_ws. simpl skip_ws. rewrite parse_value_skip_ws.
    rewrite Hkv; [|lia|done].
    rewrite separator_append. simpl.
    rewrite <- parse_members_skip_ws, skip_ws_newline_indentation, parse_members_skip_ws.
    rewrite IH; [done|done|]. pose proof (separator_length depth). lia.
Qed.

(** *** Objects with distinct keys *)

Lemma set_fresh k v props :
  k ∉ List.map fst props → set k v props = (props ++ [(k, v)])%list.
Proof.
  induction props as [|[k' v'] props IH]; simpl; intros Hk; [done|].
  apply not_elem_of_cons in Hk as [Hne Hk].
  destruct (String.eqb_spec k' k); [congruence|]. by rewrite IH.
Qed.

Lemma fold_set_NoDup members acc :
  NoDup (List.map fst (acc ++ members)%list) →
  fold_left (fun o kv => set (fst kv) (snd kv) o) members acc = (acc ++ members)%list.
Proof.
  revert acc. induction members as [|[k v] members IH]; intros acc Hnd; simpl.
  - by rewrite app_nil_r.
  - rewrite set_fresh.
    + rewrite IH; rewrite <- app_assoc; done.
    + rewrite List.map_app in Hnd. apply NoDup_app in Hnd as (_ & Hnd & _).
      intros Hin. apply (Hnd k Hin). simpl. left.
Qed.

Lemma object_of_NoDup props : NoDup (List.map fst props) → object_of props = props.
Proof. intros H. unfold object_of. by rewrite fold_set_NoDup. Qed.

(** *** Every canonical value reads back *)

Lemma append_String c a b : String c a ++ b = String c (a ++ b).
Proof. done. Qed.

Lemma serialize_length_pos depth v : (1 ≤ String.length (serialize depth v))%nat.
Proof. destruct (serialize_head depth v) as (c & r & -> & _). simpl. lia. Qed.

Lemma join_head {A} sep (f : A → string) x l tail :
  (∀ y, ∃ c r, f y = String c r ∧ is_ws c = false ∧ Ascii.eqb c "]" = false) →
  ∃ c r, join sep (List.map f (x :: l)) ++ tail = String c r
       ∧ is_ws c = false ∧ Ascii.eqb c "]" = false.
Proof.
  intros Hf. destruct (Hf x) as (c & r & Hx & Hws & Hc).
  destruct l as [|y l].
  - rewrite join_map_one, Hx, append_String. by eexists _, _.
  - rewrite join_map_cons, Hx, !append_String. by eexists _, _.
Qed.

Lemma length_String c s : String.length (String c s) = S (String.length s).
Proof. done. Qed.

Lemma parse_value_number fuel c r :
  is_ws c = false → (is_digit c || Ascii.eqb c "-") = true →
  parse_value (S fuel) (String c r) = parse_number (String c r).
Proof. intros Hws Hd. cbn [parse_value skip_ws]. by rewrite Hws, Hd. Qed.

Lemma parse_value_array fuel s :
  parse_value (S fuel) (String "[" s)
  = match skip_ws s with
    | String c' r' =>
        if Ascii.eqb c' "]" then Some (JArray [], r')
        else
          match parse_elements fuel (String c' r') with
          | Some (items, r'') => Some (JArray items, r'')
          | None => None
          end
    | EmptyString => None
    end.
Proof. done. Qed.

Lemma parse_value_object fuel s :
  parse_value (S fuel) (String "{" s)
  = match skip_ws s with
    | String c' r' =>
        if Ascii.eqb c' "}" then Some (JObject [], r')
        else
          match parse_members fuel (String c' r') with
          | Some (members, r'') => Some (JObject (object_of members), r'')
          | None => None
          end
    | EmptyString => None
    end.
Proof. done. Qed.

Lemma array_round_trips items : Forall round_trips items → round_trips (JArray items).
Proof.
  intros Hall depth fuel rest Hfuel Hrest.
  pose proof (serialize_length_pos depth (JArray items)).
  destruct fuel as [|fuel]; [lia|].
  destruct items as [|x items]; [done|].
  pose proof (f_equal String.length (serialize_array depth x items "")) as Hlen.
  rewrite append_nil_r in Hlen.
  rewrite !length_String, !length_append, !length_String in Hlen.
  rewrite serialize_array, parse_value_array, skip_ws_newline_indentation.
  destruct (join_head (separator depth) (serialize (S depth)) x items
              (String newline (indentation depth ++ String "]" rest))
              (serialize_head (S depth)))
    as (c & r & Hjoin & Hws & Hc).
  pose proof (parse_elements_join (x :: items) ltac:(done) Hall depth fuel rest) as Hp.
  rewrite Hjoin in Hp |- *. rewrite skip_ws_head by done. rewrite Hc.
  rewrite Hp; [done|lia].
Qed.

Lemma object_round_trips props :
  NoDup (List.map fst props) → Forall (fun kv => round_trips (snd kv)) props →
  round_trips (JObject props).
Proof.
  intros Hnd Hall depth fuel rest Hfuel Hrest.
  pose proof (serialize_length_pos depth (JObject props)).
  destruct fuel as [|fuel]; [lia|].
  destruct props as [|kv props]; [done|].
  pose proof (f_equal String.length (serialize_object depth kv props "")) as Hlen.
  rewrite append_nil_r in Hlen.
  rewrite !length_String, !length_append, !length_String in Hlen.
  rewrite serialize_object, parse_value_object, skip_ws_newline_indentation.
  pose proof (parse_members_join (kv :: props) ltac:(done) Hall depth fuel rest) as Hp.
  destruct props as [|kv' props].
  - rewrite join_map_one in Hp, Hlen |- *.
    destruct (member_append depth kv
                (String newline (indentation depth ++ String "}" rest)))
      as (r & Hr & _).
    rewrite Hr in Hp |- *. rewrite skip_ws_head by done. simpl.
    rewrite Hp; [|lia]. by rewrite object_of_NoDup.
  - rewrite join_map_cons in Hp, Hlen |- *.
    rewrite !append_assoc in Hp |- *.
    destruct (member_append depth kv
                (separator depth
                 ++ join (separator depth) (List.map (member depth) (kv' :: props))
                 ++ String newline (indentation depth ++ String "}" rest)))
      as (r & Hr & _).
    rewrite Hr in Hp |- *. rewrite skip_ws_head by done. simpl.
    rewrite Hp; [|lia]. by rewrite object_of_NoDup.
Qed.

Theorem serialize_round_trips v : canonical v → round_trips v.
Proof.
  induction v as [|b|n|x|s|items IH|props IH] using json_ind'; intros Hv.
  - intros depth [|fuel] rest Hfuel Hrest; [simpl in Hfuel; lia|done].
  - intros depth [|fuel] rest Hfuel Hrest; [destruct b; simpl in Hfuel; lia|by destruct b].
  - intros depth fuel rest Hfuel Hrest.
    pose proof (serialize_length_pos depth (JNumber n)).
    destruct fuel as [|fuel]; [lia|].
    change (serialize depth (JNumber n)) with (JS.string_of_Z n).
    pose proof (parse_number_string_of_Z n rest Hrest) as Hp.
    destruct (string_of_Z_head n) as (c & r & Hc & Hws & Hd).
    rewrite Hc, append_String in Hp |- *.
    rewrite parse_value_number by done. by rewrite Hp.
  - inversion Hv.
  - intros depth fuel rest Hfuel Hrest.
    pose proof (serialize_length_pos depth (JString s)).
    destruct fuel as [|fuel]; [lia|].
    change (serialize depth (JString s)) with (quote s).
    destruct (parse_chars_quote s rest) as (r & -> & Hr).
    simpl. by rewrite Hr.
  - inversion Hv as [| | | |? Hitems|]; subst.
    apply array_round_trips.
    apply Forall_forall. intros x Hx.
    rewrite Forall_forall in IH, Hitems. auto.
  - inversion Hv as [| | | | |? Hnd Hprops]; subst.
    apply object_round_trips; [done|].
    apply Forall_forall. intros kv Hkv.
    rewrite Forall_forall in IH, Hprops. auto.
Qed.

(** [JSON.parse(JSON.stringify(v, null, 2))] is [v]. *)
Theorem parse_stringify v : canonical v → parse (stringify v) = Some v.
Proof.
  intros Hv. unfold parse, stringify.
  pose proof (serialize_round_trips v Hv 0%nat
                (2 * String.length (serialize 0 v) + 1)%nat "" ltac:(lia) I) as Hp.
  rewrite append_nil_r in Hp. by rewrite Hp.
Qed.

(** *** The fuel of [parse] is enough *)

Lemma skip_ws_length s : (String.length (skip_ws s) ≤ String.length s)%nat.
Proof. induction s as [|c s IH]; simpl; [done|]. destruct (is_ws c); simpl; lia. Qed.

Lemma strip_length p s r : strip p s = Some r → (String.length r ≤ String.length s)%nat.
Proof.
  revert s. induction p as [|a p IH]; intros s; simpl.
  - by intros [= ->].
  - destruct s as [|b s]; [done|].
    destruct (Ascii.eqb a b); [|done]. intros H. apply IH in H. simpl. lia.
Qed.

Lemma read_digits_length s d r :
  read_digits s = (d, r) → (String.length r + nb_digits d = String.length s)%nat.
Proof.
  revert d r. induction s as [|c s IH]; simpl; intros d r.
  - by intros [= <- <-].
  - destruct (digit_of c) as [k|] eqn:Ek; [|by intros [= <- <-]].
    destruct (read_digits s) as [ds r'] eqn:E. intros [= <- <-].
    specialize (IH ds r' eq_refl).
    unfold digit_of in Ek.
    destruct c as [[] [] [] [] [] [] [] []]; vm_compute in Ek; simplify_eq; simpl; lia.
Qed.

Lemma parse_nat_length s n r :
  parse_nat s = Some (n, r) → (String.length r < String.length s)%nat.
Proof.
  unfold parse_nat. destruct (read_digits s) as [d r'] eqn:E.
  apply read_digits_length in E.
  destruct d as [|d|d|d|d|d|d|d|d|d|d]; try done;
    try (intros [= <- <-]; simpl in E; lia).
  destruct d; try done. intros [= <- <-]. simpl in E. lia.
Qed.

Lemma parse_digits_length s d r :
  parse_digits s = Some (d, r) → (String.length r ≤ String.length s)%nat.
Proof.
  unfold parse_digits. destruct (read_digits s) as [ds r'] eqn:E.
  apply read_digits_length in E.
  destruct ds; [done|..]; intros [= <- <-]; lia.
Qed.

Lemma parse_fraction_length s f r :
  parse_fraction s = Some (f, r) → (String.length r ≤ String.length s)%nat.
Proof.
  unfold parse_fraction. destruct s as [|c s]; [by intros [= <- <-]|].
  destruct (Ascii.eqb c "."); [|by intros [= <- <-]].
  destruct (parse_digits s) as [[ds r']|] eqn:E; [|done].
  intros [= <- <-]. apply parse_digits_length in E. simpl. lia.
Qed.

Lemma parse_sign_length s b r :
  parse_sign s = (b, r) → (String.length r ≤ String.length s)%nat.
Proof.
  unfold parse_sign. destruct s as [|c s]; [by intros [= <- <-]|].
  destruct (Ascii.eqb c "-"); [intros [= <- <-]; simpl; lia|].
  destruct (Ascii.eqb c "+"); intros [= <- <-]; simpl; lia.
Qed.

Lemma parse_exponent_length s e r :
  parse_exponent s = Some (e, r) → (String.length r ≤ String.length s)%nat.
Proof.
  unfold parse_exponent. destruct s as [|c s]; [by intros [= <- <-]|].
  destruct (_ || _); [|by intros [= <- <-]].
  destruct (parse_sign s) as [b s'] eqn:Es. apply parse_sign_length in Es.
  destruct (parse_digits s') as [[ds r']|] eqn:E; [|done].
  intros [= <- <-]. apply parse_digits_length in E. simpl. lia.
Qed.

Lemma parse_number_length s v r :
  parse_number s = Some (v, r) → (String.length r < String.length s)%nat.
Proof.
  unfold parse_number.
  assert (∀ s1, (String.length s1 ≤ String.length s)%nat →
            match parse_nat s1 with
            | Some (int, r1) =>
                match parse_fraction r1 with
                | Some (frac, r2) =>
                    match parse_exponent r2 with
                    | Some (exp, r3) => (String.length r3 < String.length s)%nat
                    | None => True
                    end
                | None => True
                end
            | None => True
            end) as Hparts.
  { intros s1 Hs1.
    destruct (parse_nat s1) as [[int r1]|] eqn:E1; [|done].
    destruct (parse_fraction r1) as [[frac r2]|] eqn:E2; [|done].
    destruct (parse_exponent r2) as [[exp r3]|] eqn:E3; [|done].
    apply parse_nat_length in E1. apply parse_fraction_length in E2.
    apply parse_exponent_length in E3. lia. }
  destruct s as [|c s].
  - specialize (Hparts "" ltac:(done)).
    destruct (parse_nat "") as [[int r1]|]; [|done].
    destruct (parse_fraction r1) as [[frac r2]|]; [|done].
    destruct (parse_exponent r2) as [[exp r3]|]; [|done].
    by intros [= <- <-].
  - destruct (Ascii.eqb c "-").
    + specialize (Hparts s ltac:(simpl; lia)).
      destruct (parse_nat s) as [[int r1]|]; [|done].
      destruct (parse_fraction r1) as [[frac r2]|]; [|done].
      destruct (parse_exponent r2) as [[exp r3]|]; [|done].
      by intros [= <- <-].
    + specialize (Hparts (String c s) ltac:(done)).
      destruct (parse_nat (String c s)) as [[int r1]|]; [|done].
      destruct (parse_fraction r1) as [[frac r2]|]; [|done].
      destruct (parse_exponent r2) as [[exp r3]|]; [|done].
      by intros [= <- <-].
Qed.

Lemma prepend_Some p x str r :
  prepend p x = Some (str, r) → ∃ str', x = Some (str', r).
Proof. destruct x as [[str' r']|]; simpl; [|done]. intros [= <- <-]. by eexists. Qed.

Lemma parse_chars_length s str r :
  parse_chars s = Some (str, r) → (String.length r < String.length s)%nat.
Proof.
  remember (String.length s) as n eqn:Hn. revert s str r Hn.
  induction (lt_wf n) as [n _ IH]. intros s str r -> H.
  destruct s as [|c s]; [done|]. simpl in H.
  destruct (Ascii.eqb c dquote); [injection H as <- <-; simpl; lia|].
  destruct (Ascii.eqb c backslash).
  - destruct s as [|e s]; [done|].
    repeat match type of H with
    | (if ?b then _ else _) = _ => destruct b
    end;
    try (apply prepend_Some in H as [str' H];
         eapply IH in H; [| |reflexivity]; simpl in *; lia).
    + destruct s as [|h1 [|h2 [|h3 [|h4 s]]]]; try done.
      destruct (hex4 h1 h2 h3 h4) as [n|]; [|done].
      assert (∀ p, prepend p (parse_chars s) = Some (str, r) →
                (String.length r < String.length s)%nat) as Hone.
      { intros p Hp. apply prepend_Some in Hp as [str' Hp].
        eapply IH in Hp; [| |reflexivity]; simpl in *; lia. }
      destruct (high_surrogate n); [|apply Hone in H; simpl; lia].
      destruct s as [|b [|u [|l1 [|l2 [|l3 [|l4 r3]]]]]];
        try (apply Hone in H; simpl in *; lia).
      destruct (Ascii.eqb b backslash && Ascii.eqb u "u");
        [|apply Hone in H; simpl in *; lia].
      destruct (hex4 l1 l2 l3 l4) as [low|]; [|apply Hone in H; simpl in *; lia].
      destruct (low_surrogate low); [|apply Hone in H; simpl in *; lia].
      apply prepend_Some in H as [str' H].
      eapply IH in H; [| |reflexivity]; simpl in *; lia.
    + done.
  - destruct (N_of_ascii c <? 32)%N; [done|].
    apply prepend_Some in H as [str' H].
    eapply IH in H; [| |reflexivity]; simpl in *; lia.
Qed.

(** Turns what is known of the parts of a parse into inequalities between
    the lengths of the texts. *)
Ltac lengths IHv IHe IHm :=
  repeat match goal with
  | H : parse_number _ = Some _ |- _ => apply parse_number_length in H
  | H : parse_chars _ = Some _ |- _ => apply parse_chars_length in H
  | H : strip _ _ = Some _ |- _ => apply strip_length in H
  | H : parse_value _ _ = Some _ |- _ => apply IHv in H
  | H : parse_elements _ _ = Some _ |- _ => apply IHe in H
  | H : parse_members _ _ = Some _ |- _ => apply IHm in H
  | H : skip_ws ?s = _ |- _ =>
      let L := fresh "L" in
      pose proof (skip_ws_length s) as L; rewrite H in L; clear H
  end;
  simpl in *; try lia.

Lemma parse_consumes fuel :
  (∀ s v r, parse_value fuel s = Some (v, r) → (String.length r < String.length s)%nat)
  ∧ (∀ s vs r, parse_elements fuel s = Some (vs, r) →
       (String.length r < String.length s)%nat)
  ∧ (∀ s ms r, parse_members fuel s = Some (ms, r) →
       (String.length r < String.length s)%nat).
Proof.
  induction fuel as [|fuel (IHv & IHe & IHm)]; [done|].
  split_and!; intros s x r H;
    cbn [parse_value parse_elements parse_members] in H;
    repeat (case_match; try discriminate H); simplify_eq;
    lengths IHv IHe IHm.
Qed.

(** Adds, for every part of a parse that is known, the inequality between
    the lengths of its texts, and keeps the equations. *)
Ltac learn_lengths fuel :=
  repeat match goal with
  | H : parse_value fuel ?s = Some (_, ?r) |- _ =>
      generalize (proj1 (parse_consumes fuel) _ _ _ H); revert H
  | H : parse_chars ?s = Some (_, ?r) |- _ =>
      generalize (parse_chars_length _ _ _ H); revert H
  | H : skip_ws ?s = ?t |- _ =>
      let L := fresh "L" in
      pose proof (skip_ws_length s) as L; rewrite H in L; revert L; revert H
  end;
  intros; cbn [String.length] in *.

Lemma parse_fuel f1 :
  (∀ f2 s res, parse_value f1 s = Some res →
     (2 * String.length s + 1 ≤ f2)%nat → parse_value f2 s = Some res)
  ∧ (∀ f2 s res, parse_elements f1 s = Some res →
       (2 * String.length s + 2 ≤ f2)%nat → parse_elements f2 s = Some res)
  ∧ (∀ f2 s res, parse_members f1 s = Some res →
       (2 * String.length s + 2 ≤ f2)%nat → parse_members f2 s = Some res).
Proof.
  induction f1 as [|f1 (IHv & IHe & IHm)]; [done|].
  split_and!; intros [|f2] s res H Hf2; try lia;
    cbn [parse_value parse_elements parse_members] in H |- *;
    repeat match type of H with
    | context [match ?x with _ => _ end] => destruct x eqn:?; try discriminate H
    end;
    simplify_eq; learn_lengths f1;
    repeat match goal with
    | E : parse_value f1 ?t = Some ?r |- context [parse_value ?f ?t] =>
        rewrite (IHv f t r E) by (cbn [String.length]; lia)
    | E : parse_elements f1 ?t = Some ?r |- context [parse_elements ?f ?t] =>
        rewrite (IHe f t r E) by (cbn [String.length]; lia)
    | E : parse_members f1 ?t = Some ?r |- context [parse_members ?f ?t] =>
        rewrite (IHm f t r E) by (cbn [String.length]; lia)
    | E : ?x = _ |- context [match ?x with _ => _ end] => rewrite E
    end;
    done.
Qed.

(** [parse] returns the value that [parse_value] reads from the whole text
    with any fuel at all: no [None] of [parse] stands for fuel that ran
    out. *)
Theorem parse_value_fuel text v :
  parse text = Some v
  ↔ ∃ fuel r, parse_value fuel text = Some (v, r) ∧ skip_ws r = "".
Proof.
  unfold parse. split.
  - destruct (parse_value _ text) as [[v' r]|] eqn:E; [|done].
    destruct (skip_ws r) eqn:Er; [|done]. intros [= ->]. by eexists _, _.
  - intros (fuel & r & Hp & Hr).
    rewrite (proj1 (parse_fuel fuel) _ text (v, r) Hp) by lia. by rewrite Hr.
Qed.

(** *** The text without indentation *)

#[local] Arguments compact : simpl never.

Lemma compact_head v :
  ∃ c r, compact v = String c r ∧ is_ws c = false ∧ Ascii.eqb c "]" = false.
Proof.
  destruct v as [|[]|n|x|s|items|props]; try (by eexists _, _).
  - destruct (string_of_Z_head n) as (c & r & Hc & Hws & Hd).
    exists c, r. split_and!; [done..|].
    destruct c as [[] [] [] [] [] [] [] []]; done.
  - apply serialize_double_head.
Qed.

Lemma compact_length_pos v : (1 ≤ String.length (compact v))%nat.
Proof. destruct (compact_head v) as (c & r & -> & _). simpl. lia. Qed.

Lemma compact_array items rest :
  compact (JArray items) ++ rest
  = String "[" (join "," (List.map compact items) ++ String "]" rest).
Proof.
  change (compact (JArray items))
    with (String "[" (join "," (List.map compact items)) ++ "]").
  rewrite !append_String, append_assoc. done.
Qed.

Lemma compact_object props rest :
  compact (JObject props) ++ rest
  = String "{" (join "," (List.map compact_member props) ++ String "}" rest).
Proof.
  change (compact (JObject props))
    with (String "{" (join "," (List.map compact_member props)) ++ "}").
  rewrite !append_String, append_assoc. done.
Qed.

Lemma parse_elements_compact items :
  items ≠ [] → Forall compact_round_trips items →
  ∀ fuel rest,
    (String.length (join "," (List.map compact items)) < fuel)%nat →
    parse_elements fuel (join "," (List.map compact items) ++ String "]" rest)
    = Some (items, rest).
Proof.
  intros Hne Hall. induction Hall as [|x items Hx Hall IH]; [done|].
  intros fuel rest Hfuel. destruct fuel as [|fuel]; [lia|].
  destruct items as [|y items].
  - rewrite join_map_one in Hfuel |- *.
    simpl parse_elements. rewrite Hx; [|lia|done]. done.
  - rewrite join_map_cons in Hfuel |- *.
    rewrite !length_append in Hfuel. rewrite !append_assoc.
    simpl parse_elements. rewrite Hx; [|lia|done].
    change ("," ++ ?s) with (String "," s). cbn [skip_ws is_ws Ascii.eqb orb].
    simpl.
    rewrite IH; [done|done|]. change (String.length ",") with 1%nat in Hfuel. lia.
Qed.

Lemma compact_member_append kv tail :
  ∃ r, compact_member kv ++ tail = String dquote r
     ∧ parse_chars r = Some (fst kv, String ":" (compact (snd kv) ++ tail)).
Proof.
  unfold compact_member. rewrite !append_assoc.
  destruct (parse_chars_quote (fst kv) (":" ++ compact (snd kv) ++ tail))
    as (r & H1 & H2).
  by exists r.
Qed.

Lemma compact_member_length kv :
  (String.length (compact (snd kv)) < String.length (compact_member kv))%nat.
Proof.
  unfold compact_member, quote. rewrite !length_append.
  change (String.length ":") with 1%nat. lia.
Qed.

Lemma parse_members_compact props :
  props ≠ [] → Forall (fun kv => compact_round_trips (snd kv)) props →
  ∀ fuel rest,
    (String.length (join "," (List.map compact_member props)) < fuel)%nat →
    parse_members fuel (join "," (List.map compact_member props) ++ String "}" rest)
    = Some (props, rest).
Proof.
  intros Hne Hall. induction Hall as [|[k v] props Hkv Hall IH]; [done|].
  intros fuel rest Hfuel. destruct fuel as [|fuel]; [lia|].
  pose proof (compact_member_length (k, v)) as Hlen.
  change (compact_round_trips v) in Hkv.
  change (String.length (compact v) < String.length (compact_member (k, v)))%nat in Hlen.
  destruct props as [|kv' props].
  - rewrite join_map_one in Hfuel |- *.
    destruct (compact_member_append (k, v) (String "}" rest)) as (r & -> & Hr).
    simpl. rewrite Hr. simpl.
    rewrite Hkv; [|lia|done]. done.
  - rewrite join_map_cons in Hfuel |- *.
    rewrite !length_append in Hfuel. rewrite !append_assoc.
    destruct (compact_member_append (k, v)
                ("," ++ join "," (List.map compact_member (kv' :: props))
                 ++ String "}" rest))
      as (r & -> & Hr).
    simpl. rewrite Hr. simpl.
    rewrite Hkv; [|lia|done].
    change ("," ++ ?s) with (String "," s). simpl.
    rewrite IH; [done|done|]. change (String.length ",") with 1%nat in Hfuel. lia.
Qed.

Lemma array_compact_round_trips items :
  Forall compact_round_trips items → compact_round_trips (JArray items).
Proof.
  intros Hall fuel rest Hfuel Hrest.
  pose proof (compact_length_pos (JArray items)).
  destruct fuel as [|fuel]; [lia|].
  pose proof (f_equal String.length (compact_array items "")) as Hlen.
  rewrite append_nil_r in Hlen.
  rewrite !length_String, !length_append, !length_String in Hlen.
  rewrite compact_array, parse_value_array.
  destruct items as [|x items]; [done|].
  destruct (join_head "," compact x items (String "]" rest) compact_head)
    as (c & r & Hjoin & Hws & Hc).
  pose proof (parse_elements_compact (x :: items) ltac:(done) Hall fuel rest) as Hp.
  rewrite Hjoin in Hp |- *. rewrite skip_ws_head by done. rewrite Hc.
  rewrite Hp; [done|lia].
Qed.

Lemma object_compact_round_trips props :
  NoDup (List.map fst props) → Forall (fun kv => compact_round_trips (snd kv)) props →
  compact_round_trips (JObject props).
Proof.
  intros Hnd Hall fuel rest Hfuel Hrest.
  pose proof (compact_length_pos (JObject props)).
  destruct fuel as [|fuel]; [lia|].
  pose proof (f_equal String.length (compact_object props "")) as Hlen.
  rewrite append_nil_r in Hlen.
  rewrite !length_String, !length_append, !length_String in Hlen.
  rewrite compact_object, parse_value_object.
  destruct props as [|kv props]; [done|].
  pose proof (parse_members_compact (kv :: props) ltac:(done) Hall fuel rest) as Hp.
  destruct props as [|kv' props].
  - rewrite join_map_one in Hp, Hlen |- *.
    destruct (compact_member_append kv (String "}" rest)) as (r & Hr & _).
    rewrite Hr in Hp |- *. rewrite skip_ws_head by done. simpl.
    rewrite Hp; [|lia]. by rewrite object_of_NoDup.
  - rewrite join_map_cons in Hp, Hlen |- *.
    rewrite !append_assoc in Hp |- *.
    destruct (compact_member_append kv
                ("," ++ join "," (List.map compact_member (kv' :: props))
                 ++ String "}" rest))
      as (r & Hr & _).
    rewrite Hr in Hp |- *. rewrite skip_ws_head by done. simpl.
    rewrite Hp; [|lia]. by rewrite object_of_NoDup.
Qed.

Theorem compact_reads_back v : canonical v → compact_round_trips v.
Proof.
  induction v as [|b|n|x|s|items IH|props IH] using json_ind'; intros Hv.
  - intros [|fuel] rest Hfuel Hrest; [simpl in Hfuel; lia|done].
  - intros [|fuel] rest Hfuel Hrest; [destruct b; simpl in Hfuel; lia|by destruct b].
  - intros fuel rest Hfuel Hrest.
    pose proof (compact_length_pos (JNumber n)).
    destruct fuel as [|fuel]; [lia|].
    change (compact (JNumber n)) with (JS.string_of_Z n).
    pose proof (parse_number_string_of_Z n rest Hrest) as Hp.
    destruct (string_of_Z_head n) as (c & r & Hc & Hws & Hd).
    rewrite Hc, append_String in Hp |- *.
    rewrite parse_value_number by done. by rewrite Hp.
  - inversion Hv.
  - intros fuel rest Hfuel Hrest.
    pose proof (compact_length_pos (JString s)).
    destruct fuel as [|fuel]; [lia|].
    change (compact (JString s)) with (quote s).
    destruct (parse_chars_quote s rest) as (r & -> & Hr).
    simpl. by rewrite Hr.
  - inversion Hv as [| | | |? Hitems|]; subst.
    apply array_compact_round_trips.
    apply Forall_forall. intros x Hx.
    rewrite Forall_forall in IH, Hitems. auto.
  - inversion Hv as [| | | | |? Hnd Hprops]; subst.
    apply object_compact_round_trips; [done|].
    apply Forall_forall. intros kv Hkv.
    rewrite Forall_forall in IH, Hprops. auto.
Qed.

(** [JSON.parse(JSON.stringify(v))] is [v]. *)
Theorem parse_compact v : canonical v → parse (compact v) = Some v.
Proof.
  intros Hv. unfold parse.
  pose proof (compact_reads_back v Hv
                (2 * String.length (compact v) + 1)%nat "" ltac:(lia) I) as Hp.
  rewrite append_nil_r in Hp. by rewrite Hp.
Qed.

Lemma compact_not_empty v : compact v ≠ "".
Proof. destruct (compact_head v) as (c & r & -> & _). done. Qed.

(** *** Numbers and escapes as [JSON.parse] reads them *)

(** A fraction and an exponent are read to the nearest double: 0.5 and 2.5
    are doubles, -0.1 and 1e-7 are not and are rounded, 3.14e2 is the
    integer 314, 1e400 is beyond every double, -0 is a zero. *)
Example parse_numbers :
  parse Sample.numbers
  = Some (JArray
            [ JDouble (Finite false 4503599627370496 (-53));
              JDouble (Finite true 7205759403792794 (-56));
              JNumber 314;
              JDouble (Finite false 5629499534213120 (-51));
              JDouble (Finite false 7555786372591432 (-76));
              JDouble (Infinity false);
              JNumber 0;
              JNumber 9007199254740993 ]).
Proof. vm_compute. reflexivity. Qed.

(** [JSON.stringify] writes them with the fewest digits that read back. *)
Example numbers_written :
  compact <$> parse Sample.numbers
  = Some "[0.5,-0.1,314,2.5,1e-7,null,0,9007199254740993]".
Proof. vm_compute. reflexivity. Qed.

Example parse_no_numbers : Forall (fun text => parse text = None) Sample.no_numbers.
Proof. repeat constructor. Qed.

(** The two escapes of a surrogate pair are the four bytes of U+1F600; a
    high surrogate that stands alone is kept as it is. *)
Example parse_paired :
  parse Sample.paired
  = Some (JString (String "240" (String "159" (String "152" (String "128" ""))))).
Proof. vm_compute. reflexivity. Qed.

Example parse_unpaired :
  parse Sample.unpaired
  = Some (JString (String "237" (String "160" (String "189" "A")))).
Proof. vm_compute. reflexivity. Qed.

End JsonProperties.

(** ** Backup and restore *)

Module BackupProperties.
Import Json Media Backup.

(** Closes [basic_validation item = inr true ↔ ...] once every property
    read and every truth value is known. *)
Ltac validation_case :=
  split;
  [ intros H; first
      [ discriminate H
      | split_and!; eexists; (split; [reflexivity|assumption]) ]
  | intros ((x1 & H1 & T1) & (x2 & H2 & T2) & (x3 & H3 & T3));
    simplify_eq; congruence ].

(** *** The validation of restore *)

(** What [ToBoolean] takes for true is what is not empty. *)
Lemma truthy_empty v : truthy v = true ↔ ¬ empty v.
Proof.
  unfold empty. destruct v as [|[]|n|x|s|items|props]; simpl.
  - split; [done|]. intros H. destruct H. by left.
  - split; [|done]. intros _ [H|[H|[H|H]]]; discriminate.
  - split; [done|]. intros H. destruct H. by right; left.
  - rewrite negb_true_iff, Z.eqb_neq. split.
    + intros Hn [H|[H|[H|H]]]; congruence.
    + intros H ->. apply H. by right; right; left.
  - split; [|done]. intros _ [H|[H|[H|H]]]; discriminate.
  - rewrite negb_true_iff, String.eqb_neq. split.
    + intros Hn [H|[H|[H|H]]]; congruence.
    + intros H ->. apply H. by right; right; right.
  - split; [|done]. intros _ [H|[H|[H|H]]]; discriminate.
  - split; [|done]. intros _ [H|[H|[H|H]]]; discriminate.
Qed.

Lemma prop_truthy item k :
  (∃ x, prop item k = inr x ∧ truthy_opt x = true) ↔ non_empty_field k item.
Proof.
  unfold non_empty_field. split.
  - intros (x & Hp & Hx). destruct item; simplify_eq/=.
    destruct (get k props) as [v|] eqn:E; [|done].
    exists props, v. by rewrite <- truthy_empty.
  - intros (props & v & -> & Hget & Hv). exists (Some v). simpl.
    rewrite Hget. by rewrite truthy_empty.
Qed.

Lemma basic_validation_true item :
  basic_validation item = inr true ↔ valid_element item.
Proof.
  unfold valid_element. rewrite <- !prop_truthy. unfold basic_validation.
  destruct (prop item "id") as [e|i]; [validation_case|].
  destruct (truthy_opt i) eqn:Ei; [|validation_case].
  destruct (prop item "name") as [e|n]; [validation_case|].
  destruct (truthy_opt n) eqn:En; [|validation_case].
  destruct (prop item "dataUrl") as [e|d]; [validation_case|].
  destruct (truthy_opt d) eqn:Ed; validation_case.
Qed.

Lemma every_true items :
  every basic_validation items = inr true ↔ Forall valid_element items.
Proof.
  induction items as [|item items IH]; simpl.
  - split; [by constructor|done].
  - rewrite Forall_cons, <- IH, <- basic_validation_true.
    destruct (basic_validation item) as [e|[]]; split; try done;
      intros [? ?]; done.
Qed.

Lemma restore_try_inr text items :
  restore_try text = inr items ↔ valid_backup text items.
Proof.
  unfold restore_try, valid_backup. rewrite <- every_true.
  destruct (parse text) as [[| | | | |items'|]|];
    try (split; [done|by intros [? _]]).
  destruct (every basic_validation items') as [e|[]] eqn:E.
  - split; [done|]. intros [[= <-] H]. congruence.
  - split; [by intros [= <-]|]. by intros [[= <-] _].
  - split; [done|]. intros [[= <-] H]. congruence.
Qed.

(** C2. Restore succeeds exactly on a text that parses to a sequence whose
    elements all have the fields id, name and dataUrl, none of them empty
    (null, false, 0 or the empty string); it then replaces the whole catalog
    by the parsed sequence. On every other text (one that does not parse, one
    that is not a sequence, one with an element that is not an object or that
    lacks one of the three fields, id in particular) it raises the
    InvalidBackupFormat toast and leaves the catalog as it was. The text is
    any JSON text: its numbers may have a fraction or an exponent, its
    strings any escape. *)
Theorem restore_validates text media :
  (∀ items, valid_backup text items →
     restoreData (Some text) media = (items, Some Restored))
  ∧ ((¬ ∃ items, valid_backup text items) →
     restoreData (Some text) media = (media, Some InvalidBackupFormat))
  ∧ (∀ items item,
       parse text = Some (JArray items) → item ∈ items →
       ¬ non_empty_field "id" item →
       restoreData (Some text) media = (media, Some InvalidBackupFormat)).
Proof.
  assert (Hbad : (¬ ∃ items, valid_backup text items) →
                 restoreData (Some text) media = (media, Some InvalidBackupFormat)).
  { intros Hno. unfold restoreData.
    destruct (restore_try text) as [e|items] eqn:E; [done|].
    exfalso. apply Hno. exists items. by apply restore_try_inr. }
  split_and!.
  - intros items Hvalid. apply restore_try_inr in Hvalid.
    unfold restoreData. by rewrite Hvalid.
  - exact Hbad.
  - intros items item Hparse Hin Hid. apply Hbad.
    intros (items' & Hparse' & Hall).
    rewrite Hparse in Hparse'. injection Hparse' as <-.
    rewrite Forall_forall in Hall. by destruct (Hall item Hin) as [? _].
Qed.

Lemma restore_validates_witness :
  (∃ items, restoreData (Some Sample.minimal_backup) [toJSON Sample.clip]
            = (items, Some Restored) ∧ length items = 1%nat)
  ∧ restoreData (Some Sample.backup_without_id) [toJSON Sample.clip]
    = ([toJSON Sample.clip], Some InvalidBackupFormat)
  ∧ restoreData (Some Sample.not_json) [toJSON Sample.clip]
    = ([toJSON Sample.clip], Some InvalidBackupFormat)
  ∧ restoreData (Some Sample.decimal_backup) [toJSON Sample.clip]
    = (Sample.decimal_items, Some Restored).
Proof.
  split_and!.
  - eexists. split.
    + apply (proj1 (restore_validates Sample.minimal_backup [toJSON Sample.clip])).
      split; [vm_compute; reflexivity|].
      repeat constructor; eexists _, _;
        (split_and!; [reflexivity|vm_compute; reflexivity|by apply truthy_empty]).
    + reflexivity.
  - eapply (proj2 (proj2 (restore_validates Sample.backup_without_id [toJSON Sample.clip]))).
    + vm_compute. reflexivity.
    + left.
    + intros (props & v & [= <-] & Hget & _). vm_compute in Hget. discriminate.
  - apply (proj1 (proj2 (restore_validates Sample.not_json [toJSON Sample.clip]))).
    intros (items & Hparse & _). vm_compute in Hparse. discriminate.
  - apply (proj1 (restore_validates Sample.decimal_backup [toJSON Sample.clip])).
    split; [vm_compute; reflexivity|].
    constructor; [|constructor].
    split_and!; eexists _, _;
      (split_and!; [reflexivity|reflexivity|by apply truthy_empty]).
Defined.

(** C10. A text that parses to the empty array passes the validation, no
    element being there to fail it, and restore replaces the catalog,
    whatever it held, by the empty catalog. *)
Theorem restore_empty_array text media :
  parse text = Some (JArray []) →
  every basic_validation [] = inr true
  ∧ restore_try text = inr []
  ∧ restoreData (Some text) media = ([], Some Restored).
Proof.
  intros Hparse.
  assert (Htry : restore_try text = inr []) by (unfold restore_try; by rewrite Hparse).
  split_and!; [done|done|]. unfold restoreData. by rewrite Htry.
Qed.

Lemma restore_empty_array_witness :
  restoreData (Some "[]"%string) (List.map toJSON Sample.catalog) = ([], Some Restored).
Proof.
  apply (restore_empty_array "[]"%string (List.map toJSON Sample.catalog)).
  vm_compute. reflexivity.
Defined.

(** *** Restore after backup *)

Lemma strings_canonical l : Forall canonical (List.map JString l).
Proof. induction l; simpl; constructor; [constructor|done]. Qed.

Lemma toJSON_canonical m : canonical (toJSON m).
Proof.
  destruct m as [i n t mt sz du c tg ud vw [w|] [h|]]; unfold toJSON; simpl;
    (constructor; [compute_done|]);
    repeat (constructor; simpl; try apply strings_canonical).
Qed.

Lemma catalog_canonical media : canonical (JArray (List.map toJSON media)).
Proof.
  constructor. induction media; simpl; constructor; [apply toJSON_canonical|done].
Qed.

Lemma truthy_non_empty s : s ≠ ""%string → truthy (JString s) = true.
Proof. intros H. simpl. by apply negb_true_iff, String.eqb_neq. Qed.

Lemma toJSON_valid m : well_formed m → valid_element (toJSON m).
Proof.
  intros (Hi & Hn & Hd).
  destruct m as [i n t mt sz du c tg ud vw [w|] [h|]]; simpl in *;
    (split_and!; eexists _, _;
     (split; [reflexivity|split; [reflexivity|by apply truthy_empty, truthy_non_empty]])).
Qed.

Lemma as_strings_map l : as_strings (Some (JArray (List.map JString l))) = Some l.
Proof.
  simpl. induction l as [|x l IH]; simpl; [done|]. by rewrite IH.
Qed.

Lemma fromJSON_toJSON m : fromJSON (toJSON m) = Some m.
Proof.
  destruct m as [i n t mt sz du c tg ud vw [w|] [h|]]; destruct t;
    unfold fromJSON, toJSON; simpl get; rewrite as_strings_map; reflexivity.
Qed.

Lemma read_catalog_toJSON media : read_catalog (List.map toJSON media) = Some media.
Proof.
  unfold read_catalog. induction media as [|m media IH]; [done|].
  rewrite List.map_cons. cbn [mapM]. rewrite fromJSON_toJSON. cbn [mbind option_bind].
  by rewrite IH.
Qed.

(** C1. For a catalog whose records are well formed (id, name and dataUrl
    not empty, which is what restore asks of an element) and a logged-in
    user, backup writes a text that restore accepts on whatever catalog is
    current: restore replaces that catalog by the objects that backup wrote,
    one per record and in catalog order, and they read back as the records
    of the original catalog. *)
Theorem restore_backup user media current :
  Forall well_formed media →
  ∃ text toast,
    backupData (Some user) media = Some (text, toast)
    ∧ restoreData (Some text) current = (List.map toJSON media, Some Restored)
    ∧ read_catalog (List.map toJSON media) = Some media.
Proof.
  intros Hwf. eexists _, _. split_and!.
  - reflexivity.
  - assert (Htry : restore_try (stringify (JArray (List.map toJSON media)))
                   = inr (List.map toJSON media)).
    { apply restore_try_inr. split.
      - apply JsonProperties.parse_stringify, catalog_canonical.
      - apply Forall_forall. intros item Hin.
        apply list_elem_of_In, in_map_iff in Hin as (m & <- & Hin).
        apply toJSON_valid. rewrite Forall_forall in Hwf.
        by apply Hwf, list_elem_of_In. }
    unfold restoreData. by rewrite Htry.
  - apply read_catalog_toJSON.
Qed.

Lemma restore_backup_witness :
  ∃ text toast,
    backupData (Some Sample.ana) Sample.catalog = Some (text, toast)
    ∧ restoreData (Some text) [] = (List.map toJSON Sample.catalog, Some Restored)
    ∧ read_catalog (List.map toJSON Sample.catalog) = Some Sample.catalog.
Proof.
  apply (restore_backup Sample.ana Sample.catalog []).
  repeat constructor; done.
Defined.

(** A record whose name is empty is written by backup and refused by
    restore. *)
Example restore_refuses_empty_name :
  let nameless := spread Sample.clip
    {| upd_id := None; upd_name := Some ""%string; upd_type := None;
       upd_mimeType := None; upd_size := None; upd_dataUrl := None;
       upd_category := None; upd_tags := None; upd_uploadDate := None;
       upd_views := None; upd_width := None; upd_height := None |} in
  ∃ text toast, backupData (Some Sample.ana) [nameless] = Some (text, toast)
              ∧ restoreData (Some text) [] = ([], Some InvalidBackupFormat).
Proof. do 2 eexists. split; [reflexivity|]. vm_compute. reflexivity. Qed.

End BackupProperties.

(** ** The persistent state cell *)

Module StorageProperties.
Import Json Storage Backup.

Lemma Boolean_true s : Media.Boolean s = true ↔ s ≠ ""%string.
Proof. unfold Media.Boolean. by destruct (String.eqb_spec s ""). Qed.

Lemma Boolean_compact v : Media.Boolean (compact v) = true.
Proof.
  pose proof (JsonProperties.compact_not_empty v) as H.
  unfold Media.Boolean. by destruct (String.eqb_spec (compact v) "").
Qed.

Lemma initialState_insert store key v initialValue :
  canonical v → initialState (<[key := compact v]> store) key initialValue = v.
Proof.
  intros Hv. unfold initialState, getItem.
  by rewrite lookup_insert_eq, Boolean_compact, JsonProperties.parse_compact.
Qed.

Lemma setValue_Some accepts key storedValue value e v :
  valueToStore storedValue value = Some v →
  setValue accepts key storedValue value e
  = {| queued := Some v;
       store := if accepts (store e) key (compact v)
                then <[key := compact v]> (store e) else store e |}.
Proof.
  intros Hvalue. unfold setValue, setItem. rewrite Hvalue.
  by destruct (accepts (store e) key (compact v)).
Qed.



(** X9. [setValue] computes from the value that the cell held when its
    render ran. Of the calls that one render makes, the last one decides:
    the cell then holds the value which that call computed from the value of
    the render, and the store holds its text if it took it. What the calls
    before it queued, updater functions included, is lost. *)
Theorem setValue_forgets_earlier_calls accepts key storedValue values value v e :
  valueToStore storedValue value = Some v →
  rerender storedValue (setValues accepts key storedValue (values ++ [value]) e) = v
  ∧ (accepts (store (setValues accepts key storedValue values e)) key (compact v) = true →
     getItem (store (setValues accepts key storedValue (values ++ [value]) e)) key
     = Some (compact v)).
Proof.
  intros Hvalue. unfold setValues. rewrite fold_left_app. simpl.
  rewrite (setValue_Some _ _ _ _ _ v) by done.
  split; [done|]. intros ->. cbn [store]. unfold getItem. by rewrite lookup_insert_eq.
Qed.

Lemma setValue_forgets_earlier_calls_witness :
  rerender (JArray [])
    (setValues Sample.roomy "k" (JArray []) ([Sample.push 1] ++ [Sample.push 2])
       {| queued := None; store := ∅ |})
  = JArray [JNumber 2]
  ∧ getItem
      (store (setValues Sample.roomy "k" (JArray []) ([Sample.push 1] ++ [Sample.push 2])
                {| queued := None; store := ∅ |}))
      "k"
    = Some "[2]"%string.
Proof.
  destruct (setValue_forgets_earlier_calls Sample.roomy "k" (JArray [])
              [Sample.push 1] (Sample.push 2) (JArray [JNumber 2])
              {| queued := None; store := ∅ |} eq_refl) as [H1 H2].
  split; [exact H1|]. apply H2. reflexivity.
Defined.

Lemma mediaKey_inj u u' :
  mediaKey (Some u) = mediaKey (Some u') → Auth.username u = Auth.username u'.
Proof. unfold mediaKey. intros H. by apply String.app_inj in H. Qed.

Lemma mediaKey_other user k : k ∈ otherKeys → mediaKey user ≠ k.
Proof.
  unfold otherKeys, mediaKey. intros Hk H. subst k.
  repeat (apply elem_of_cons in Hk as [Hk|Hk]; [by inversion Hk|]).
  by apply elem_of_nil in Hk.
Qed.

(** X10. The catalog is kept per user. Once the store took the catalog that
    the provider of a user wrote, the next session of that user starts from
    exactly that catalog; the item of any user with another name and the
    items under the other keys of the application are as they were. *)
Theorem catalog_is_stored_per_user accepts user other stored value media e :
  Auth.username other ≠ Auth.username user →
  valueToStore stored value = Some (JArray (List.map toJSON media)) →
  accepts (store e) (mediaKey (Some user)) (compact (JArray (List.map toJSON media))) = true →
  (∃ items,
      initialMedia (store (setMedia accepts (Some user) stored value e)) (Some user)
      = JArray items
      ∧ read_catalog items = Some media)
  ∧ getItem (store (setMedia accepts (Some user) stored value e)) (mediaKey (Some other))
    = getItem (store e) (mediaKey (Some other))
  ∧ ∀ k, k ∈ otherKeys →
      getItem (store (setMedia accepts (Some user) stored value e)) k
      = getItem (store e) k.
Proof.
  intros Hother Hvalue Haccepts. unfold setMedia, initialMedia.
  rewrite (setValue_Some _ _ _ _ _ (JArray (List.map toJSON media))) by done.
  rewrite Haccepts. cbn [store]. split_and!.
  - exists (List.map toJSON media). split.
    + apply initialState_insert, BackupProperties.catalog_canonical.
    + apply BackupProperties.read_catalog_toJSON.
  - unfold getItem. apply lookup_insert_ne.
    intros H. apply mediaKey_inj in H. congruence.
  - intros k Hk. unfold getItem. apply lookup_insert_ne.
    by apply mediaKey_other.
Qed.

Lemma catalog_is_stored_per_user_witness :
  (∃ items,
      initialMedia
        (store (setMedia Sample.roomy (Some Sample.ana) (JArray [])
                  (Value (JArray (List.map toJSON Sample.catalog)))
                  {| queued := None; store := ∅ |}))
        (Some Sample.ana)
      = JArray items
      ∧ read_catalog items = Some Sample.catalog)
  ∧ getItem
      (store (setMedia Sample.roomy (Some Sample.ana) (JArray [])
                (Value (JArray (List.map toJSON Sample.catalog)))
                {| queued := None; store := ∅ |}))
      (mediaKey (Some Sample.bob_secret))
    = None.
Proof.
  destruct (catalog_is_stored_per_user Sample.roomy Sample.ana Sample.bob_secret
              (JArray []) (Value (JArray (List.map toJSON Sample.catalog)))
              Sample.catalog {| queued := None; store := ∅ |})
    as (H1 & H2 & _).
  - discriminate.
  - reflexivity.
  - reflexivity.
  - split; [exact H1|exact H2].
Defined.

End StorageProperties.

(** ** The session across reloads *)

Module SessionProperties.
Import Json Storage Session.

Lemma loggedInUser_canonical u : canonical (loggedInUser u).
Proof.
  unfold loggedInUser. constructor.
  - simpl. apply NoDup_singleton.
  - repeat constructor.
Qed.

(** X11. A login that succeeds, and whose item the store takes, survives a
    reload: the provider then starts with the session of that user name.
    After a logout the provider starts with no session. *)
Theorem session_survives_reload accepts st store credentials :
  snd (Auth.login st credentials) = true →
  accepts store "currentUser"%string
    (compact (loggedInUser (Auth.username credentials))) = true →
  ∃ st' store',
    login accepts st store credentials = (st', store', Some true)
    ∧ Auth.user st' = Some (Auth.mkUser (Auth.username credentials) None)
    ∧ initialUser store' = Some (loggedInUser (Auth.username credentials))
    ∧ initialUser (snd (logout st' store')) = Some JNull.
Proof.
  intros Hlogin Haccepts. unfold login, setItem.
  destruct (Auth.login st credentials) as [st' success] eqn:E. simpl in Hlogin. subst.
  rewrite Haccepts. eexists _, _. split; [done|]. split_and!.
  - unfold Auth.login in E.
    destruct (Auth.truthy _ && Auth.strict_eq _ _); by inversion E.
  - unfold initialUser, getItem. rewrite lookup_insert_eq.
    rewrite StorageProperties.Boolean_compact.
    apply JsonProperties.parse_compact, loggedInUser_canonical.
  - unfold logout, initialUser, getItem, removeItem. simpl.
    by rewrite lookup_delete_eq.
Qed.

Lemma session_survives_reload_witness :
  ∃ st' store',
    login Sample.roomy (fst (Auth.register Auth.initial Sample.ana)) ∅ Sample.ana
    = (st', store', Some true)
    ∧ Auth.user st' = Some (Auth.mkUser "ana" None)
    ∧ initialUser store' = Some (loggedInUser "ana")
    ∧ initialUser (snd (logout st' store')) = Some JNull.
Proof.
  apply (session_survives_reload Sample.roomy
           (fst (Auth.register Auth.initial Sample.ana)) ∅ Sample.ana).
  - reflexivity.
  - reflexivity.
Defined.

(** *** What a change of session leaves alone *)





End SessionProperties.

(** ** The login form *)

Module FormProperties.
Import Auth AuthPage AuthProperties.
Import StorageProperties (Boolean_true).

(** In the render in which a [register] succeeds, [login] with the same
    credentials fails. *)
Lemma login_after_register st c :
  snd (register st c) = true → login st c = (st, false).
Proof.
  unfold register, login.
  by destruct (truthy (get (users st) (username c))).
Qed.

(** X12. A submission in register mode never changes the session. The
    [login] that [handleSubmit] calls after a [register] that succeeded is
    the function of the same render: it reads the directory of that render,
    which does not hold the new account, and fails. *)
Theorem register_mode_never_logs_in username password st :
  user (fst (handleSubmit true username password st)) = user st.
Proof.
  unfold handleSubmit.
  destruct (negb (Media.Boolean username) || negb (Media.Boolean password)); [done|].
  destruct (register st _) as [registered success] eqn:E.
  destruct success; simpl.
  - rewrite login_after_register; [done|]. by rewrite E.
  - unfold register in E.
    destruct (truthy (get (users st) _)); by inversion E.
Qed.

(** X13. After a submission in register mode that showed no error, a
    submission of the same user name and password in login mode, in the next
    render, logs that user in; the directory then holds the pair. *)
Theorem register_then_login username password st :
  snd (handleSubmit true username password st) = ""%string →
  handleSubmit false username password (fst (handleSubmit true username password st))
  = ({| user := Some {| Auth.username := username; password := None |};
        users := <[username := Some password]> (users st) |},
     ""%string).
Proof.
  unfold handleSubmit.
  destruct (Media.Boolean username) eqn:Hu; [|done].
  destruct (Media.Boolean password) eqn:Hp; [|done].
  simpl. unfold register. simpl.
  destruct (truthy (get (users st) username)) eqn:E; simpl; [done|].
  intros _. unfold login at 2. simpl. rewrite E. simpl.
  unfold login, get. simpl. rewrite lookup_insert_eq. simpl.
  apply Boolean_true in Hp. unfold Media.Boolean in *.
  destruct (String.eqb_spec password ""); [done|]. simpl.
  by rewrite String.eqb_refl.
Qed.

Lemma register_then_login_witness :
  handleSubmit false "ana" "Senha1" (fst (handleSubmit true "ana" "Senha1" initial))
  = ({| user := Some {| username := "ana"; password := None |};
        users := <["ana"%string := Some "Senha1"%string]> (users initial) |},
     ""%string).
Proof. apply (register_then_login "ana" "Senha1" initial). reflexivity. Defined.

Lemma handleSubmit_passwords_set showRegister username password st :
  passwords_set st → passwords_set (fst (handleSubmit showRegister username password st)).
Proof.
  intros Hset. unfold handleSubmit.
  destruct (Media.Boolean username) eqn:Hu; [|done].
  destruct (Media.Boolean password) eqn:Hp; [|done].
  simpl. destruct showRegister.
  - unfold register. simpl.
    destruct (truthy (get (users st) username)) eqn:E; simpl; [done|].
    unfold login. simpl. rewrite E. simpl.
    intros k y. simpl. rewrite lookup_insert. case_decide; [|by apply Hset].
    intros [= <-]. exists password. by apply Boolean_true in Hp.
  - unfold login.
    by destruct (truthy _ && strict_eq _ _).
Qed.

Lemma handleSubmit_keeps showRegister username password st u x :
  passwords_set st → users st !! u = Some x →
  users (fst (handleSubmit showRegister username password st)) !! u = Some x.
Proof.
  intros Hset Hx. unfold handleSubmit.
  destruct (Media.Boolean username) eqn:Hu; [|done].
  destruct (Media.Boolean password) eqn:Hp; [|done].
  simpl. destruct showRegister.
  - unfold register. simpl.
    destruct (truthy (get (users st) username)) eqn:E; simpl; [done|].
    unfold login. simpl. rewrite E. simpl.
    apply falsy_unstored in E; [|done].
    rewrite lookup_insert_ne; [done|]. congruence.
  - unfold login.
    by destruct (truthy _ && strict_eq _ _).
Qed.

Lemma submit_keeps subs st u x :
  passwords_set st → users st !! u = Some x →
  users (submit subs st) !! u = Some x ∧ passwords_set (submit subs st).
Proof.
  revert st. induction subs as [|[[showRegister username] password] subs IH];
    intros st Hset Hx; [done|].
  simpl. apply IH.
  - by apply handleSubmit_passwords_set.
  - by apply handleSubmit_keeps.
Qed.

Lemma submit_passwords_set subs : passwords_set (submit subs initial).
Proof.
  assert (∀ st, passwords_set st → passwords_set (submit subs st)) as H.
  { induction subs as [|[[showRegister username] password] subs IH]; intros st Hset;
      [done|].
    simpl. by apply IH, handleSubmit_passwords_set. }
  apply H. intros u x. simpl. by rewrite lookup_empty.
Qed.

(** X14. Through the form no account is ever overwritten. From the empty
    directory on, an entry that the directory holds after some submissions
    is a password that is not empty, and the directory holds the same
    password for that user name after any further submissions. *)
Theorem form_keeps_accounts before after u x :
  users (submit before initial) !! u = Some x →
  users (submit after (submit before initial)) !! u = Some x
  ∧ ∃ p, x = Some p ∧ p ≠ ""%string.
Proof.
  intros Hx. pose proof (submit_passwords_set before) as Hset. split.
  - by apply submit_keeps.
  - by apply (Hset u x).
Qed.

Lemma form_keeps_accounts_witness :
  users (submit [(true, "ana", "outra"); (false, "ana", "Senha1")]%string
           (submit [(true, "ana", "Senha1")]%string initial))
  !! "ana"%string
  = Some (Some "Senha1"%string)
  ∧ ∃ p, Some "Senha1"%string = Some p ∧ p ≠ ""%string.
Proof.
  apply (form_keeps_accounts [(true, "ana", "Senha1")]%string
           [(true, "ana", "outra"); (false, "ana", "Senha1")]%string
           "ana"%string (Some "Senha1"%string)).
  reflexivity.
Defined.

End FormProperties.

(** ** The toasts *)

Module ToastProperties.
Import Backup Toasts.

Lemma digits_inj n n' : JS.digits n = JS.digits n' → n = n'.
Proof.
  unfold JS.digits. intros H.
  apply DecimalN.Unsigned.to_uint_inj.
  apply (CatalogProperties.string_of_uint_dash _ _ "" ""). by rewrite H.
Qed.

(** X15. The id of a toast is the reading of the clock at which it was
    raised, so removing the toast of one reading (when its timer fires or it
    is dismissed) removes every toast that was raised at that reading, and
    leaves a toast raised at any other reading where it is. *)
Theorem removeToast_by_clock_reading n n' message type toasts :
  removeToast (JS.digits n) (addToast n' message type toasts)
  = if decide (n = n') then removeToast (JS.digits n) toasts
    else addToast n' message type (removeToast (JS.digits n) toasts).
Proof.
  unfold removeToast, addToast. rewrite List.filter_app. simpl.
  unfold JS.strict_eq.
  destruct (String.eqb_spec (JS.digits n') (JS.digits n)) as [E|E]; simpl.
  - apply digits_inj in E. subst. rewrite decide_True by done. by rewrite app_nil_r.
  - rewrite decide_False; [done|]. congruence.
Qed.

Lemma removeToast_elem t i toasts :
  t ∈ removeToast i toasts ↔ t ∈ toasts ∧ id t ≠ i.
Proof.
  unfold removeToast. rewrite !list_elem_of_In, filter_In, <- list_elem_of_In.
  unfold JS.strict_eq. destruct (String.eqb_spec (id t) i); simpl.
  - split; [by intros [_ ?]|]. by intros [_ ?].
  - split; [by intros [? _]|]. by intros [? _].
Qed.

Lemma run_empties events :
  timers_fire events →
  ∀ toasts,
    (∀ t, t ∈ toasts → ∃ n, id t = JS.digits n ∧ Timer n ∈ events) →
    run events toasts = [].
Proof.
  induction events as [|e events IH]; intros Hfire toasts Hall.
  - destruct toasts as [|t toasts]; [done|].
    destruct (Hall t) as (n & _ & H); [left|]. by apply elem_of_nil in H.
  - simpl. destruct e as [now message type|now|i]; simpl in Hfire.
    + destruct Hfire as [Hnow Hfire]. apply IH; [done|].
      intros t Ht. unfold addToast in Ht. apply elem_of_app in Ht as [Ht|Ht].
      * destruct (Hall t Ht) as (n & Hid & Hn). exists n. split; [done|].
        apply elem_of_cons in Hn as [Hn|Hn]; [discriminate|done].
      * apply list_elem_of_singleton in Ht. subst t. by exists now.
    + apply IH; [done|]. intros t Ht. apply removeToast_elem in Ht as [Ht Hne].
      destruct (Hall t Ht) as (n & Hid & Hn). exists n. split; [done|].
      apply elem_of_cons in Hn as [Hn|Hn]; [|done]. inversion Hn. congruence.
    + apply IH; [done|]. intros t Ht. apply removeToast_elem in Ht as [Ht Hne].
      destruct (Hall t Ht) as (n & Hid & Hn). exists n. split; [done|].
      apply elem_of_cons in Hn as [Hn|Hn]; [discriminate|done].
Qed.

(** X16. No toast stays for ever: from an empty list, after any sequence of
    toasts raised, timers fired and toasts dismissed in which the timer of
    every toast raised fires later on, the list is empty again. *)
Theorem toasts_all_expire events : timers_fire events → run events [] = [].
Proof.
  intros Hfire. apply run_empties; [done|].
  intros t Ht. by apply elem_of_nil in Ht.
Qed.

Lemma toasts_all_expire_witness :
  run [ Raise 1700000000000 "a" error; Raise 1700000000000 "b" error;
        Dismiss "1700000000000"; Raise 1700000000007 "c" info;
        Timer 1700000000000; Timer 1700000000007 ] []
  = [].
Proof.
  apply (toasts_all_expire
           [ Raise 1700000000000 "a" error; Raise 1700000000000 "b" error;
             Dismiss "1700000000000"; Raise 1700000000007 "c" info;
             Timer 1700000000000; Timer 1700000000007 ]).
  simpl. repeat constructor.
Defined.

End ToastProperties.

(** ** The upload dialog *)

Module UploadProperties.
Import Media Backup Upload.

(** *** [Promise.all] *)

Lemma all_Fulfilled {A} (promises : list (settled A)) values :
  all promises = Fulfilled values ↔ promises = List.map Fulfilled values.
Proof.
  revert values. induction promises as [|p promises IH]; intros values; simpl.
  - split.
    + intros [= <-]. done.
    + by destruct values.
  - destruct p as [a| |]; destruct (all promises) as [l| |] eqn:E;
      try (split; [done|]; destruct values as [|v values]; [done|];
           intros [= _ H]; apply IH in H; done);
      try (split; [done|]; by destruct values).
    split.
    + intros [= <-]. simpl. f_equal. by apply IH.
    + destruct values as [|v values]; [done|]. intros [= <- H].
      apply IH in H. by inversion H.
Qed.

Lemma all_Rejected {A} (promises : list (settled A)) :
  all promises = Rejected ↔ Rejected ∈ promises.
Proof.
  induction promises as [|p promises IH]; simpl.
  - split; [done|]. intros H. by apply elem_of_nil in H.
  - rewrite elem_of_cons, <- IH.
    destruct p as [a| |]; destruct (all promises) as [l| |]; intuition congruence.
Qed.

Lemma all_Pending {A} (promises : list (settled A)) :
  all promises = Pending ↔ (Rejected ∉ promises) ∧ Pending ∈ promises.
Proof.
  induction promises as [|p promises IH]; simpl.
  - split; [done|]. intros [_ H]. by apply elem_of_nil in H.
  - rewrite not_elem_of_cons, elem_of_cons.
    pose proof (all_Rejected promises) as HR.
    destruct p as [a| |]; destruct (all promises) as [l| |]; intuition congruence.
Qed.

(** *** The files of the dialog *)

Lemma handleFileChange_within_limit selected files :
  Forall (fun file => file_size file ≤ maxSize) files →
  Forall (fun file => file_size file ≤ maxSize) (fst (handleFileChange selected files)).
Proof.
  intros Hfiles. destruct selected as [selected|]; simpl; [|done].
  apply Forall_app. split; [done|].
  apply Forall_forall. intros file Hin.
  apply list_elem_of_In, filter_In in Hin as [_ Hsize].
  unfold tooLarge in Hsize. lia.
Qed.

Lemma chosen_within_limit changes :
  Forall (fun file => file_size file ≤ maxSize) (chosen changes).
Proof.
  unfold chosen.
  assert (∀ files, Forall (fun file => file_size file ≤ maxSize) files →
            Forall (fun file => file_size file ≤ maxSize)
              (fold_left (fun files selected => fst (handleFileChange selected files))
                 changes files)) as H.
  { induction changes as [|selected changes IH]; intros files Hfiles; simpl; [done|].
    apply IH. by apply handleFileChange_within_limit. }
  apply H. constructor.
Qed.

Lemma upload_one_size category fp nm :
  upload_one category fp = Fulfilled nm → new_size nm = file_size (fst fp).
Proof.
  destruct fp as [file p]. unfold upload_one, mediaToUpload.
  destruct (read p); [|done].
  destruct (JS.startsWith "image" (file_type file)).
  - destruct (generated p); [|done]. destruct (measured p); [|done].
    by intros [= <-].
  - by intros [= <-].
Qed.

(** X17. No file above 5 MB gets into the catalog through the dialog:
    whatever was chosen or dropped since the dialog opened, every record in
    the catalog after the upload was in the catalog before or has a size of
    at most [5 * 1024 * 1024] bytes. *)
Theorem uploads_are_within_limit changes category files catalog r :
  List.map fst files = chosen changes →
  r ∈ media (handleUpload category files catalog) →
  r ∈ catalog ∨ size r ≤ maxSize.
Proof.
  intros Hfiles Hr. unfold handleUpload in Hr.
  destruct files as [|fp0 files0] eqn:Efiles; [by left|]. rewrite <- Efiles in *.
  clear Efiles.
  destruct (all (List.map (upload_one category) files)) as [batch| |] eqn:E;
    simpl in Hr; [|by left..].
  apply all_Fulfilled in E. unfold addMedia in Hr.
  apply elem_of_app in Hr as [Hr|Hr]; [|by left]. right.
  apply list_elem_of_In, in_map_iff in Hr as ([t nm] & <- & Hin).
  simpl. apply in_combine_r in Hin.
  assert (In (Fulfilled nm) (List.map (upload_one category) files)) as Hnm.
  { rewrite E. by apply in_map. }
  apply in_map_iff in Hnm as (fp & Hfp & Hin').
  rewrite (upload_one_size category fp nm Hfp).
  pose proof (chosen_within_limit changes) as Hall. rewrite <- Hfiles in Hall.
  rewrite Forall_forall in Hall. apply Hall.
  apply list_elem_of_In, in_map. done.
Qed.

Lemma upload_one_resolved category fp :
  settles fp → upload_one category fp = Fulfilled (resolved category fp).
Proof.
  destruct fp as [file p]. unfold settles, upload_one, resolved. cbn [fst snd].
  intros [Hread Himage].
  destruct (read p) as [dataUrl|]; [|done].
  destruct (JS.startsWith "image" (file_type file)) eqn:E.
  - destruct (Himage eq_refl) as [Hg Hm].
    destruct (generated p); [|done]. by destruct (measured p).
  - unfold mediaToUpload. by rewrite E.
Qed.

Lemma upload_one_settles category fp nm :
  upload_one category fp = Fulfilled nm → settles fp.
Proof.
  destruct fp as [file p]. unfold settles, upload_one. cbn [fst snd].
  destruct (read p); [|done].
  destruct (JS.startsWith "image" (file_type file)); [|done].
  destruct (generated p); [|done]. by destruct (measured p).
Qed.

Lemma zip_map {A B C} (f : A → B) (g : A → C) (l : list A) :
  zip (List.map f l) (List.map g l) = List.map (fun x => (f x, g x)) l.
Proof. induction l as [|x l IH]; simpl; [done|]. by rewrite IH. Qed.

Lemma all_resolved category files :
  Forall settles files →
  all (List.map (upload_one category) files)
  = Fulfilled (List.map (resolved category) files).
Proof.
  intros Hall. apply all_Fulfilled. rewrite List.map_map.
  apply map_ext_in. intros fp Hin. apply upload_one_resolved.
  rewrite Forall_forall in Hall. by apply Hall, list_elem_of_In.
Qed.

Lemma uploads_are_within_limit_witness :
  newMediaItem (Sample.instant "0.125")
    (mediaToUpload "" Sample.movie "data:;base64,CCCC" [] (0, 0))
  ∈ [Sample.sunset]
  ∨ size (newMediaItem (Sample.instant "0.125")
            (mediaToUpload "" Sample.movie "data:;base64,CCCC" [] (0, 0)))
    ≤ maxSize.
Proof.
  apply (uploads_are_within_limit [Some [Sample.movie]] ""
           [(Sample.movie, Sample.settling "0.125")] [Sample.sunset]).
  - reflexivity.
  - vm_compute. apply list_elem_of_here.
Defined.

(** *** The three ways an upload ends *)

(** X18. An upload adds every chosen file or none. When every file is read,
    and every image tagged and measured, the catalog gets one record per
    file, in the order of the files and before the records it had, the
    dialog closes and the toast counts the files. When that is not so for
    one file, the catalog stays as it was and the dialog stays open; when
    the reading of one file fails, the error toast is raised and the spinner
    stops, whatever became of the other files. *)
Theorem upload_is_all_or_nothing category files catalog :
  files ≠ [] →
  (Forall settles files →
   handleUpload category files catalog
   = {| media :=
          List.map (fun fp => newMediaItem (instant (snd fp)) (resolved category fp)) files
          ++ catalog;
        spinner := Some true; closed := true;
        toast := Some {| message := JS.digits (N.of_nat (length files))
                                    ++ " arquivo(s) enviado(s) com sucesso!";
                         toastType := success |} |})
  ∧ (¬ Forall settles files →
     media (handleUpload category files catalog) = catalog
     ∧ closed (handleUpload category files catalog) = false)
  ∧ (∀ file p, (file, p) ∈ files → read p = None →
     handleUpload category files catalog
     = {| media := catalog; spinner := Some false; closed := false;
          toast := Some {| message := "Ocorreu um erro durante o envio.";
                           toastType := error |} |}).
Proof.
  intros Hne. unfold handleUpload.
  destruct files as [|fp0 files0] eqn:Efiles; [done|].
  rewrite <- Efiles in *. clear Efiles. split_and!.
  - intros Hall. rewrite all_resolved by done.
    unfold addMedia. by rewrite zip_map, List.map_map.
  - intros Hnot.
    destruct (all (List.map (upload_one category) files)) as [batch| |] eqn:E; [|done..].
    exfalso. apply Hnot. apply all_Fulfilled in E.
    apply Forall_forall. intros fp Hin.
    assert (In (upload_one category fp) (List.map Fulfilled batch)) as H.
    { rewrite <- E. by apply in_map, list_elem_of_In. }
    apply in_map_iff in H as (nm & H & _). by eapply upload_one_settles.
  - intros file p Hin Hread.
    assert (all (List.map (upload_one category) files) = Rejected) as ->; [|done].
    apply all_Rejected, list_elem_of_In, in_map_iff.
    exists (file, p). split; [|by apply list_elem_of_In].
    simpl. by rewrite Hread.
Qed.

Lemma upload_is_all_or_nothing_witness :
  media (handleUpload "" [(Sample.movie, Sample.settling "0.125");
                          (Sample.poster, Sample.settling "0.375")] Sample.catalog)
  = [ newMediaItem (Sample.instant "0.125")
        (resolved "" (Sample.movie, Sample.settling "0.125"));
      newMediaItem (Sample.instant "0.375")
        (resolved "" (Sample.poster, Sample.settling "0.375")) ]
    ++ Sample.catalog.
Proof.
  destruct (upload_is_all_or_nothing ""
              [(Sample.movie, Sample.settling "0.125");
               (Sample.poster, Sample.settling "0.375")] Sample.catalog)
    as (H & _ & _).
  - discriminate.
  - rewrite H; [reflexivity|].
    repeat constructor; simpl; discriminate.
Defined.

(** X19. An upload can wait for ever. When no reading fails and one image
    is never tagged or never measured ([getImageDimensions] has no handler
    for an image that fails to load), [handleUpload] does not get past
    [Promise.all]: the catalog stays as it was, no toast is raised, the
    dialog stays open and the spinner stays on. *)
Theorem upload_waits_for_ever category files catalog file p :
  Forall (fun fp => read (snd fp) ≠ None) files →
  (file, p) ∈ files →
  JS.startsWith "image" (file_type file) = true →
  generated p = None ∨ measured p = None →
  handleUpload category files catalog
  = {| media := catalog; spinner := Some true; closed := false; toast := None |}.
Proof.
  intros Hreads Hin Himage Hnever. unfold handleUpload.
  destruct files as [|fp0 files0] eqn:Efiles; [by apply elem_of_nil in Hin|].
  rewrite <- Efiles in *. clear Efiles.
  assert (all (List.map (upload_one category) files) = Pending) as ->; [|done].
  apply all_Pending. split.
  - intros H. apply list_elem_of_In, in_map_iff in H as ([file' p'] & H & Hin').
    rewrite Forall_forall in Hreads.
    specialize (Hreads (file', p') ltac:(by apply list_elem_of_In)).
    unfold upload_one in H. simpl in Hreads.
    destruct (read p'); [|done].
    destruct (JS.startsWith "image" (file_type file')); [|done].
    destruct (generated p'); [|done]. by destruct (measured p').
  - apply list_elem_of_In, in_map_iff. exists (file, p).
    split; [|by apply list_elem_of_In].
    rewrite Forall_forall in Hreads. specialize (Hreads (file, p) Hin). simpl in *.
    destruct (read p); [|done]. rewrite Himage.
    destruct Hnever as [-> | ->]; [done|]. by destruct (generated p).
Qed.

Lemma upload_waits_for_ever_witness :
  handleUpload "" [(Sample.movie, Sample.settling "0.125");
                   (Sample.poster, Sample.undecodable "0.375")] Sample.catalog
  = {| media := Sample.catalog; spinner := Some true; closed := false; toast := None |}.
Proof.
  apply (upload_waits_for_ever ""
           [(Sample.movie, Sample.settling "0.125");
            (Sample.poster, Sample.undecodable "0.375")]
           Sample.catalog Sample.poster (Sample.undecodable "0.375")).
  - repeat constructor; simpl; discriminate.
  - apply list_elem_of_further, list_elem_of_here.
  - reflexivity.
  - by right.
Defined.

End UploadProperties.

(** ** The tags of an image *)

Module GeminiProperties.
Import Gemini.
Import StorageProperties (Boolean_true).

(** *** White space at the start of a text *)

Section Strip.

Variable p1 : ascii → bool.
Variable p2 : ascii → ascii → bool.
Variable p3 : ascii → ascii → ascii → bool.

Lemma strip_1 a r :
  p1 a = true → strip_spaces p1 p2 p3 (a :: r) = strip_spaces p1 p2 p3 r.
Proof. intros H. simpl. by rewrite H. Qed.

Lemma strip_2 a b r :
  p1 a = false → p2 a b = true →
  strip_spaces p1 p2 p3 (a :: b :: r) = strip_spaces p1 p2 p3 r.
Proof. intros H1 H2. simpl. by rewrite H1, H2. Qed.

Lemma strip_3 a b c r :
  p1 a = false → p2 a b = false → p3 a b c = true →
  strip_spaces p1 p2 p3 (a :: b :: c :: r) = strip_spaces p1 p2 p3 r.
Proof. intros H1 H2 H3. simpl. by rewrite H1, H2, H3. Qed.

Lemma strip_stopped s : stopped p1 p2 p3 s → strip_spaces p1 p2 p3 s = s.
Proof.
  destruct s as [|a [|b [|c r]]]; simpl; [done|..].
  - by intros ->.
  - by intros [-> ->].
  - by intros (-> & -> & ->).
Qed.

(** The induction that follows the calls of [strip_spaces]. *)
Lemma strip_spaces_ind (P : list ascii → list ascii → Prop) :
  (∀ a r out, p1 a = true → P r out → P (a :: r) out) →
  (∀ a b r out, p1 a = false → p2 a b = true → P r out → P (a :: b :: r) out) →
  (∀ a b c r out,
     p1 a = false → p2 a b = false → p3 a b c = true → P r out →
     P (a :: b :: c :: r) out) →
  (∀ s, stopped p1 p2 p3 s → P s s) →
  ∀ s, P s (strip_spaces p1 p2 p3 s).
Proof.
  intros H1 H2 H3 H0 s.
  remember (length s) as n eqn:Hn. revert s Hn.
  induction n as [n IH] using lt_wf_ind. intros s Hn.
  assert (∀ r, (length r < length s)%nat → P r (strip_spaces p1 p2 p3 r)) as IH'.
  { intros r Hr. apply (IH (length r)); [lia|done]. }
  clear IH Hn.
  destruct s as [|a r1]; [by apply H0|].
  destruct (p1 a) eqn:E1.
  { rewrite strip_1 by done. apply H1; [done|]. apply IH'. simpl. lia. }
  destruct r1 as [|b r2]; [rewrite strip_stopped by done; by apply H0|].
  destruct (p2 a b) eqn:E2.
  { rewrite strip_2 by done. apply H2; [done..|]. apply IH'. simpl. lia. }
  destruct r2 as [|c r3]; [rewrite strip_stopped by done; by apply H0|].
  destruct (p3 a b c) eqn:E3.
  { rewrite strip_3 by done. apply H3; [done..|]. apply IH'. simpl. lia. }
  rewrite strip_stopped by done. by apply H0.
Qed.

Lemma strip_is_stopped s : stopped p1 p2 p3 (strip_spaces p1 p2 p3 s).
Proof. apply (strip_spaces_ind (fun _ out => stopped p1 p2 p3 out)); auto. Qed.

Lemma strip_idemp s :
  strip_spaces p1 p2 p3 (strip_spaces p1 p2 p3 s) = strip_spaces p1 p2 p3 s.
Proof. apply strip_stopped, strip_is_stopped. Qed.

Lemma strip_suffix s : ∃ pre, s = pre ++ strip_spaces p1 p2 p3 s.
Proof.
  apply (strip_spaces_ind (fun s out => ∃ pre, s = pre ++ out)).
  - intros a r out _ [pre ->]. by exists (a :: pre).
  - intros a b r out _ _ [pre ->]. by exists (a :: b :: pre).
  - intros a b c r out _ _ _ [pre ->]. by exists (a :: b :: c :: pre).
  - intros r _. by exists [].
Qed.

Lemma stopped_prefix s t : stopped p1 p2 p3 (s ++ t) → stopped p1 p2 p3 s.
Proof.
  destruct s as [|a [|b [|c r]]]; simpl; [done|..].
  - destruct t as [|b [|c t]]; simpl; tauto.
  - destruct t as [|c t]; simpl; tauto.
  - done.
Qed.

Lemma strip_all s : Forall (fun a => p1 a = true) s → strip_spaces p1 p2 p3 s = [].
Proof.
  induction 1 as [|a s Ha _ IH]; [done|]. by rewrite strip_1.
Qed.

End Strip.

Lemma trimStart_idemp s : trimStart (trimStart s) = trimStart s.
Proof. apply strip_idemp. Qed.

Lemma trimEnd_idemp s : trimEnd (trimEnd s) = trimEnd s.
Proof. unfold trimEnd. by rewrite rev_involutive, strip_idemp. Qed.

Lemma trimEnd_prefix s : ∃ post, s = trimEnd s ++ post.
Proof.
  unfold trimEnd.
  destruct (strip_suffix space1 (fun a b => space2 b a) (fun a b c => space3 c b a) (rev s))
    as [pre H].
  exists (rev pre). rewrite <- rev_app_distr, <- H. by rewrite rev_involutive.
Qed.

Lemma trimStart_trimEnd s : trimStart s = s → trimStart (trimEnd s) = trimEnd s.
Proof.
  intros H. apply strip_stopped.
  destruct (trimEnd_prefix s) as [post Hpost].
  apply (stopped_prefix _ _ _ _ post). rewrite <- Hpost, <- H.
  apply strip_is_stopped.
Qed.

Lemma trim_idemp s : trim (trim s) = trim s.
Proof.
  unfold trim. rewrite list_ascii_of_string_of_list_ascii.
  rewrite trimStart_trimEnd by apply trimStart_idemp.
  by rewrite trimEnd_idemp.
Qed.

(** *** The bytes of a text *)

Lemma chars_append a b :
  list_ascii_of_string (a ++ b) = list_ascii_of_string a ++ list_ascii_of_string b.
Proof. induction a as [|c a IH]; simpl; [done|]. by rewrite <- IH. Qed.

Lemma trimEnd_nil : trimEnd [] = [].
Proof. done. Qed.

Lemma trim_chars s c : c ∈ list_ascii_of_string (trim s) → c ∈ list_ascii_of_string s.
Proof.
  unfold trim. rewrite list_ascii_of_string_of_list_ascii. intros H.
  destruct (trimEnd_prefix (trimStart (list_ascii_of_string s))) as [post Hpost].
  destruct (strip_suffix space1 space2 space3 (list_ascii_of_string s)) as [pre Hpre].
  rewrite Hpre. apply elem_of_app. right.
  unfold trimStart in Hpost. rewrite Hpost. apply elem_of_app. by left.
Qed.

Lemma trim_spaces n s : trim (spaces n ++ s) = trim s.
Proof.
  unfold trim. f_equal. f_equal. induction n as [|n IH]; [done|].
  change (spaces (S n) ++ s)%string with (String " " (spaces n ++ s)).
  change (list_ascii_of_string (String " " (spaces n ++ s)))
    with (" "%char :: list_ascii_of_string (spaces n ++ s)).
  unfold trimStart in *. by rewrite strip_1.
Qed.

Lemma trim_white s :
  Forall (fun c => space1 c = true) (list_ascii_of_string s) → trim s = ""%string.
Proof.
  intros H. unfold trim, trimStart. by rewrite strip_all.
Qed.

(** *** [split] *)

Lemma split_not_nil sep s : split sep s ≠ [].
Proof.
  destruct s as [|c s]; simpl; [done|].
  destruct (Ascii.eqb c sep); [done|]. by destruct (split sep s).
Qed.

Lemma split_chars sep s piece c :
  piece ∈ split sep s → c ∈ list_ascii_of_string piece →
  c ∈ list_ascii_of_string s ∧ c ≠ sep.
Proof.
  revert piece. induction s as [|x s IH]; simpl; intros piece Hp Hc.
  - apply list_elem_of_singleton in Hp. subst. by apply elem_of_nil in Hc.
  - destruct (Ascii.eqb_spec x sep) as [->|Hne].
    + apply elem_of_cons in Hp as [->|Hp]; [by apply elem_of_nil in Hc|].
      destruct (IH piece Hp Hc). split; [by right|done].
    + destruct (split sep s) as [|p ps] eqn:E; [by apply split_not_nil in E|].
      apply elem_of_cons in Hp as [->|Hp].
      * simpl in Hc. apply elem_of_cons in Hc as [->|Hc]; [split; [left|done]|].
        destruct (IH p ltac:(left) Hc). split; [by right|done].
      * destruct (IH piece ltac:(by right) Hc). split; [by right|done].
Qed.

Lemma split_whole sep s : sep ∉ list_ascii_of_string s → split sep s = [s].
Proof.
  induction s as [|c s IH]; simpl; [done|]. intros H.
  apply not_elem_of_cons in H as [Hne H].
  destruct (Ascii.eqb_spec c sep); [congruence|]. by rewrite IH.
Qed.

Lemma split_append sep a b :
  sep ∉ list_ascii_of_string a →
  split sep (a ++ String sep b) = a :: split sep b.
Proof.
  induction a as [|c a IH]; simpl; intros H.
  - change (("" ++ String sep b)%string) with (String sep b). simpl.
    by rewrite Ascii.eqb_refl.
  - apply not_elem_of_cons in H as [Hne H].
    change ((String c a ++ String sep b)%string) with (String c (a ++ String sep b)).
    simpl. destruct (Ascii.eqb_spec c sep); [congruence|]. by rewrite IH.
Qed.

Lemma spaces_no_comma n : ","%char ∉ list_ascii_of_string (spaces n).
Proof.
  induction n as [|n IH]; simpl; [apply not_elem_of_nil|].
  apply not_elem_of_cons. split; [done|exact IH].
Qed.

(** The pieces of the text that joins [tags] with a comma and [n] spaces. *)
Lemma split_join n tag tags :
  Forall (fun t => ","%char ∉ list_ascii_of_string t) (tag :: tags) →
  split "," (Json.join (String "," (spaces n)) (tag :: tags))
  = tag :: List.map (fun t => (spaces n ++ t)%string) tags.
Proof.
  revert tag. induction tags as [|tag' tags IH]; intros tag Hall.
  - apply Forall_cons in Hall as [Htag _]. simpl. by apply split_whole.
  - apply Forall_cons in Hall as [Htag Hall].
    change (Json.join (String "," (spaces n)) (tag :: tag' :: tags))
      with (tag ++ String "," (spaces n)
                ++ Json.join (String "," (spaces n)) (tag' :: tags))%string.
    change (String "," (spaces n) ++ ?x)%string with (String "," (spaces n ++ x)).
    rewrite split_append by done. f_equal.
    destruct tags as [|tag'' tags].
    + simpl. apply split_whole. rewrite chars_append.
      apply Forall_cons in Hall as [Htag' _].
      rewrite not_elem_of_app. split; [apply spaces_no_comma|done].
    + pose proof (IH tag' Hall) as H.
      change (Json.join (String "," (spaces n)) (tag' :: tag'' :: tags))
        with (tag' ++ String "," (spaces n)
                ++ Json.join (String "," (spaces n)) (tag'' :: tags))%string in H |- *.
      change (String "," (spaces n) ++ ?x)%string with (String "," (spaces n ++ x)) in H |- *.
      apply Forall_cons in Hall as [Htag' Hall].
      rewrite split_append in H by done. injection H as H.
      rewrite <- JsonProperties.append_assoc.
      rewrite split_append.
      * simpl. f_equal. exact H.
      * rewrite chars_append, not_elem_of_app. split; [apply spaces_no_comma|done].
Qed.

(** *** The tags that come back *)

(** X20. Whatever the key and the answer of the service, every tag that
    [generateTagsForImage] returns is not empty, holds no comma, and has no
    white space at its start or its end; the three fallback tags are such
    tags too. *)
Theorem tags_are_clean API_KEY response tag :
  tag ∈ generateTagsForImage API_KEY response → clean tag.
Proof.
  unfold generateTagsForImage.
  destruct (Boolean API_KEY); simpl;
    [|intros ->%list_elem_of_singleton; split_and!; [done|compute_done|done]].
  destruct response as [[t|]|];
    try (intros ->%list_elem_of_singleton; split_and!; [done|compute_done|done]).
  destruct (Media.Boolean t);
    [|intros ->%list_elem_of_singleton; split_and!; [done|compute_done|done]].
  intros H. apply list_elem_of_In, filter_In in H as [H Hne].
  apply in_map_iff in H as (piece & <- & Hpiece). split_and!.
  - by apply Boolean_true.
  - intros Hc. apply trim_chars in Hc.
    by destruct (split_chars "," t piece "," ltac:(by apply list_elem_of_In) Hc).
  - apply trim_idemp.
Qed.

Lemma tags_are_clean_witness : clean "praia".
Proof.
  apply (tags_are_clean (Some "key"%string) (Some (Some " sol , praia,"%string)) "praia").
  vm_compute. apply list_elem_of_further, list_elem_of_here.
Defined.

Lemma join_not_empty sep tag tags :
  tag ≠ ""%string → Json.join sep (tag :: tags) ≠ ""%string.
Proof.
  intros H. destruct tag as [|c tag]; [done|]. by destruct tags.
Qed.

(** X21. An answer in the form that the request asks for is read back tag
    by tag: with a key set, the text that joins tags (none empty, none with
    a comma or with white space at an end) with a comma and any number of
    spaces gives exactly those tags, in their order. *)
Theorem tags_read_back API_KEY n tag tags :
  Boolean (Some API_KEY) = true → Forall clean (tag :: tags) →
  generateTagsForImage (Some API_KEY)
    (Some (Some (Json.join (String "," (spaces n)) (tag :: tags))))
  = tag :: tags.
Proof.
  intros Hkey Hall. unfold generateTagsForImage. rewrite Hkey. simpl negb. cbv iota.
  assert (Media.Boolean (Json.join (String "," (spaces n)) (tag :: tags)) = true) as ->.
  { apply Boolean_true, join_not_empty. apply Forall_cons in Hall as [(H & _) _]. done. }
  rewrite split_join.
  2:{ eapply Forall_impl; [exact Hall|]. by intros t (_ & H & _). }
  apply Forall_cons in Hall as [(Hne & _ & Htrim) Hall].
  rewrite List.map_cons, Htrim. simpl List.filter.
  apply Boolean_true in Hne. rewrite Hne. f_equal.
  induction Hall as [|t tags (Hne' & _ & Htrim') Hall IH]; [done|].
  simpl. rewrite trim_spaces, Htrim'.
  apply Boolean_true in Hne'. rewrite Hne'. by rewrite IH.
Qed.

Lemma tags_read_back_witness :
  generateTagsForImage (Some "key"%string)
    (Some (Some (Json.join (String "," (spaces 1)) ["sol"; "praia"; "mar azul"]%string)))
  = ["sol"; "praia"; "mar azul"]%string.
Proof.
  apply (tags_read_back "key" 1 "sol" ["praia"; "mar azul"]%string).
  - reflexivity.
  - repeat constructor; compute_done.
Defined.

(** X22. An image can end up without any tag although the service
    answered: with a key set, an answer that is not empty and holds nothing
    but commas and white space gives the empty list, not a fallback tag. *)
Theorem separators_give_no_tag API_KEY text :
  Boolean (Some API_KEY) = true → text ≠ ""%string →
  Forall (fun c => c = ","%char ∨ space1 c = true) (list_ascii_of_string text) →
  generateTagsForImage (Some API_KEY) (Some (Some text)) = [].
Proof.
  intros Hkey Hne Hall. unfold generateTagsForImage. rewrite Hkey. simpl negb. cbv iota.
  apply Boolean_true in Hne. rewrite Hne.
  assert (∀ piece, piece ∈ split "," text → trim piece = ""%string) as Hpieces.
  { intros piece Hpiece. apply trim_white, Forall_forall. intros c Hc.
    destruct (split_chars "," text piece c Hpiece Hc) as [Hin Hsep].
    rewrite Forall_forall in Hall. by destruct (Hall c Hin). }
  induction (split "," text) as [|piece pieces IH]; [done|].
  simpl. rewrite (Hpieces piece) by left. simpl.
  apply IH. intros p Hp. apply Hpieces. by right.
Qed.

Lemma separators_give_no_tag_witness :
  generateTagsForImage (Some "key"%string) (Some (Some " , ,"%string)) = [].
Proof.
  apply (separators_give_no_tag "key" " , ,").
  - reflexivity.
  - discriminate.
  - repeat constructor; compute_done.
Defined.

End GeminiProperties.

(** ** The view on what the state cell holds *)

Module MediaGridProperties.
Import Json Media Backup MediaGrid.

Section Effect.

Variable toLowerCase : string → string.

Lemma some_strings search tags :
  some toLowerCase search (List.map JString tags)
  = inr (existsb (fun tag => JS.includes (toLowerCase tag) search) tags).
Proof.
  induction tags as [|tag tags IH]; [done|].
  simpl. destruct (JS.includes (toLowerCase tag) search); [done|]. exact IH.
Qed.

Lemma shown_toJSON search activeCategory m :
  shown toLowerCase search activeCategory (toJSON m)
  = inr (View.shown toLowerCase search activeCategory m).
Proof.
  unfold shown, View.shown, toJSON. simpl.
  destruct (JS.strict_eq activeCategory View.Todos); simpl;
    destruct (JS.includes (toLowerCase (name m)) search); simpl; try done;
    destruct (JS.includes (toLowerCase (category m)) search); simpl; try done;
    by rewrite some_strings.
Qed.

(** X23. On a catalog of records the effect of [MediaGrid] never throws,
    and what it shows is the view of the typed catalog: the JSON values of
    the records that pass the category filter and the text filter, in
    catalog order. *)
Theorem view_of_typed_catalog media searchTerm activeCategory :
  filteredMedia toLowerCase (List.map toJSON media) searchTerm activeCategory
  = inr (List.map toJSON (View.filteredMedia toLowerCase media searchTerm activeCategory)).
Proof.
  unfold filteredMedia, View.filteredMedia.
  induction media as [|m media IH]; [done|].
  simpl. rewrite shown_toJSON, IH.
  by destruct (View.shown toLowerCase (toLowerCase searchTerm) activeCategory m).
Qed.

Lemma some_throws_TypeError search tags e :
  some toLowerCase search tags = inl e → e = TypeError.
Proof.
  induction tags as [|tag tags IH]; simpl; [done|].
  unfold lowered. destruct tag; simpl; try (by intros [= <-]).
  destruct (JS.includes _ _); [done|]. apply IH.
Qed.

Lemma shown_throws_TypeError search activeCategory item e :
  shown toLowerCase search activeCategory item = inl e → e = TypeError.
Proof.
  unfold shown, some_tag, lowered, prop. intros H.
  repeat (case_match; simpl in *; simplify_eq; try done).
  all: match goal with
       | H : context [some ?f ?x ?l] |- _ =>
           destruct (some f x l) as [e'|b'] eqn:E; simpl in H; simplify_eq;
           by eapply some_throws_TypeError
       end.
Qed.

Lemma shown_throws search activeCategory item :
  name_is_no_string item → shown toLowerCase search activeCategory item = inl TypeError.
Proof.
  intros Hname. unfold name_is_no_string in Hname.
  destruct (shown toLowerCase search activeCategory item) as [e|b] eqn:E.
  - by rewrite (shown_throws_TypeError _ _ _ _ E).
  - exfalso. unfold shown, lowered in E.
    destruct item; simpl in *; repeat (case_match; simpl in *; simplify_eq; try done);
      by eapply Hname.
Qed.

Lemma filter_throws f items item :
  (∀ x e, f x = inl e → e = TypeError) →
  item ∈ items → f item = inl TypeError → filter f items = inl TypeError.
Proof.
  intros Hf. induction items as [|x items IH]; intros Hin Hitem.
  - by apply elem_of_nil in Hin.
  - simpl. destruct (f x) as [e|keep] eqn:E; [by rewrite (Hf x e E)|].
    apply elem_of_cons in Hin as [->|Hin]; [congruence|].
    by rewrite IH.
Qed.

(** X24. The validation of restore does not protect the view. A backup
    whose elements all have an id, a name and a dataUrl that are not empty
    is restored, also when the name of an element is not a string (a number,
    say); on the restored catalog the effect of [MediaGrid] then throws a
    [TypeError] for every search term and every category. *)
Theorem restore_does_not_protect_the_view text items item current searchTerm activeCategory :
  valid_backup text items → item ∈ items → name_is_no_string item →
  restoreData (Some text) current = (items, Some Restored)
  ∧ filteredMedia toLowerCase items searchTerm activeCategory = inl TypeError.
Proof.
  intros Hvalid Hin Hname. split.
  - unfold restoreData. apply BackupProperties.restore_try_inr in Hvalid. by rewrite Hvalid.
  - unfold filteredMedia. apply (filter_throws _ _ item); [|done|].
    + intros x e. apply shown_throws_TypeError.
    + by apply shown_throws.
Qed.

End Effect.

Lemma restore_does_not_protect_the_view_witness :
  restoreData (Some Sample.numbered_backup) [] = ([Sample.numbered], Some Restored)
  ∧ filteredMedia View.ascii_toLowerCase [Sample.numbered] "" View.Todos = inl TypeError.
Proof.
  apply (restore_does_not_protect_the_view View.ascii_toLowerCase Sample.numbered_backup
           [Sample.numbered] Sample.numbered [] "" View.Todos).
  - split; [reflexivity|].
    constructor; [|constructor].
    split_and!; eexists _, _;
      (split_and!; [reflexivity|reflexivity|by apply BackupProperties.truthy_empty]).
  - apply list_elem_of_here.
  - intros s. discriminate.
Defined.

(** *** The buttons of the categories *)

Lemma shown_in_category toLowerCase c r :
  toLowerCase ""%string = ""%string → c ≠ View.Todos →
  View.shown toLowerCase "" c r = true ↔ category r = c.
Proof.
  intros Hempty Hc. unfold View.shown, JS.strict_eq.
  rewrite (ViewProperties.includes_unfold (toLowerCase (name r))). simpl.
  destruct (String.eqb_spec c View.Todos); [done|].
  rewrite andb_true_r. simpl. apply String.eqb_eq.
Qed.

(** X25. Every button of a category shows something. With an empty search
    term, choosing a category that [categories] derived from the catalog,
    other than the sentinel, shows exactly the records of that category,
    and there is at least one. *)
Theorem category_button_shows_its_records toLowerCase media c :
  toLowerCase ""%string = ""%string → c ∈ categories media → c ≠ View.Todos →
  View.filteredMedia toLowerCase media "" c ≠ []
  ∧ ∀ r, r ∈ View.filteredMedia toLowerCase media "" c ↔ r ∈ media ∧ category r = c.
Proof.
  intros Hempty Hin Hc.
  assert (∀ r, r ∈ View.filteredMedia toLowerCase media "" c ↔ r ∈ media ∧ category r = c)
    as Hview.
  { intros r. unfold View.filteredMedia. rewrite Hempty.
    rewrite !list_elem_of_In, filter_In. by rewrite shown_in_category. }
  split; [|exact Hview].
  unfold categories in Hin. apply elem_of_cons in Hin as [->|Hin]; [done|].
  apply list_elem_of_In, filter_In in Hin as [Hin _]. apply list_elem_of_In in Hin.
  destruct (CatalogProperties.distinct_from_spec [] (List.map category media))
    as (_ & Hspec & _).
  apply Hspec in Hin as [Hin _].
  apply list_elem_of_In, in_map_iff in Hin as (r & Hr & Hin).
  intros Hnil. assert (r ∈ View.filteredMedia toLowerCase media "" c) as H.
  { apply Hview. split; [by apply list_elem_of_In|done]. }
  rewrite Hnil in H. by apply elem_of_nil in H.
Qed.

Lemma category_button_shows_its_records_witness :
  View.filteredMedia View.ascii_toLowerCase Sample.catalog "" "Nature" ≠ []
  ∧ ∀ r, r ∈ View.filteredMedia View.ascii_toLowerCase Sample.catalog "" "Nature"
         ↔ r ∈ Sample.catalog ∧ category r = "Nature"%string.
Proof.
  apply (category_button_shows_its_records View.ascii_toLowerCase Sample.catalog "Nature").
  - reflexivity.
  - vm_compute. apply list_elem_of_further, list_elem_of_here.
  - discriminate.
Defined.

End MediaGridProperties.

(** ** Calls of the catalog that undo one another *)

Module UndoProperties.
Import Media.

Lemma deleteMedia_each_spec these media :
  deleteMedia_each these media
  = List.filter (fun item => negb (existsb (JS.strict_eq (id item)) these)) media.
Proof.
  unfold deleteMedia_each. revert media.
  induction these as [|i these IH]; intros media; simpl.
  - induction media as [|m media IHm]; simpl; [done|]. by rewrite <- IHm.
  - rewrite IH. unfold deleteMedia.
    induction media as [|m media IHm]; simpl; [done|].
    destruct (JS.strict_eq (id m) i); simpl; [done|].
    destruct (existsb (JS.strict_eq (id m)) these); simpl; [done|]. by rewrite IHm.
Qed.

Lemma filter_none {A} (f : A → bool) l :
  (∀ x, x ∈ l → f x = false) → List.filter f l = [].
Proof.
  induction l as [|x l IH]; intros H; simpl; [done|].
  rewrite (H x) by left. apply IH. intros y Hy. apply H. by right.
Qed.

Lemma filter_every {A} (f : A → bool) l :
  (∀ x, x ∈ l → f x = true) → List.filter f l = l.
Proof.
  induction l as [|x l IH]; intros H; simpl; [done|].
  rewrite (H x) by left. rewrite IH; [done|]. intros y Hy. apply H. by right.
Qed.

(** X26. Deleting what an upload added gives the catalog back. When none of
    the ids that [addMedia] generated for a batch was in use, deleting those
    ids, in any order, leaves exactly the catalog as it was before the
    batch, in its order. *)
Theorem delete_undoes_add files media these :
  (∀ i, i ∈ newIds files → i ∉ ids media) →
  these ≡ₚ newIds files →
  deleteMedia_each these (addMedia files media) = media.
Proof.
  intros Hfresh Hperm. rewrite deleteMedia_each_spec. unfold addMedia.
  rewrite List.filter_app.
  assert (∀ m, existsb (JS.strict_eq (id m)) these = true ↔ id m ∈ newIds files) as Hin.
  { intros m. rewrite CatalogProperties.existsb_strict_eq. by rewrite Hperm. }
  rewrite filter_none, filter_every; [done|..].
  - intros m Hm. apply negb_true_iff.
    destruct (existsb (JS.strict_eq (id m)) these) eqn:E; [|done].
    apply Hin in E. exfalso. apply (Hfresh (id m) E).
    by apply list_elem_of_In, in_map, list_elem_of_In.
  - intros m Hm. apply list_elem_of_In, in_map_iff in Hm as (tf & <- & Htf).
    apply negb_false_iff, Hin. simpl.
    apply list_elem_of_In, in_map_iff. by exists tf.
Qed.

Lemma delete_undoes_add_witness :
  deleteMedia_each ["1700000000002-0.375"; "1700000000002-0.125"]%string
    (addMedia Sample.batch Sample.catalog)
  = Sample.catalog.
Proof.
  apply (delete_undoes_add Sample.batch Sample.catalog
           ["1700000000002-0.375"; "1700000000002-0.125"]%string).
  - intros i Hi. vm_compute in Hi.
    repeat (apply elem_of_cons in Hi as [->|Hi]; [compute_done|]).
    by apply elem_of_nil in Hi.
  - vm_compute. apply perm_swap.
Defined.

End UndoProperties.

(** ** Restore and the store *)

Module RestoreProperties.
Import Json Storage Backup.

(** *** What [JSON.parse] returns holds each key once *)

Lemma keys_set k v props :
  List.map fst (set k v props)
  = if bool_decide (k ∈ List.map fst props) then List.map fst props
    else (List.map fst props ++ [k])%list.
Proof.
  induction props as [|[k' v'] props IH]; simpl; [done|].
  destruct (String.eqb_spec k' k) as [->|Hne]; simpl.
  - rewrite bool_decide_eq_true_2; [done|left].
  - rewrite IH. case_bool_decide as Hin.
    + rewrite bool_decide_eq_true_2; [done|by right].
    + rewrite bool_decide_eq_false_2; [done|].
      rewrite not_elem_of_cons. split; [congruence|done].
Qed.

Lemma set_keyed k v props :
  keyed v → keyed (JObject props) → keyed (JObject (set k v props)).
Proof.
  intros Hv Hprops. inversion Hprops as [| | | | | |? Hnd Hall]; subst.
  constructor.
  - rewrite keys_set. case_bool_decide as Hin; [done|].
    apply NoDup_app. split_and!; [done| |apply NoDup_singleton].
    intros x Hx ->%list_elem_of_singleton. done.
  - clear Hnd Hprops. induction Hall as [|[k' v'] props Hkv Hall IH]; simpl.
    + by repeat constructor.
    + destruct (String.eqb k' k); constructor; simpl in *; auto.
Qed.

Lemma object_of_keyed members :
  Forall (fun kv => keyed (snd kv)) members → keyed (JObject (object_of members)).
Proof.
  unfold object_of.
  assert (∀ acc, keyed (JObject acc) →
            Forall (fun kv => keyed (snd kv)) members →
            keyed (JObject (fold_left (fun o kv => set (fst kv) (snd kv) o) members acc)))
    as H.
  { induction members as [|[k v] members IH]; intros acc Hacc Hall; simpl; [done|].
    apply Forall_cons in Hall as [Hv Hall].
    apply IH; [|done]. by apply set_keyed. }
  apply H. constructor; [constructor|constructor].
Qed.

Lemma of_double_keyed x : keyed (of_double x).
Proof.
  destruct x as [s|s| |s m e]; simpl; try constructor.
  repeat case_match; constructor.
Qed.

Lemma parse_number_keyed s v r : parse_number s = Some (v, r) → keyed v.
Proof.
  unfold parse_number. intros H.
  repeat (case_match; try discriminate H); simplify_eq;
    unfold number; repeat case_match; first [constructor|apply of_double_keyed].
Qed.

Lemma parse_keyed fuel :
  (∀ s v r, parse_value fuel s = Some (v, r) → keyed v)
  ∧ (∀ s vs r, parse_elements fuel s = Some (vs, r) → Forall keyed vs)
  ∧ (∀ s ms r, parse_members fuel s = Some (ms, r) →
       Forall (fun kv => keyed (snd kv)) ms).
Proof.
  induction fuel as [|fuel (IHv & IHe & IHm)]; [done|].
  split_and!; intros s x r H;
    cbn [parse_value parse_elements parse_members] in H;
    repeat (case_match; try discriminate H); simplify_eq;
    repeat match goal with
    | H : parse_number _ = Some _ |- _ => apply parse_number_keyed in H
    | H : parse_value _ _ = Some _ |- _ => apply IHv in H
    | H : parse_elements _ _ = Some _ |- _ => apply IHe in H
    | H : parse_members _ _ = Some _ |- _ => apply IHm in H
    end;
    try done;
    try (by constructor);
    try (by apply object_of_keyed);
    try (by repeat constructor).
Qed.

Lemma parse_is_keyed text v : parse text = Some v → keyed v.
Proof.
  unfold parse. intros H.
  destruct (parse_value _ text) as [[v' r]|] eqn:E; [|done].
  destruct (skip_ws r); [|done]. injection H as <-.
  by apply (proj1 (parse_keyed _) _ _ _ E).
Qed.

(** With distinct keys and safe numbers, a value reads back from its
    text. *)
Lemma keyed_safe_canonical v : keyed v → safe v → canonical v.
Proof.
  induction v as [|b|n|x|s|items IH|props IH] using json_ind'; intros Hk Hs.
  - constructor.
  - constructor.
  - constructor.
  - inversion Hs.
  - constructor.
  - inversion Hk as [| | | | |? Hitems|]; inversion Hs as [| | | |? Hsafe|]; subst.
    constructor. rewrite Forall_forall in IH, Hitems, Hsafe |- *. auto.
  - inversion Hk as [| | | | | |? Hnd Hprops]; inversion Hs as [| | | | |? Hsafe]; subst.
    constructor; [done|].
    rewrite Forall_forall in IH, Hprops, Hsafe |- *. auto.
Qed.

(** X27. A restore that succeeds is kept across a reload, and one that
    fails changes nothing. For a backup that restore accepts, whatever the
    numbers in it (with a fraction, with an exponent), the cell of the
    catalog holds the restored sequence at the next render and the success
    toast is raised. When the numbers of the sequence are integers of at
    most [2^53] in size, a reload starts from that sequence if the store
    took it, and from what the store held before if [setItem] threw. For
    any other text the cell and the store stay as they were. *)
Theorem restore_survives_reload accepts user media text e :
  (∀ items, valid_backup text items →
     snd (Storage.restoreData accepts user media (Some text) e) = Some Restored
     ∧ rerender media (fst (Storage.restoreData accepts user media (Some text) e)) = JArray items
     ∧ (safe (JArray items) →
        initialMedia (store (fst (Storage.restoreData accepts user media (Some text) e))) user
        = if accepts (store e) (mediaKey user) (compact (JArray items)) then JArray items
          else initialMedia (store e) user))
  ∧ ((¬ ∃ items, valid_backup text items) →
     Storage.restoreData accepts user media (Some text) e = (e, Some InvalidBackupFormat)).
Proof.
  split.
  - intros items Hvalid.
    pose proof Hvalid as [Hparse _]. apply parse_is_keyed in Hparse.
    apply BackupProperties.restore_try_inr in Hvalid.
    unfold Storage.restoreData, setMedia, initialMedia. rewrite Hvalid. cbn [fst snd].
    rewrite (StorageProperties.setValue_Some _ _ _ _ _ (JArray items)) by done.
    split_and!; [done..|]. intros Hsafe. cbn [store].
    destruct (accepts (store e) (mediaKey user) (compact (JArray items))); [|done].
    apply StorageProperties.initialState_insert.
    by apply keyed_safe_canonical.
  - intros Hnone. unfold Storage.restoreData.
    destruct (restore_try text) as [err|items] eqn:E; [done|].
    exfalso. apply Hnone. exists items. by apply BackupProperties.restore_try_inr.
Qed.

Lemma restore_survives_reload_witness :
  initialMedia
    (store (fst (Storage.restoreData Sample.roomy (Some Sample.ana) (JArray [])
                   (Some Sample.decimal_backup) {| queued := None; store := ∅ |})))
    (Some Sample.ana)
  = JArray Sample.decimal_items.
Proof.
  destruct (restore_survives_reload Sample.roomy (Some Sample.ana) (JArray [])
              Sample.decimal_backup {| queued := None; store := ∅ |}) as [H _].
  destruct (H Sample.decimal_items) as (_ & _ & H3).
  - split; [vm_compute; reflexivity|].
    constructor; [|constructor].
    split_and!; eexists _, _;
      (split_and!; [reflexivity|reflexivity|by apply BackupProperties.truthy_empty]).
  - apply H3. repeat (constructor; try (vm_compute; discriminate)).
Defined.

End RestoreProperties.
